(** * DTVM: the EVM byte-code interpreter of [src/evm]

    A shallow embedding of [src/evm/interpreter.h], [src/evm/opcode.h] and
    [src/evm/interpreter.cpp], followed by the properties of the arithmetic
    on 256-bit words, of the opcode handlers and of the interpreter loop.

    Conventions of the embedding:
    - a [uint8_t], [uint16_t], [int16_t], [uint64_t] or [size_t] value is an
      integer of [Z]; every conversion to such a type is written out as the
      wrap-around it performs ([size_t] is taken to be 64 bits wide);
    - a [std::array] or [std::vector] is a [list], read with [l !!! i] and
      written with [<[i:=x]> l]; an access the C++ code performs outside of
      the container is an outcome of its own ([OutOfBounds]);
    - [std::vector::resize] to more than [max_size()] bytes throws
      [std::length_error], an outcome of its own ([LengthError]); within
      [max_size()] the allocation is taken to succeed: whether the allocator
      gives up earlier ([std::bad_alloc]) depends on the machine and not on
      the program;
    - a pointer into the code buffer is an offset into the list of its bytes;
    - a handler runs in a small state-and-fault monad over the frame, so that
      the frame at the moment a fault is raised can be observed. *)

From stdpp Require Import base list numbers.
From Stdlib Require Import ZArith Lia.

Local Open Scope Z_scope.

(* ================================================================== *)
(** ** Fixed-width integers *)
(* ================================================================== *)

Definition uint8_t (z : Z) : Z := z mod 2 ^ 8.
Definition uint16_t (z : Z) : Z := z mod 2 ^ 16.
Definition int16_t (z : Z) : Z := (z + 2 ^ 15) mod 2 ^ 16 - 2 ^ 15.
Definition uint64_t (z : Z) : Z := z mod 2 ^ 64.
Definition size_t (z : Z) : Z := z mod 2 ^ 64.

(* ================================================================== *)
(** ** interpreter.h: [UInt256] *)
(* ================================================================== *)

(** [struct UInt256 { std::array<uint8_t, 32> Bytes{}; }], little endian. *)
Record UInt256 : Type := mkUInt256 { Bytes : list Z }.

(** [UInt256 Res{}]: thirty-two zero bytes. *)
Definition UInt256_zero : UInt256 := mkUInt256 (replicate 32 0).

Global Instance UInt256_inhabited : Inhabited UInt256 := populate UInt256_zero.

(** What the C++ type guarantees of a word: 32 entries, each a [uint8_t]. *)
Definition is_byte (b : Z) : Prop := 0 <= b < 256.
Definition wf_bytes (n : nat) (l : list Z) : Prop :=
  length l = n /\ Forall is_byte l.
Definition wf_word (W : UInt256) : Prop := wf_bytes 32 (Bytes W).

Global Instance is_byte_dec (b : Z) : Decision (is_byte b).
Proof. unfold is_byte. apply _. Defined.
Global Instance wf_bytes_dec (n : nat) (l : list Z) : Decision (wf_bytes n l).
Proof. unfold wf_bytes. apply _. Defined.
Global Instance wf_word_dec (W : UInt256) : Decision (wf_word W).
Proof. unfold wf_word. apply _. Defined.

(** The number a little-endian byte sequence denotes. *)
Fixpoint le_value (l : list Z) : Z :=
  match l with
  | [] => 0
  | b :: t => b + 256 * le_value t
  end.

(** The number denoted by the first [n] bytes of [l]. *)
Fixpoint prefix_value (n : nat) (l : list Z) : Z :=
  match n with
  | O => 0
  | S k => prefix_value k l + l !!! k * 256 ^ Z.of_nat k
  end.

(** The number a big-endian byte sequence denotes. *)
Definition be_value (l : list Z) : Z := le_value (rev l).

Definition word_value (W : UInt256) : Z := le_value (Bytes W).

(** The word of a number below [2^256] (used to write down operands). *)
Fixpoint le_bytes (n : nat) (z : Z) : list Z :=
  match n with
  | O => []
  | S k => z mod 256 :: le_bytes k (z / 256)
  end.
Definition word_of_Z (z : Z) : UInt256 := mkUInt256 (le_bytes 32 z).

(** [for (size_t i = 0; i < n; ++i) body]: the loop state threaded through
    the indices [0, 1, ..., n-1]. *)
Definition for_loop {S : Type} (n : nat) (body : S -> nat -> S) (init : S) : S :=
  fold_left body (seq 0 n) init.

(* ================================================================== *)
(** ** interpreter.cpp: [addUInt256] *)
(* ================================================================== *)

(** One iteration of the loop of [addUInt256]; the state is [(Res, Carry)]. *)
Definition addUInt256_body (A B : UInt256) (st : list Z * Z) (i : nat)
  : list Z * Z :=
  let '(Res, Carry) := st in
  let Sum := uint16_t (uint16_t (Bytes A !!! i) + uint16_t (Bytes B !!! i) + Carry) in
  (<[i := uint8_t (Z.land Sum 0xFF)]> Res, uint16_t (Z.shiftr Sum 8)).

Definition addUInt256 (A B : UInt256) : UInt256 :=
  mkUInt256 (for_loop 32 (addUInt256_body A B) (Bytes UInt256_zero, 0)).1.

(* ================================================================== *)
(** ** interpreter.cpp: the subtraction of the SUB case *)
(* ================================================================== *)

(** One iteration of the loop of the SUB case; the state is [(Res, Borrow)]. *)
Definition SUB_body (A B : UInt256) (st : list Z * Z) (i : nat)
  : list Z * Z :=
  let '(Res, Borrow) := st in
  let Diff := int16_t (int16_t (Bytes A !!! i) - int16_t (Bytes B !!! i) - Borrow) in
  let '(Diff, Borrow) :=
    if Diff <? 0 then (int16_t (Diff + 256), 1) else (Diff, 0) in
  (<[i := uint8_t (Z.land Diff 0xFF)]> Res, Borrow).

Definition SUB_Res (A B : UInt256) : UInt256 :=
  mkUInt256 (for_loop 32 (SUB_body A B) (Bytes UInt256_zero, 0)).1.

(* ================================================================== *)
(** ** Faults *)
(* ================================================================== *)

(** The error codes of [common/errors.h] that the interpreter throws. *)
Inductive ErrorCode : Type :=
| UnexpectedNumArgs
| UnexpectedEnd
| UnsupportedOpcode.

(** How a computation can stop short of its result. *)
Inductive Fault : Type :=
| Thrown (e : ErrorCode)   (* [throw common::getError(e)] *)
| AssertionViolated        (* a [ZEN_ASSERT] whose condition is false *)
| OutOfBounds              (* an access outside of an array or a vector *)
| LengthError              (* [std::length_error], thrown by [std::vector::resize] *)
| OutOfFuel.               (* the bound given to a [while] loop is used up *)

Inductive res (A : Type) : Type :=
| Ok (a : A)
| Err (f : Fault).
Global Arguments Ok {A} a.
Global Arguments Err {A} f.

Global Instance res_ret : MRet res := fun A a => Ok a.
Global Instance res_bind : MBind res := fun A B k m =>
  match m with
  | Ok a => k a
  | Err f => Err f
  end.

(** A [for] loop whose body may fault. *)
Definition for_loopM {S : Type} (n : nat) (body : S -> nat -> res S) (init : S)
  : res S :=
  fold_left (fun acc i => acc ≫= fun s => body s i) (seq 0 n) (Ok init).

(* ================================================================== *)
(** ** interpreter.cpp: the multiplication of the MUL case *)
(* ================================================================== *)

(** The number of entries of [uint16_t Temp[64]]. *)
Definition Temp_size : nat := 64.

(** [while (Carry) { ... ++idx; }]. The state is [Temp] together with the
    list of the indices written so far, the newest first. *)
Fixpoint MUL_while (fuel : nat) (st : list Z * list nat) (Carry : Z) (idx : nat)
  : res (list Z * list nat) :=
  if Carry =? 0 then Ok st
  else
    match fuel with
    | O => Err OutOfFuel
    | S fuel' =>
        let '(Temp, log) := st in
        if decide (idx < Temp_size)%nat then
          let Sum := uint16_t (Temp !!! idx + Carry) in
          MUL_while fuel'
            (<[idx := uint16_t (Z.land Sum 0xFF)]> Temp, idx :: log)
            (uint16_t (Z.shiftr Sum 8)) (S idx)
        else Err OutOfBounds
    end.

(** The body of the loop over [j]. *)
Definition MUL_body (A B : UInt256) (i : nat) (st : list Z * list nat) (j : nat)
  : res (list Z * list nat) :=
  let k := (i + j)%nat in
  let P := uint16_t (uint16_t (Bytes A !!! i) * uint16_t (Bytes B !!! j)) in
  MUL_while Temp_size st P k.

(** The two nested loops that fill [Temp], started from [Temp = {0}]. *)
Definition MUL_Temp (A B : UInt256) : res (list Z * list nat) :=
  for_loopM 32 (fun st i => for_loopM 32 (MUL_body A B i) st)
    (replicate Temp_size 0, []).

(** [Res.Bytes[i] = static_cast<uint8_t>(Temp[i])] for [i < 32]. *)
Definition MUL_low (Temp : list Z) : UInt256 :=
  mkUInt256
    (for_loop 32 (fun Res i => <[i := uint8_t (Temp !!! i)]> Res)
       (Bytes UInt256_zero)).

Definition MUL_Res (A B : UInt256) : res UInt256 :=
  st ← MUL_Temp A B; Ok (MUL_low st.1).

(* ================================================================== *)
(** ** opcode.h *)
(* ================================================================== *)

(** [enum class Opcode : uint8_t]; any byte may be cast to it. *)
Module Opcode.
Definition STOP : Z := 0x00.
Definition ADD : Z := 0x01.
Definition MUL : Z := 0x02.
Definition SUB : Z := 0x03.
Definition DIV : Z := 0x04.
Definition SDIV : Z := 0x05.
Definition MOD : Z := 0x06.
Definition SMOD : Z := 0x07.
Definition ADDMOD : Z := 0x08.
Definition MULMOD : Z := 0x09.
Definition EXP : Z := 0x0A.
Definition SIGNEXTEND : Z := 0x0B.
Definition LT : Z := 0x10.
Definition GT : Z := 0x11.
Definition SLT : Z := 0x12.
Definition SGT : Z := 0x13.
Definition EQ : Z := 0x14.
Definition ISZERO : Z := 0x15.
Definition AND : Z := 0x16.
Definition OR : Z := 0x17.
Definition XOR : Z := 0x18.
Definition NOT : Z := 0x19.
Definition BYTE : Z := 0x1A.
Definition ADDRESS : Z := 0x30.
Definition BALANCE : Z := 0x31.
Definition ORIGIN : Z := 0x32.
Definition CALLER : Z := 0x33.
Definition CALLVALUE : Z := 0x34.
Definition CALLDATALOAD : Z := 0x35.
Definition POP : Z := 0x50.
Definition MLOAD : Z := 0x51.
Definition MSTORE : Z := 0x52.
Definition RETURN : Z := 0xF3.
Definition PUSH1 : Z := 0x60.
Definition PUSH32 : Z := 0x7F.
Definition DUP1 : Z := 0x80.
Definition DUP16 : Z := 0x8F.
Definition SWAP1 : Z := 0x90.
Definition SWAP16 : Z := 0x9F.
End Opcode.

(* ================================================================== *)
(** ** interpreter.h: [EVMFrame] *)
(* ================================================================== *)

(** [static constexpr size_t MAX_STACK = 1024]. *)
Definition MAX_STACK : nat := 1024.

(** [struct EVMFrame]. [Code] is the buffer [Pc] points into and [Pc] the
    offset of the pointer from its start; [CodeEnd] is then the length of
    the buffer. [Stack] is the whole array and [Sp] the next free slot.
    [PrevFrame] is the next frame in the list of the execution context.
    [FuncInst] and [CtrlStack] are not used by the interpreter. *)
Record EVMFrame : Type := mkEVMFrame {
  Code : list Z;
  Pc : nat;
  Stack : list UInt256;
  Sp : nat;
  Memory : list Z;
  GasLeft : Z
}.

Definition CodeEnd (f : EVMFrame) : nat := length (Code f).

Definition set_Pc (pc : nat) (f : EVMFrame) : EVMFrame :=
  mkEVMFrame (Code f) pc (Stack f) (Sp f) (Memory f) (GasLeft f).
Definition set_Stack (s : list UInt256) (f : EVMFrame) : EVMFrame :=
  mkEVMFrame (Code f) (Pc f) s (Sp f) (Memory f) (GasLeft f).
Definition set_Sp (sp : nat) (f : EVMFrame) : EVMFrame :=
  mkEVMFrame (Code f) (Pc f) (Stack f) sp (Memory f) (GasLeft f).
Definition set_Memory (m : list Z) (f : EVMFrame) : EVMFrame :=
  mkEVMFrame (Code f) (Pc f) (Stack f) (Sp f) m (GasLeft f).

(** The operands on the stack, the top first. *)
Definition live_stack (f : EVMFrame) : list UInt256 :=
  rev (take (Sp f) (Stack f)).

(** What the C++ types and the assertions of [push], [pop] and [peek]
    guarantee of a frame. *)
Definition wf_frame (f : EVMFrame) : Prop :=
  length (Stack f) = MAX_STACK /\ (Sp f <= MAX_STACK)%nat /\
  Forall wf_word (Stack f) /\ Forall is_byte (Memory f) /\
  Forall is_byte (Code f).

Global Instance wf_frame_dec (f : EVMFrame) : Decision (wf_frame f).
Proof. unfold wf_frame. apply _. Defined.

(** *** The monad of the handlers: a frame, and a result or a fault *)

Definition FrameM (A : Type) : Type := EVMFrame -> res A * EVMFrame.

Global Instance FrameM_ret : MRet FrameM := fun A a f => (Ok a, f).
Global Instance FrameM_bind : MBind FrameM := fun A B k m f =>
  match m f with
  | (Ok a, f') => k a f'
  | (Err e, f') => (Err e, f')
  end.

Definition get_frame : FrameM EVMFrame := fun f => (Ok f, f).
Definition modify_frame (g : EVMFrame -> EVMFrame) : FrameM unit :=
  fun f => (Ok tt, g f).
Definition fault {A : Type} (e : Fault) : FrameM A := fun f => (Err e, f).
Definition throw {A : Type} (e : ErrorCode) : FrameM A := fault (Thrown e).
Definition lift_res {A : Type} (r : res A) : FrameM A := fun f => (r, f).

(** Modelled from the spec: the macro [ZEN_ASSERT] of [common/defines.h],
    which is not among the sources. The spec calls the checks of [push],
    [pop] and [peek] "manual bounds assertions"; a violated assertion ends
    the run with a fault that is none of the thrown error codes. *)
Definition ZEN_ASSERT (cond : bool) : FrameM unit :=
  if cond then mret tt else fault AssertionViolated.

(** [inline size_t stackHeight() const { return Sp; }] *)
Definition stackHeight : FrameM nat := fun f => (Ok (Sp f), f).

(** [inline void push(const UInt256 &V)] *)
Definition push (V : UInt256) : FrameM unit :=
  f ← get_frame;
  ZEN_ASSERT (bool_decide (Sp f < MAX_STACK)%nat);;
  modify_frame (fun f => set_Sp (S (Sp f)) (set_Stack (<[Sp f := V]> (Stack f)) f)).

(** [inline UInt256 pop()] *)
Definition pop : FrameM UInt256 :=
  f ← get_frame;
  ZEN_ASSERT (bool_decide (0 < Sp f)%nat);;
  modify_frame (fun f => set_Sp (Sp f - 1)%nat f);;
  f ← get_frame;
  mret (Stack f !!! Sp f).

(** [inline UInt256 &peek(size_t Index = 0)]: the reference returned is the
    index of the slot in [Stack]. *)
Definition peek (Index : nat) : FrameM nat :=
  f ← get_frame;
  ZEN_ASSERT (bool_decide (Index < Sp f)%nat);;
  mret (Sp f - 1 - Index)%nat.

(** *** Accesses to [Memory] *)

(** [Frame->Memory.size()] *)
Definition Memory_size (f : EVMFrame) : Z := Z.of_nat (length (Memory f)).

(** [Frame->Memory.max_size()]: the largest size of a [std::vector<uint8_t>],
    [PTRDIFF_MAX] where [size_t] has 64 bits. *)
Definition vector_max_size : Z := 2 ^ 63 - 1.

(** [Frame->Memory.resize(Need, 0)] where [Memory.size() < Need]: the vector
    is extended with zero bytes, and [std::length_error] is thrown, the
    vector left as it is, when [Need] exceeds [max_size()]. *)
Definition Memory_resize (Need : Z) : FrameM unit :=
  if decide (Need <= vector_max_size)
  then modify_frame (fun f => set_Memory (resize (Z.to_nat Need) 0 (Memory f)) f)
  else fault LengthError.

(** [if (Frame->Memory.size() < Need) Frame->Memory.resize(Need, 0);] *)
Definition Memory_grow (Need : Z) : FrameM unit :=
  f ← get_frame;
  if decide (Memory_size f < Need)
  then Memory_resize Need
  else mret tt.

(** [Frame->Memory[Index] = V]; the vector does not check the index. *)
Definition Memory_store (Index : Z) (V : Z) : FrameM unit :=
  f ← get_frame;
  if decide (Index < Memory_size f)
  then modify_frame (fun f => set_Memory (<[Z.to_nat Index := V]> (Memory f)) f)
  else fault OutOfBounds.

(** [std::vector<uint8_t> Ret(Memory.begin() + Off, Memory.begin() + Off + Len)]:
    the range has to lie inside of the vector. *)
Definition Memory_range (Off Len : Z) : FrameM (list Z) :=
  f ← get_frame;
  if decide (Off + Len <= Memory_size f)
  then mret (take (Z.to_nat Len) (drop (Z.to_nat Off) (Memory f)))
  else fault OutOfBounds.

(** A [for] loop over [0 .. n-1] whose body is a handler step. *)
Definition for_loopF (n : nat) (body : nat -> FrameM unit) : FrameM unit :=
  fold_left (fun acc i => acc;; body i) (seq 0 n) (mret tt).

(** [for (int i = 7; i >= 0; --i) Offset = (Offset << 8) | W.Bytes[i];]
    with [uint64_t Offset = 0]. *)
Definition low64 (W : UInt256) : Z :=
  fold_left (fun Offset i => uint64_t (Z.lor (Z.shiftl Offset 8) (Bytes W !!! i)))
    (rev (seq 0 8)) 0.

(* ================================================================== *)
(** ** interpreter.cpp: the cases of the [switch] *)
(* ================================================================== *)

(** How a case leaves the [switch]. *)
Inductive Action : Type :=
| Break                       (* [break]: the next iteration, same frame *)
| EndSTOP                     (* the STOP case: the frame is freed *)
| EndRETURN (Ret : list Z).   (* the RETURN case: [Ret] becomes the return data *)

Definition require_args (N : nat) : FrameM unit :=
  h ← stackHeight;
  if decide (h < N)%nat then throw UnexpectedNumArgs else mret tt.

Definition case_ADD : FrameM Action :=
  require_args 2;;
  B ← pop;
  A ← pop;
  push (addUInt256 A B);;
  mret Break.

Definition case_SUB : FrameM Action :=
  require_args 2;;
  B ← pop;
  A ← pop;
  push (SUB_Res A B);;
  mret Break.

Definition case_MUL : FrameM Action :=
  require_args 2;;
  B ← pop;
  A ← pop;
  Res ← lift_res (MUL_Res A B);
  push Res;;
  mret Break.

Definition case_POP : FrameM Action :=
  require_args 1;;
  pop;;
  mret Break.

Definition case_MSTORE : FrameM Action :=
  require_args 2;;
  OffsetVal ← pop;
  Value ← pop;
  let Offset := low64 OffsetVal in
  let Off := size_t Offset in
  let NeedSize := size_t (Off + 32) in
  Memory_grow NeedSize;;
  for_loopF 32 (fun i =>
    Memory_store (size_t (Off + Z.of_nat i)) (Bytes Value !!! (31 - i)%nat));;
  mret Break.

Definition case_RETURN : FrameM Action :=
  require_args 2;;
  OffsetVal ← pop;
  SizeVal ← pop;
  let Offset := low64 OffsetVal in
  let Size := low64 SizeVal in
  let Off := size_t Offset in
  let Len := size_t Size in
  Memory_grow (size_t (Off + Len));;
  Ret ← Memory_range Off Len;
  mret (EndRETURN Ret).

(** The PUSH1..PUSH32 branch of the default case. *)
Definition case_PUSH (RawOp : Z) : FrameM Action :=
  let NumBytes := Z.to_nat (uint8_t (RawOp - 0x5F)) in
  f ← get_frame;
  if decide (CodeEnd f < Pc f + NumBytes)%nat then throw UnexpectedEnd
  else
    let Val :=
      mkUInt256
        (for_loop NumBytes
           (fun Val i => <[i := Code f !!! (Pc f + NumBytes - 1 - i)%nat]> Val)
           (Bytes UInt256_zero)) in
    modify_frame (fun f => set_Pc (Pc f + NumBytes)%nat f);;
    push Val;;
    mret Break.

(** The DUP1..DUP16 branch of the default case. *)
Definition case_DUP (RawOp : Z) : FrameM Action :=
  let N := Z.to_nat (uint8_t (RawOp - 0x7F)) in
  h ← stackHeight;
  if decide (h < N)%nat then throw UnexpectedNumArgs
  else
    r ← peek (N - 1);
    f ← get_frame;
    push (Stack f !!! r);;
    mret Break.

(** The SWAP1..SWAP16 branch of the default case. *)
Definition case_SWAP (RawOp : Z) : FrameM Action :=
  let N := Z.to_nat (uint8_t (RawOp - 0x8F)) in
  h ← stackHeight;
  if decide (h <= N)%nat then throw UnexpectedNumArgs
  else
    Top ← peek 0;
    Nth ← peek N;
    modify_frame (fun f =>
      let T := Stack f !!! Top in
      let V := Stack f !!! Nth in
      set_Stack (<[Nth := T]> (<[Top := V]> (Stack f))) f);;
    mret Break.

(** [switch (Op)], entered after [*PcRef++]. *)
Definition dispatch (Op : Z) : FrameM Action :=
  if Op =? Opcode.STOP then mret EndSTOP
  else if Op =? Opcode.ADD then case_ADD
  else if Op =? Opcode.SUB then case_SUB
  else if Op =? Opcode.MUL then case_MUL
  else if Op =? Opcode.POP then case_POP
  else if Op =? Opcode.MSTORE then case_MSTORE
  else if Op =? Opcode.RETURN then case_RETURN
  else
    let RawOp := uint8_t Op in
    if (0x60 <=? RawOp) && (RawOp <=? 0x7F) then case_PUSH RawOp
    else if (0x80 <=? RawOp) && (RawOp <=? 0x8F) then case_DUP RawOp
    else if (0x90 <=? RawOp) && (RawOp <=? 0x9F) then case_SWAP RawOp
    else throw UnsupportedOpcode.

(* ================================================================== *)
(** ** interpreter.h and interpreter.cpp: [InterpreterExecContext] *)
(* ================================================================== *)

(** [Frames] is the chain of the frames: [CurFrame] first, then its
    [PrevFrame], and so on; the empty list is [CurFrame == nullptr].
    [ModInst] and [StackMgr] are not used by the interpreter. *)
Record InterpreterExecContext : Type := mkContext {
  Frames : list EVMFrame;
  ReturnData : list Z
}.

Definition getCurFrame (ctx : InterpreterExecContext) : option EVMFrame :=
  head (Frames ctx).

Definition setReturnData (Data : list Z) (ctx : InterpreterExecContext)
  : InterpreterExecContext :=
  mkContext (Frames ctx) Data.

(** [EVMFrame *allocFrame(FunctionInstance *FuncInst)]; [FuncInst] is the
    code buffer it carries, or [None] for a null pointer. *)
Definition allocFrame (FuncInst : option (list Z)) (ctx : InterpreterExecContext)
  : InterpreterExecContext :=
  let Frame :=
    mkEVMFrame (default [] FuncInst) 0 (replicate MAX_STACK UInt256_zero) 0 [] 0 in
  mkContext (Frame :: Frames ctx) (ReturnData ctx).

(** [void freeFrame(EVMFrame *Frame)], called with the current frame. *)
Definition freeFrame (ctx : InterpreterExecContext) : InterpreterExecContext :=
  match Frames ctx with
  | [] => ctx
  | _ :: PrevFrame => mkContext PrevFrame (ReturnData ctx)
  end.

(** A context with no frame and no return data. *)
Definition empty_context : InterpreterExecContext := mkContext [] [].

(* ================================================================== *)
(** ** interpreter.cpp: [BaseInterpreter::interpret] *)
(* ================================================================== *)

(** Which of the three [return] statements ended the run. *)
Inductive Exit : Type :=
| Halted_CodeEnd     (* line 79: the code ran out *)
| Halted_STOP        (* line 92: STOP *)
| Returned.          (* line 221: RETURN *)

Inductive Outcome : Type :=
| Running (ctx : InterpreterExecContext)
| Exited (e : Exit) (ctx : InterpreterExecContext)
| Faulted (f : Fault) (ctx : InterpreterExecContext).

(** [Context.freeFrame(Frame); if (Context.getCurFrame() == nullptr) return;
     Frame = Context.getCurFrame(); continue;] *)
Definition end_frame (e : Exit) (ctx : InterpreterExecContext) : Outcome :=
  let ctx := freeFrame ctx in
  match getCurFrame ctx with
  | None => Exited e ctx
  | Some _ => Running ctx
  end.

(** One iteration of [while (true)]. With no current frame it is the
    assertion at the entry of [interpret] that fails. *)
Definition step (ctx : InterpreterExecContext) : Outcome :=
  match Frames ctx with
  | [] => Faulted AssertionViolated ctx
  | Frame :: PrevFrame =>
      if decide (CodeEnd Frame <= Pc Frame)%nat then end_frame Halted_CodeEnd ctx
      else
        let Op := Code Frame !!! Pc Frame in
        let Frame := set_Pc (S (Pc Frame)) Frame in
        match dispatch Op Frame with
        | (Ok Break, Frame) =>
            Running (mkContext (Frame :: PrevFrame) (ReturnData ctx))
        | (Ok EndSTOP, Frame) =>
            end_frame Halted_STOP (mkContext (Frame :: PrevFrame) (ReturnData ctx))
        | (Ok (EndRETURN Ret), Frame) =>
            end_frame Returned (mkContext (Frame :: PrevFrame) Ret)
        | (Err e, Frame) =>
            Faulted e (mkContext (Frame :: PrevFrame) (ReturnData ctx))
        end
  end.

Fixpoint interpret_loop (fuel : nat) (ctx : InterpreterExecContext) : Outcome :=
  match fuel with
  | O => Faulted OutOfFuel ctx
  | S fuel' =>
      match step ctx with
      | Running ctx' => interpret_loop fuel' ctx'
      | o => o
      end
  end.

(** Every iteration either frees a frame or moves the [Pc] of the current
    frame forward, so this many iterations are enough. *)
Definition iterations (ctx : InterpreterExecContext) : nat :=
  S (foldr (fun f n => (S (CodeEnd f - Pc f) + n)%nat) 0%nat (Frames ctx)).

Definition interpret (ctx : InterpreterExecContext) : Outcome :=
  interpret_loop (iterations ctx) ctx.

(** What an outcome carries. *)
Definition fault_of (o : Outcome) : option Fault :=
  match o with
  | Faulted e _ => Some e
  | _ => None
  end.

Definition exit_of (o : Outcome) : option Exit :=
  match o with
  | Exited e _ => Some e
  | _ => None
  end.

Definition context_of (o : Outcome) : InterpreterExecContext :=
  match o with
  | Running ctx | Exited _ ctx | Faulted _ ctx => ctx
  end.

(* ================================================================== *)
(** ** Frames, programs and tables used to state the properties *)
(* ================================================================== *)

(** A frame over [code] whose stack holds [ops], the top first, and whose
    memory is empty. *)
Definition frame_of_stack (code : list Z) (pc : nat) (ops : list UInt256) : EVMFrame :=
  mkEVMFrame code pc (rev ops ++ replicate (MAX_STACK - length ops) UInt256_zero)
    (length ops) [] 0.

(** The number of operands an opcode requires, as the spec lists it:
    ADD, MUL, SUB, MSTORE and RETURN pop two, POP pops one, DUPn requires
    [Height >= n], SWAPn requires [Height > n], the others require none. *)
Definition operands_required (Op : Z) : nat :=
  if (Op =? 0x01) || (Op =? 0x02) || (Op =? 0x03) then 2
  else if Op =? 0x50 then 1
  else if (Op =? 0x52) || (Op =? 0xF3) then 2
  else if (0x80 <=? Op) && (Op <=? 0x8F) then Z.to_nat (Op - 0x7F)
  else if (0x90 <=? Op) && (Op <=? 0x9F) then S (Z.to_nat (Op - 0x8F))
  else 0.

(** The opcode bytes that [switch (Op)] has a case or a branch for. *)
Definition implemented (Op : Z) : bool :=
  (Op =? 0x00) || (Op =? 0x01) || (Op =? 0x02) || (Op =? 0x03) ||
  (Op =? 0x50) || (Op =? 0x52) || (Op =? 0xF3) ||
  ((0x60 <=? Op) && (Op <=? 0x9F)).

(** A handler step that throws no error code, and a result that is none. *)
Definition no_throw {A : Type} (m : FrameM A) : Prop :=
  forall f e f', m f <> (Err (Thrown e), f').
Definition res_no_throw {A : Type} (r : res A) : Prop :=
  forall e, r <> Err (Thrown e).

(** What a case may do to the frame besides its stack and its memory: the
    code and the gas stay, and [Pc] moves forward only, not past [CodeEnd]. *)
Definition frame_step (f f' : EVMFrame) : Prop :=
  Code f' = Code f /\ GasLeft f' = GasLeft f /\
  (Pc f <= Pc f')%nat /\ (Pc f' <= Pc f `max` CodeEnd f)%nat.

(** A handler step that keeps a well-formed frame well-formed, moves it by
    [frame_step], never uses up the fuel of a loop, and whose result, when
    there is one, satisfies [Q]. *)
Definition keeps {A : Type} (m : FrameM A) (Q : A -> Prop) : Prop :=
  forall f, wf_frame f ->
    wf_frame (m f).2 /\ frame_step f (m f).2 /\ (m f).1 <> Err OutOfFuel /\
    forall a, (m f).1 = Ok a -> Q a.

(** A handler step whose result, when there is one, satisfies [P]. *)
Definition returns {A : Type} (P : A -> Prop) (m : FrameM A) : Prop :=
  forall f a f', m f = (Ok a, f') -> P a.


(** Every frame of the chain is well-formed. *)
Definition wf_context (ctx : InterpreterExecContext) : Prop :=
  Forall wf_frame (Frames ctx).

(** PUSH1 0x05, PUSH1 0x03, ADD, PUSH1 0x00, MSTORE, PUSH1 0x20, PUSH1 0x00,
    RETURN. *)
Definition add_and_return_code : list Z :=
  [0x60; 0x05; 0x60; 0x03; 0x01; 0x60; 0x00; 0x52; 0x60; 0x20; 0x60; 0x00; 0xF3].

(** 1025 times PUSH1 0x00. *)
Definition overflow_code : list Z := concat (replicate 1025 [0x60; 0x00]).

(** PUSH1 0x2A, PUSH8 0xFFFFFFFFFFFFFFFF, MSTORE. *)
Definition wrapping_store_code : list Z :=
  [0x60; 0x2A; 0x67; 0xFF; 0xFF; 0xFF; 0xFF; 0xFF; 0xFF; 0xFF; 0xFF; 0x52].

(** A frame whose stack is full, about to read the operand of a PUSH1. *)
Definition full_frame : EVMFrame :=
  mkEVMFrame [0x60; 0x01] 1 (replicate MAX_STACK UInt256_zero) MAX_STACK [] 0.

(** A frame about to run MUL on the operands 6 and 7 (7 on top). *)
Definition mul_frame : EVMFrame :=
  frame_of_stack [0x02] 1 [word_of_Z 7; word_of_Z 6].

(** A frame with an empty stack, about to run ADD. *)
Definition empty_frame : EVMFrame := frame_of_stack [0x01] 1 [].

(** A frame about to read the two bytes of the operand of a PUSH2. *)
Definition push2_frame : EVMFrame := frame_of_stack [0x61; 0x12; 0x34] 1 [].

(* ================================================================== *)
(** ** The invariants of the loops *)
(* ================================================================== *)

(** What holds of [(Res, Carry)] when the loop has handled [i] bytes. *)
Definition add_invariant (A B : UInt256) (i : nat) (st : list Z * Z) : Prop :=
  wf_bytes 32 st.1 /\ 0 <= st.2 <= 1 /\
  prefix_value i st.1 + st.2 * 256 ^ Z.of_nat i
  = prefix_value i (Bytes A) + prefix_value i (Bytes B).

(** What holds of [(Res, Borrow)] when the loop has handled [i] bytes. *)
Definition sub_invariant (A B : UInt256) (i : nat) (st : list Z * Z) : Prop :=
  wf_bytes 32 st.1 /\ 0 <= st.2 <= 1 /\
  prefix_value i st.1 - st.2 * 256 ^ Z.of_nat i
  = prefix_value i (Bytes A) - prefix_value i (Bytes B).

(** What holds of [(Temp, log)] all along: [Temp] has its 64 entries, each
    one a byte, and every index written lies inside of [Temp]. *)
Definition Temp_ok (st : list Z * list nat) : Prop :=
  wf_bytes Temp_size st.1 /\ Forall (fun idx => (idx <= 63)%nat) st.2.

(** After the pairs [(i, 0) .. (i, j-1)]. *)
Definition MUL_inner_invariant (A B : UInt256) (i j : nat) (st : list Z * list nat) : Prop :=
  Temp_ok st /\
  prefix_value 64 st.1
  = prefix_value i (Bytes A) * prefix_value 32 (Bytes B)
    + Bytes A !!! i * 256 ^ Z.of_nat i * prefix_value j (Bytes B).

(** After the rows [0 .. i-1]. *)
Definition MUL_outer_invariant (A B : UInt256) (i : nat) (st : list Z * list nat) : Prop :=
  Temp_ok st /\ prefix_value 64 st.1 = prefix_value i (Bytes A) * prefix_value 32 (Bytes B).

(** The memory [M'] is the memory [M], extended with zero bytes and then
    written at indices of [W] only: [M'] is as long as [M] and [k] more
    bytes, and away from [W] it is [M] followed by [k] zero bytes. *)
Definition Memory_extended (W : nat -> Prop) (M M' : list Z) : Prop :=
  exists k : nat,
    length M' = (length M + k)%nat /\
    forall i : nat, (i < length M')%nat -> ~ W i -> M' !!! i = (M ++ replicate k 0) !!! i.

(** The indices [Off + i], [i < 32], that MSTORE writes when it finds the
    word on top of the stack of [f] as its offset operand; no other opcode
    writes to the memory. *)
Definition store_window (Op : Z) (f : EVMFrame) (i : nat) : Prop :=
  Op = Opcode.MSTORE /\
  exists j : nat, (j < 32)%nat /\
    Z.of_nat i = size_t (size_t (low64 (Stack f !!! (Sp f - 1)%nat)) + Z.of_nat j).

(** A handler step that extends the memory of the frame with zero bytes and
    writes it at indices of [W] only. *)
Definition Memory_extends {A : Type} (W : nat -> Prop) (m : FrameM A) : Prop :=
  forall f, Memory_extended W (Memory f) (Memory (m f).2).

(** A handler step that leaves the memory of the frame as it is. *)
Definition Memory_kept {A : Type} (m : FrameM A) : Prop :=
  forall f, Memory (m f).2 = Memory f.

(** Frames that hold the operands 3 (on top) and 5, about to run POP, DUP2
    and SWAP1. *)
Definition pop_frame : EVMFrame := frame_of_stack [0x50] 1 [word_of_Z 3; word_of_Z 5].
Definition dup2_frame : EVMFrame := frame_of_stack [0x81] 1 [word_of_Z 3; word_of_Z 5].
Definition swap1_frame : EVMFrame := frame_of_stack [0x90] 1 [word_of_Z 3; word_of_Z 5].

(** A frame about to run RETURN with the offset 0 on top and the size 1
    below it. *)
Definition return_frame : EVMFrame :=
  frame_of_stack [0xF3] 0 [word_of_Z 0; word_of_Z 1].

(** A frame about to run RETURN with the offset 0 on top and the size 2^63,
    one more than [vector_max_size], below it. *)
Definition return_huge_frame : EVMFrame :=
  frame_of_stack [0xF3] 0 [word_of_Z 0; word_of_Z (2 ^ 63)].

(* ================================================================== *)
(** * Properties *)
(* ================================================================== *)

(** ** Loops *)

Lemma for_loop_S {S : Type} (n : nat) (body : S -> nat -> S) (init : S) :
  for_loop (Datatypes.S n) body init = body (for_loop n body init) n.
Proof.
  unfold for_loop. rewrite seq_S, fold_left_app. reflexivity.
Qed.

(** The invariant rule of a [for] loop. *)
Lemma for_loop_invariant {S : Type} (P : nat -> S -> Prop) (n : nat)
    (body : S -> nat -> S) (init : S) :
  P 0%nat init ->
  (forall i s, (i < n)%nat -> P i s -> P (Datatypes.S i) (body s i)) ->
  P n (for_loop n body init).
Proof.
  intros Hinit Hstep. induction n as [|n IH].
  - exact Hinit.
  - rewrite for_loop_S. apply Hstep; [lia|]. apply IH.
    intros i s Hi. apply Hstep. lia.
Qed.

Lemma for_loopM_S {S : Type} (n : nat) (body : S -> nat -> res S) (init : S) :
  for_loopM (Datatypes.S n) body init
  = for_loopM n body init ≫= fun s => body s n.
Proof.
  unfold for_loopM. rewrite seq_S, fold_left_app. reflexivity.
Qed.

(** The invariant rule of a [for] loop whose body may fault: when the body
    keeps the invariant without faulting, so does the loop. *)
Lemma for_loopM_invariant {S : Type} (P : nat -> S -> Prop) (n : nat)
    (body : S -> nat -> res S) (init : S) :
  P 0%nat init ->
  (forall i s, (i < n)%nat -> P i s ->
     exists s', body s i = Ok s' /\ P (Datatypes.S i) s') ->
  exists s', for_loopM n body init = Ok s' /\ P n s'.
Proof.
  intros Hinit Hstep. induction n as [|n IH].
  - exists init. split; [reflexivity | exact Hinit].
  - destruct IH as (s & Hs & HP).
    { intros i s Hi. apply Hstep. lia. }
    destruct (Hstep n s) as (s' & Hs' & HP'); [lia | exact HP |].
    exists s'. rewrite for_loopM_S, Hs. split; [exact Hs' | exact HP'].
Qed.

(** ** Bit operations and conversions *)

Lemma land_0xFF (z : Z) : Z.land z 0xFF = z mod 256.
Proof. change 0xFF with (Z.ones 8). rewrite Z.land_ones by lia. reflexivity. Qed.

Lemma shiftr_8 (z : Z) : Z.shiftr z 8 = z / 256.
Proof. rewrite Z.shiftr_div_pow2 by lia. reflexivity. Qed.

Lemma uint8_t_id (z : Z) : 0 <= z < 256 -> uint8_t z = z.
Proof. intros H. unfold uint8_t. apply Z.mod_small. lia. Qed.

Lemma uint16_t_id (z : Z) : 0 <= z < 65536 -> uint16_t z = z.
Proof. intros H. unfold uint16_t. apply Z.mod_small. lia. Qed.

Lemma int16_t_id (z : Z) : -32768 <= z < 32768 -> int16_t z = z.
Proof. intros H. unfold int16_t. rewrite Z.mod_small; lia. Qed.

Lemma uint8_t_byte (z : Z) : is_byte (uint8_t z).
Proof. unfold is_byte, uint8_t. pose proof (Z.mod_pos_bound z (2 ^ 8)). lia. Qed.

(** ** Byte sequences and the numbers they denote *)

Lemma pow256_S (k : nat) : 256 ^ Z.of_nat (S k) = 256 * 256 ^ Z.of_nat k.
Proof. rewrite Nat2Z.inj_succ, Z.pow_succ_r by lia. reflexivity. Qed.

Lemma pow256_pos (k : nat) : 0 < 256 ^ Z.of_nat k.
Proof. apply Z.pow_pos_nonneg; lia. Qed.

Lemma prefix_value_cons (n : nat) (b : Z) (t : list Z) :
  prefix_value (S n) (b :: t) = b + 256 * prefix_value n t.
Proof.
  induction n as [|n IH].
  - simpl. lia.
  - change (prefix_value (S (S n)) (b :: t))
      with (prefix_value (S n) (b :: t) + (b :: t) !!! S n * 256 ^ Z.of_nat (S n)).
    rewrite IH, pow256_S. simpl prefix_value.
    change ((b :: t) !!! S n) with (t !!! n). lia.
Qed.

Lemma prefix_value_le_value (l : list Z) :
  prefix_value (length l) l = le_value l.
Proof.
  induction l as [|b t IH]; [reflexivity|].
  simpl length. rewrite prefix_value_cons, IH. reflexivity.
Qed.

Lemma word_value_prefix (W : UInt256) :
  wf_word W -> word_value W = prefix_value 32 (Bytes W).
Proof.
  intros [Hlen _]. unfold word_value. rewrite <- Hlen.
  symmetry. apply prefix_value_le_value.
Qed.

Lemma prefix_value_insert_ge (n i : nat) (v : Z) (l : list Z) :
  (n <= i)%nat -> prefix_value n (<[i := v]> l) = prefix_value n l.
Proof.
  induction n as [|n IH]; intros Hi; [reflexivity|].
  simpl. rewrite IH by lia.
  rewrite list_lookup_total_insert_ne by lia. reflexivity.
Qed.

Lemma prefix_value_S_insert (n : nat) (v : Z) (l : list Z) :
  (n < length l)%nat ->
  prefix_value (S n) (<[n := v]> l) = prefix_value n l + v * 256 ^ Z.of_nat n.
Proof.
  intros Hn. simpl. rewrite prefix_value_insert_ge by lia.
  rewrite list_lookup_total_insert_eq by lia. reflexivity.
Qed.

Lemma prefix_value_insert_lt (n i : nat) (v : Z) (l : list Z) :
  (i < n)%nat -> (i < length l)%nat ->
  prefix_value n (<[i := v]> l)
  = prefix_value n l + (v - l !!! i) * 256 ^ Z.of_nat i.
Proof.
  intros Hi Hl. induction n as [|n IH]; [lia|].
  destruct (decide (i = n)) as [->|Hne].
  - rewrite prefix_value_S_insert by lia. simpl. lia.
  - simpl. rewrite IH by lia.
    rewrite list_lookup_total_insert_ne by lia. lia.
Qed.

Lemma is_byte_lookup (l : list Z) (i : nat) :
  Forall is_byte l -> (i < length l)%nat -> 0 <= l !!! i < 256.
Proof.
  intros Hl Hi. apply (Forall_lookup_total_1 is_byte l i Hl Hi).
Qed.

Lemma prefix_value_bounds (n : nat) (l : list Z) :
  Forall is_byte l -> (n <= length l)%nat ->
  0 <= prefix_value n l < 256 ^ Z.of_nat n.
Proof.
  intros Hl. induction n as [|n IH]; intros Hn.
  - simpl. lia.
  - simpl prefix_value. rewrite pow256_S.
    pose proof (is_byte_lookup l n Hl ltac:(lia)).
    pose proof (pow256_pos n). specialize (IH ltac:(lia)). nia.
Qed.

Lemma prefix_value_mono (n m : nat) (l : list Z) :
  Forall is_byte l -> (n <= m)%nat -> (m <= length l)%nat ->
  prefix_value n l <= prefix_value m l.
Proof.
  intros Hl Hnm. induction Hnm as [|m Hnm IH]; intros Hm; [lia|].
  simpl. pose proof (is_byte_lookup l m Hl ltac:(lia)).
  pose proof (pow256_pos m). specialize (IH ltac:(lia)). nia.
Qed.

(** The low [m] bytes of a longer prefix. *)
Lemma prefix_value_mod (m n : nat) (l : list Z) :
  Forall is_byte l -> (m <= n)%nat -> (n <= length l)%nat ->
  prefix_value n l mod 256 ^ Z.of_nat m = prefix_value m l.
Proof.
  intros Hl Hmn. induction Hmn as [|n Hmn IH]; intros Hn.
  - apply Z.mod_small. apply prefix_value_bounds; [exact Hl | lia].
  - simpl prefix_value.
    replace (Z.of_nat n) with (Z.of_nat m + (Z.of_nat n - Z.of_nat m)) by lia.
    rewrite Z.pow_add_r by lia.
    replace (l !!! n * (256 ^ Z.of_nat m * 256 ^ (Z.of_nat n - Z.of_nat m)))
      with (l !!! n * 256 ^ (Z.of_nat n - Z.of_nat m) * 256 ^ Z.of_nat m) by lia.
    rewrite Z.mod_add by (pose proof (pow256_pos m); lia).
    apply IH. lia.
Qed.

Lemma le_value_bounds (l : list Z) :
  Forall is_byte l -> 0 <= le_value l < 256 ^ Z.of_nat (length l).
Proof.
  intros Hl. rewrite <- prefix_value_le_value.
  apply prefix_value_bounds; [exact Hl | lia].
Qed.

Lemma word_value_bounds (W : UInt256) :
  wf_word W -> 0 <= word_value W < 2 ^ 256.
Proof.
  intros [Hlen Hb]. unfold word_value.
  pose proof (le_value_bounds _ Hb) as H. rewrite Hlen in H.
  change (256 ^ Z.of_nat 32) with (2 ^ 256) in H. exact H.
Qed.

(** Two byte sequences of one length that denote one number are equal. *)
Lemma le_value_inj (l1 l2 : list Z) :
  Forall is_byte l1 -> Forall is_byte l2 -> length l1 = length l2 ->
  le_value l1 = le_value l2 -> l1 = l2.
Proof.
  revert l2. induction l1 as [|b1 t1 IH]; intros [|b2 t2] H1 H2 Hlen Hv;
    try discriminate; [reflexivity|].
  inversion H1 as [|? ? Hb1 H1']; subst. inversion H2 as [|? ? Hb2 H2']; subst.
  simpl in Hv, Hlen. unfold is_byte in Hb1, Hb2.
  assert (b1 = b2 /\ le_value t1 = le_value t2) as [-> Ht] by lia.
  f_equal. apply IH; [assumption | assumption | lia | exact Ht].
Qed.

Lemma word_value_inj (A B : UInt256) :
  wf_word A -> wf_word B -> word_value A = word_value B -> A = B.
Proof.
  destruct A as [a], B as [b]. intros [Ha1 Ha2] [Hb1 Hb2] Hv. simpl in *.
  f_equal. apply le_value_inj; [assumption | assumption | congruence | exact Hv].
Qed.

Lemma wf_bytes_zero (n : nat) : wf_bytes n (replicate n 0).
Proof.
  split; [apply length_replicate|].
  apply Forall_replicate. unfold is_byte. lia.
Qed.

Lemma wf_word_zero : wf_word UInt256_zero.
Proof. apply wf_bytes_zero. Qed.

(** ** [addUInt256] *)

Section Add.
Variables A B : UInt256.
Hypothesis HA : wf_word A.
Hypothesis HB : wf_word B.


Lemma addUInt256_body_invariant (i : nat) (st : list Z * Z) :
  (i < 32)%nat -> add_invariant A B i st ->
  add_invariant A B (S i) (addUInt256_body A B st i).
Proof.
  destruct st as [Res Carry]. intros Hi ([Hlen Hbytes] & Hc & Hval).
  destruct HA as [HAl HAb], HB as [HBl HBb]. simpl in *.
  pose proof (is_byte_lookup (Bytes A) i HAb ltac:(lia)) as Ha.
  pose proof (is_byte_lookup (Bytes B) i HBb ltac:(lia)) as Hb.
  unfold addUInt256_body.
  rewrite (uint16_t_id (Bytes A !!! i)), (uint16_t_id (Bytes B !!! i)) by lia.
  rewrite (uint16_t_id (_ + _ + Carry)) by lia.
  set (Sum := Bytes A !!! i + Bytes B !!! i + Carry) in *.
  rewrite land_0xFF, shiftr_8.
  pose proof (Z.div_mod Sum 256 ltac:(lia)) as Hdm.
  pose proof (Z.mod_pos_bound Sum 256 ltac:(lia)) as Hm.
  assert (0 <= Sum / 256 <= 1) as Hq by (subst Sum; lia).
  rewrite (uint8_t_id (Sum mod 256)), (uint16_t_id (Sum / 256)) by lia.
  split; [|split]; cbn [fst snd].
  - split; [rewrite length_insert; exact Hlen|].
    apply Forall_insert; [exact Hbytes | exact Hm].
  - exact Hq.
  - rewrite prefix_value_S_insert by lia. rewrite pow256_S.
    cbn [prefix_value]. subst Sum. nia.
Qed.

Lemma addUInt256_loop :
  add_invariant A B 32 (for_loop 32 (addUInt256_body A B) (Bytes UInt256_zero, 0)).
Proof.
  apply (for_loop_invariant (add_invariant A B)).
  - split; [apply wf_bytes_zero|]. simpl. lia.
  - apply addUInt256_body_invariant.
Qed.

Lemma addUInt256_wf : wf_word (addUInt256 A B).
Proof. apply addUInt256_loop. Qed.

Lemma addUInt256_value :
  word_value (addUInt256 A B) = (word_value A + word_value B) mod 2 ^ 256.
Proof.
  pose proof addUInt256_loop as (Hwf & Hc & Hval).
  rewrite (word_value_prefix _ addUInt256_wf).
  rewrite (word_value_prefix A HA), (word_value_prefix B HB).
  unfold addUInt256. cbn [Bytes].
  set (st := for_loop 32 (addUInt256_body A B) (Bytes UInt256_zero, 0)) in *.
  rewrite <- Hval. change (256 ^ Z.of_nat 32) with (2 ^ 256).
  rewrite Z.mod_add by lia. symmetry. apply Z.mod_small.
  destruct Hwf as [Hl Hb].
  pose proof (prefix_value_bounds 32 st.1 Hb ltac:(lia)) as H.
  change (256 ^ Z.of_nat 32) with (2 ^ 256) in H. exact H.
Qed.
End Add.

Lemma addUInt256_body_comm (A B : UInt256) (st : list Z * Z) (i : nat) :
  addUInt256_body A B st i = addUInt256_body B A st i.
Proof.
  destruct st as [Res Carry]. unfold addUInt256_body.
  rewrite (Z.add_comm (uint16_t (Bytes A !!! i))). reflexivity.
Qed.

Lemma addUInt256_comm (A B : UInt256) : addUInt256 A B = addUInt256 B A.
Proof.
  unfold addUInt256, for_loop. do 2 f_equal.
  generalize (Bytes UInt256_zero, 0). generalize (seq 0 32).
  intros l. induction l as [|i l IH]; intros st; [reflexivity|].
  simpl. rewrite addUInt256_body_comm. apply IH.
Qed.

(** ** The subtraction of the SUB case *)

Section Sub.
Variables A B : UInt256.
Hypothesis HA : wf_word A.
Hypothesis HB : wf_word B.


Lemma SUB_body_invariant (i : nat) (st : list Z * Z) :
  (i < 32)%nat -> sub_invariant A B i st -> sub_invariant A B (S i) (SUB_body A B st i).
Proof.
  destruct st as [Res Borrow]. intros Hi ([Hlen Hbytes] & Hc & Hval).
  destruct HA as [HAl HAb], HB as [HBl HBb]. simpl in *.
  pose proof (is_byte_lookup (Bytes A) i HAb ltac:(lia)) as Ha.
  pose proof (is_byte_lookup (Bytes B) i HBb ltac:(lia)) as Hb.
  unfold SUB_body.
  rewrite (int16_t_id (Bytes A !!! i)), (int16_t_id (Bytes B !!! i)) by lia.
  rewrite (int16_t_id (_ - _ - Borrow)) by lia.
  set (Diff := Bytes A !!! i - Bytes B !!! i - Borrow) in *.
  destruct (Z.ltb_spec Diff 0) as [Hneg|Hpos].
  - rewrite (int16_t_id (Diff + 256)) by lia.
    rewrite land_0xFF, (Z.mod_small (Diff + 256)) by lia.
    rewrite uint8_t_id by lia.
    split; [|split]; cbn [fst snd].
    + split; [rewrite length_insert; exact Hlen|].
      apply Forall_insert; [exact Hbytes | unfold is_byte; lia].
    + lia.
    + rewrite prefix_value_S_insert by lia. rewrite pow256_S.
      cbn [prefix_value]. subst Diff. nia.
  - rewrite land_0xFF, (Z.mod_small Diff) by lia.
    rewrite uint8_t_id by lia.
    split; [|split]; cbn [fst snd].
    + split; [rewrite length_insert; exact Hlen|].
      apply Forall_insert; [exact Hbytes | unfold is_byte; lia].
    + lia.
    + rewrite prefix_value_S_insert by lia. rewrite pow256_S.
      cbn [prefix_value]. subst Diff. nia.
Qed.

Lemma SUB_loop :
  sub_invariant A B 32 (for_loop 32 (SUB_body A B) (Bytes UInt256_zero, 0)).
Proof.
  apply (for_loop_invariant (sub_invariant A B)).
  - split; [apply wf_bytes_zero|]. simpl. lia.
  - apply SUB_body_invariant.
Qed.

Lemma SUB_Res_wf : wf_word (SUB_Res A B).
Proof. apply SUB_loop. Qed.

Lemma SUB_Res_value :
  word_value (SUB_Res A B) = (word_value A - word_value B) mod 2 ^ 256.
Proof.
  pose proof SUB_loop as (Hwf & Hc & Hval).
  rewrite (word_value_prefix _ SUB_Res_wf).
  rewrite (word_value_prefix A HA), (word_value_prefix B HB).
  unfold SUB_Res. cbn [Bytes].
  set (st := for_loop 32 (SUB_body A B) (Bytes UInt256_zero, 0)) in *.
  rewrite <- Hval. change (256 ^ Z.of_nat 32) with (2 ^ 256).
  replace (prefix_value 32 st.1 - st.2 * 2 ^ 256)
    with (prefix_value 32 st.1 + (- st.2) * 2 ^ 256) by lia.
  rewrite Z.mod_add by lia. symmetry. apply Z.mod_small.
  destruct Hwf as [Hl Hb].
  pose proof (prefix_value_bounds 32 st.1 Hb ltac:(lia)) as H.
  change (256 ^ Z.of_nat 32) with (2 ^ 256) in H. exact H.
Qed.
End Sub.

(** C2. For all 256-bit words [A] and [B], [addUInt256 A B] is the word of
    [A + B] modulo [2^256]: the carry out of byte 31 is dropped. The
    function is total (it returns a word, never a fault), its result is a
    well-formed word, and it is commutative. *)
Theorem addUInt256_spec (A B : UInt256) :
  wf_word A -> wf_word B ->
  word_value (addUInt256 A B) = (word_value A + word_value B) mod 2 ^ 256 /\
  wf_word (addUInt256 A B) /\
  addUInt256 A B = addUInt256 B A.
Proof.
  intros HA HB. split; [|split].
  - apply addUInt256_value; assumption.
  - apply addUInt256_wf; assumption.
  - apply addUInt256_comm.
Qed.

(** C6. For all 256-bit words [A] and [B], subtracting [B] from
    [addUInt256 A B] with the loop of the SUB case gives [A] back; the
    subtraction itself is [A - B] modulo [2^256]. *)
Theorem SUB_add_inverse (A B : UInt256) :
  wf_word A -> wf_word B ->
  SUB_Res (addUInt256 A B) B = A /\
  word_value (SUB_Res A B) = (word_value A - word_value B) mod 2 ^ 256.
Proof.
  intros HA HB. split; [|apply SUB_Res_value; assumption].
  pose proof (addUInt256_wf A B HA HB) as HS.
  apply word_value_inj; [apply SUB_Res_wf; assumption | exact HA |].
  rewrite SUB_Res_value by assumption.
  rewrite addUInt256_value by assumption.
  pose proof (word_value_bounds A HA).
  rewrite Zminus_mod_idemp_l.
  replace (word_value A + word_value B - word_value B) with (word_value A) by lia.
  apply Z.mod_small. assumption.
Qed.

(** ** The multiplication of the MUL case *)

Lemma MUL_while_unfold (fuel : nat) (st : list Z * list nat) (Carry : Z) (idx : nat) :
  MUL_while fuel st Carry idx =
  if Carry =? 0 then Ok st
  else
    match fuel with
    | O => Err OutOfFuel
    | S fuel' =>
        if decide (idx < Temp_size)%nat then
          let Sum := uint16_t (st.1 !!! idx + Carry) in
          MUL_while fuel'
            (<[idx := uint16_t (Z.land Sum 0xFF)]> st.1, idx :: st.2)
            (uint16_t (Z.shiftr Sum 8)) (S idx)
        else Err OutOfBounds
    end.
Proof. destruct fuel, st; reflexivity. Qed.


Lemma pow256_le_idx (idx : nat) (c v : Z) :
  0 <= v -> 1 <= c -> v + c * 256 ^ Z.of_nat idx < 256 ^ Z.of_nat 64 ->
  (idx < 64)%nat.
Proof.
  intros Hv Hc Hlt. pose proof (pow256_pos idx) as Hp.
  assert (256 ^ Z.of_nat idx < 256 ^ Z.of_nat 64) as H by nia.
  apply Z.pow_lt_mono_r_iff in H; lia.
Qed.

(** The carry loop adds [Carry * 256^idx] to the number held in [Temp],
    provided the sum still fits into the 64 bytes; it then ends before the
    fuel does and without leaving [Temp]. *)
Lemma MUL_while_spec (fuel : nat) : forall (st : list Z * list nat) (Carry : Z) (idx : nat),
  Temp_ok st -> 0 <= Carry <= 65280 ->
  prefix_value 64 st.1 + Carry * 256 ^ Z.of_nat idx < 256 ^ Z.of_nat 64 ->
  (64 <= idx + fuel)%nat ->
  exists st', MUL_while fuel st Carry idx = Ok st' /\ Temp_ok st' /\
    prefix_value 64 st'.1 = prefix_value 64 st.1 + Carry * 256 ^ Z.of_nat idx.
Proof.
  induction fuel as [|fuel IH]; intros [Temp log] Carry idx Hok HC Hfit Hfuel;
    rewrite MUL_while_unfold; cbn [fst snd] in *.
  - destruct (Z.eqb_spec Carry 0) as [->|Hne].
    + exists (Temp, log). cbn [fst snd]. split; [reflexivity|]. split; [exact Hok | lia].
    + exfalso. destruct Hok as [[Hl Hb] _]. cbn [fst] in *.
      pose proof (prefix_value_bounds 64 Temp Hb ltac:(unfold Temp_size in Hl; lia)).
      pose proof (pow256_le_idx idx Carry (prefix_value 64 Temp)). lia.
  - destruct (Z.eqb_spec Carry 0) as [->|Hne].
    + exists (Temp, log). cbn [fst snd]. split; [reflexivity|]. split; [exact Hok | lia].
    + destruct Hok as [[Hl Hb] Hlog]. cbn [fst snd] in *. unfold Temp_size in Hl.
      pose proof (prefix_value_bounds 64 Temp Hb ltac:(lia)) as Hpv.
      assert (idx < 64)%nat as Hidx
        by (apply (pow256_le_idx idx Carry (prefix_value 64 Temp)); lia).
      destruct (decide (idx < Temp_size)%nat) as [_|Hc]; [|unfold Temp_size in Hc; lia].
      pose proof (is_byte_lookup Temp idx Hb ltac:(lia)) as Ht.
      cbv zeta. rewrite (uint16_t_id (Temp !!! idx + Carry)) by lia.
      set (Sum := Temp !!! idx + Carry) in *.
      rewrite land_0xFF, shiftr_8.
      pose proof (Z.div_mod Sum 256 ltac:(lia)) as Hdm.
      pose proof (Z.mod_pos_bound Sum 256 ltac:(lia)) as Hm.
      assert (0 <= Sum / 256 <= 255) as Hq.
      { split; [apply Z.div_pos; lia|].
        assert (Sum / 256 < 256); [|lia]. apply Z.div_lt_upper_bound; lia. }
      rewrite (uint16_t_id (Sum mod 256)), (uint16_t_id (Sum / 256)) by lia.
      assert (prefix_value 64 (<[idx := Sum mod 256]> Temp)
                + Sum / 256 * 256 ^ Z.of_nat (S idx)
              = prefix_value 64 Temp + Carry * 256 ^ Z.of_nat idx) as Hstep.
      { rewrite prefix_value_insert_lt by lia. rewrite pow256_S.
        assert (Carry = 256 * (Sum / 256) + Sum mod 256 - Temp !!! idx) as HCarry
          by (subst Sum; lia).
        generalize (256 ^ Z.of_nat idx) (prefix_value 64 Temp) (Sum / 256)
          (Sum mod 256) (Temp !!! idx) HCarry.
        clear. intros X p q r t ->. ring. }
      destruct (IH (<[idx := Sum mod 256]> Temp, idx :: log) (Sum / 256) (S idx))
        as (st' & Hrun & Hok' & Hval); cbn [fst snd].
      * split; [split|]; cbn [fst snd].
        -- rewrite length_insert. exact Hl.
        -- apply Forall_insert; [exact Hb | exact Hm].
        -- constructor; [lia | exact Hlog].
      * lia.
      * rewrite Hstep. exact Hfit.
      * lia.
      * exists st'. split; [exact Hrun|]. split; [exact Hok'|].
        rewrite Hval. cbn [fst]. exact Hstep.
Qed.

Lemma prefix_value_S (n : nat) (l : list Z) :
  prefix_value (S n) l = prefix_value n l + l !!! n * 256 ^ Z.of_nat n.
Proof. reflexivity. Qed.

Lemma MUL_step_arith (p v a X pj b Y : Z) :
  p * v + a * X * pj + a * b * (X * Y) = p * v + a * X * (pj + b * Y).
Proof. ring. Qed.

Section Mul.
Variables A B : UInt256.
Hypothesis HA : wf_word A.
Hypothesis HB : wf_word B.

Let vA := prefix_value 32 (Bytes A).
Let vB := prefix_value 32 (Bytes B).

Lemma MUL_operand_bounds : 0 <= vA < 256 ^ Z.of_nat 32 /\ 0 <= vB < 256 ^ Z.of_nat 32.
Proof.
  destruct HA as [HAl HAb], HB as [HBl HBb].
  split; apply prefix_value_bounds; try assumption; lia.
Qed.

Lemma MUL_product_fits : vA * vB < 256 ^ Z.of_nat 64.
Proof.
  pose proof MUL_operand_bounds as [Ha Hb].
  change (Z.of_nat 64) with (Z.of_nat 32 + Z.of_nat 32).
  rewrite Z.pow_add_r by lia. nia.
Qed.



Lemma MUL_partial_le (i j : nat) :
  (i < 32)%nat -> (j <= 32)%nat ->
  prefix_value i (Bytes A) * vB
    + Bytes A !!! i * 256 ^ Z.of_nat i * prefix_value j (Bytes B)
  <= vA * vB.
Proof.
  intros Hi Hj. destruct HA as [HAl HAb], HB as [HBl HBb].
  pose proof (is_byte_lookup (Bytes A) i HAb ltac:(lia)) as Ha.
  pose proof (pow256_pos i) as HX.
  pose proof (prefix_value_bounds i (Bytes A) HAb ltac:(lia)) as Hpi.
  pose proof (prefix_value_bounds j (Bytes B) HBb ltac:(lia)) as Hpj.
  pose proof (prefix_value_mono j 32 (Bytes B) HBb ltac:(lia) ltac:(lia)) as Hjm.
  pose proof (prefix_value_mono (S i) 32 (Bytes A) HAb ltac:(lia) ltac:(lia)) as Him.
  rewrite (prefix_value_S i) in Him. fold vA in Him. fold vB in Hjm.
  pose proof MUL_operand_bounds as [HvA HvB].
  set (a := Bytes A !!! i) in *. set (X := 256 ^ Z.of_nat i) in *.
  set (pi := prefix_value i (Bytes A)) in *. set (pj := prefix_value j (Bytes B)) in *.
  assert (0 <= a * X) as HaX by nia.
  assert (a * X * pj <= a * X * vB) as H1 by (apply Z.mul_le_mono_nonneg_l; lia).
  assert ((pi + a * X) * vB <= vA * vB) as H2 by (apply Z.mul_le_mono_nonneg_r; lia).
  lia.
Qed.

Lemma MUL_body_invariant (i j : nat) (st : list Z * list nat) :
  (i < 32)%nat -> (j < 32)%nat -> MUL_inner_invariant A B i j st ->
  exists st', MUL_body A B i st j = Ok st' /\ MUL_inner_invariant A B i (S j) st'.
Proof.
  intros Hi Hj [Hok Hval]. destruct HA as [HAl HAb], HB as [HBl HBb].
  pose proof (is_byte_lookup (Bytes A) i HAb ltac:(lia)) as Ha.
  pose proof (is_byte_lookup (Bytes B) j HBb ltac:(lia)) as Hb.
  unfold MUL_body. cbv zeta.
  rewrite (uint16_t_id (Bytes A !!! i)), (uint16_t_id (Bytes B !!! j)) by lia.
  assert (0 <= Bytes A !!! i * Bytes B !!! j <= 65025) as HP by nia.
  rewrite (uint16_t_id (_ * _)) by lia.
  assert (prefix_value 64 st.1
            + Bytes A !!! i * Bytes B !!! j * 256 ^ Z.of_nat (i + j)
          = prefix_value i (Bytes A) * vB
            + Bytes A !!! i * 256 ^ Z.of_nat i * prefix_value (S j) (Bytes B))
    as Hnew.
  { rewrite Hval, (prefix_value_S j).
    rewrite Nat2Z.inj_add, Z.pow_add_r by lia. apply MUL_step_arith. }
  destruct (MUL_while_spec Temp_size st (Bytes A !!! i * Bytes B !!! j) (i + j))
    as (st' & Hrun & Hok' & Hval').
  - exact Hok.
  - lia.
  - rewrite Hnew. pose proof (MUL_partial_le i (S j) Hi ltac:(lia)).
    pose proof MUL_product_fits. lia.
  - unfold Temp_size. lia.
  - exists st'. split; [exact Hrun|]. split; [exact Hok'|].
    rewrite Hval'. exact Hnew.
Qed.

Lemma MUL_row_invariant (i : nat) (st : list Z * list nat) :
  (i < 32)%nat -> MUL_outer_invariant A B i st ->
  exists st', for_loopM 32 (MUL_body A B i) st = Ok st' /\
              MUL_outer_invariant A B (S i) st'.
Proof.
  intros Hi [Hok Hval].
  destruct (for_loopM_invariant (MUL_inner_invariant A B i) 32 (MUL_body A B i) st)
    as (st' & Hrun & Hok' & Hval').
  - split; [exact Hok|]. rewrite Hval.
    change (prefix_value 0 (Bytes B)) with 0.
    rewrite Z.mul_0_r, Z.add_0_r. reflexivity.
  - intros j s Hj. apply MUL_body_invariant; assumption.
  - exists st'. split; [exact Hrun|]. split; [exact Hok'|].
    rewrite Hval', (prefix_value_S i). fold vB.
    symmetry. apply Z.mul_add_distr_r.
Qed.

Lemma MUL_Temp_spec :
  exists st, MUL_Temp A B = Ok st /\ Temp_ok st /\
             le_value st.1 = word_value A * word_value B.
Proof.
  destruct (for_loopM_invariant (MUL_outer_invariant A B) 32
              (fun st i => for_loopM 32 (MUL_body A B i) st)
              (replicate Temp_size 0, []))
    as (st & Hrun & Hok & Hval).
  - split; [split|]; cbn [fst snd].
    + apply wf_bytes_zero.
    + constructor.
    + change (prefix_value 0 (Bytes A)) with 0. rewrite Z.mul_0_l. reflexivity.
  - intros i s Hi. apply MUL_row_invariant. exact Hi.
  - exists st. split; [exact Hrun|]. split; [exact Hok|].
    rewrite (word_value_prefix A HA), (word_value_prefix B HB).
    destruct Hok as [[Hl _] _]. rewrite <- prefix_value_le_value, Hl.
    exact Hval.
Qed.
End Mul.

Lemma prefix_value_ext (n : nat) (l1 l2 : list Z) :
  (forall m, (m < n)%nat -> l1 !!! m = l2 !!! m) ->
  prefix_value n l1 = prefix_value n l2.
Proof.
  induction n as [|n IH]; intros H; [reflexivity|].
  rewrite (prefix_value_S n l1), (prefix_value_S n l2), IH by (intros m Hm; apply H; lia).
  rewrite (H n) by lia. reflexivity.
Qed.

(** The result of the MUL case holds the low 32 bytes of [Temp]. *)
Lemma MUL_low_spec (Temp : list Z) :
  wf_bytes Temp_size Temp ->
  wf_word (MUL_low Temp) /\ Bytes (MUL_low Temp) = take 32 Temp /\
  word_value (MUL_low Temp) = le_value Temp mod 2 ^ 256.
Proof.
  intros [Hl Hb]. unfold Temp_size in Hl.
  set (Inv := fun (k : nat) (Res : list Z) =>
    wf_bytes 32 Res /\
    forall m, (m < 32)%nat -> Res !!! m = if decide (m < k)%nat then Temp !!! m else 0).
  assert (Inv 32%nat (Bytes (MUL_low Temp))) as [Hwf Hbytes].
  { unfold MUL_low. cbn [Bytes]. apply (for_loop_invariant Inv).
    - split; [apply wf_bytes_zero|]. intros m Hm. cbn [Bytes UInt256_zero].
      rewrite lookup_total_replicate_2 by lia. reflexivity.
    - intros i Res Hi [[HRl HRb] HR].
      pose proof (is_byte_lookup Temp i Hb ltac:(lia)) as Ht.
      rewrite uint8_t_id by exact Ht.
      split; [split|].
      + rewrite length_insert. exact HRl.
      + apply Forall_insert; [exact HRb | exact Ht].
      + intros m Hm. destruct (decide (m = i)) as [->|Hne].
        * rewrite list_lookup_total_insert_eq by lia.
          destruct (decide (i < S i)%nat); [reflexivity | lia].
        * rewrite list_lookup_total_insert_ne by lia. rewrite HR by lia.
          destruct (decide (m < i)%nat), (decide (m < S i)%nat); try lia; reflexivity. }
  assert (Bytes (MUL_low Temp) = take 32 Temp) as Htake.
  { destruct Hwf as [HRl _].
    apply (list_eq_same_length _ _ 32%nat); [rewrite length_take; lia | exact HRl |].
    intros m x y Hm Hx Hy.
    apply list_lookup_total_correct in Hx. rewrite lookup_take_lt in Hy by lia.
    apply list_lookup_total_correct in Hy. rewrite Hbytes in Hx by lia.
    destruct (decide (m < 32)%nat); [congruence | lia]. }
  split; [exact Hwf|]. split; [exact Htake|].
  rewrite (word_value_prefix _ Hwf).
  rewrite (prefix_value_ext 32 _ Temp).
  - rewrite <- (prefix_value_le_value Temp), Hl.
    change (2 ^ 256) with (256 ^ Z.of_nat 32).
    symmetry. apply prefix_value_mod; [exact Hb | lia | lia].
  - intros m Hm. rewrite Hbytes by lia.
    destruct (decide (m < 32)%nat); [reflexivity | lia].
Qed.

(** The multiplication of the MUL case never faults on well-formed words,
    and its result is the product modulo [2^256]. *)
Lemma MUL_Res_spec (A B : UInt256) :
  wf_word A -> wf_word B ->
  exists C, MUL_Res A B = Ok C /\ wf_word C /\
            word_value C = (word_value A * word_value B) mod 2 ^ 256.
Proof.
  intros HA HB. destruct (MUL_Temp_spec A B HA HB) as (st & Hrun & [Hwf _] & Hval).
  destruct (MUL_low_spec st.1 Hwf) as (HC & _ & HvC).
  exists (MUL_low st.1). split; [unfold MUL_Res; rewrite Hrun; reflexivity|].
  split; [exact HC|]. rewrite HvC, Hval. reflexivity.
Qed.

(** ** The monad of the handlers *)

Lemma bind_Ok {A B : Type} (m : FrameM A) (k : A -> FrameM B) (f f' : EVMFrame) (a : A) :
  m f = (Ok a, f') -> (m ≫= k) f = k a f'.
Proof. intros H. unfold mbind, FrameM_bind. rewrite H. reflexivity. Qed.

Lemma bind_Err {A B : Type} (m : FrameM A) (k : A -> FrameM B) (f f' : EVMFrame) (e : Fault) :
  m f = (Err e, f') -> (m ≫= k) f = (Err e, f').
Proof. intros H. unfold mbind, FrameM_bind. rewrite H. reflexivity. Qed.

(** ** [push], [pop], [peek] and the check of the stack height *)

Lemma require_args_Ok (N : nat) (f : EVMFrame) :
  (N <= Sp f)%nat -> require_args N f = (Ok tt, f).
Proof.
  intros H. unfold require_args. erewrite bind_Ok by reflexivity.
  destruct (decide (Sp f < N)%nat); [lia | reflexivity].
Qed.

Lemma require_args_Err (N : nat) (f : EVMFrame) :
  (Sp f < N)%nat -> require_args N f = (Err (Thrown UnexpectedNumArgs), f).
Proof.
  intros H. unfold require_args. erewrite bind_Ok by reflexivity.
  destruct (decide (Sp f < N)%nat); [reflexivity | lia].
Qed.

Lemma push_Ok (V : UInt256) (f : EVMFrame) :
  (Sp f < MAX_STACK)%nat ->
  push V f = (Ok tt, mkEVMFrame (Code f) (Pc f) (<[Sp f := V]> (Stack f))
                       (S (Sp f)) (Memory f) (GasLeft f)).
Proof.
  intros H. unfold push. erewrite bind_Ok by reflexivity.
  rewrite bool_decide_eq_true_2 by exact H. reflexivity.
Qed.

Lemma push_Err (V : UInt256) (f : EVMFrame) :
  (MAX_STACK <= Sp f)%nat -> push V f = (Err AssertionViolated, f).
Proof.
  intros H. unfold push. erewrite bind_Ok by reflexivity.
  rewrite bool_decide_eq_false_2 by lia. reflexivity.
Qed.

Lemma pop_Ok (f : EVMFrame) :
  (0 < Sp f)%nat ->
  pop f = (Ok (Stack f !!! (Sp f - 1)%nat), set_Sp (Sp f - 1) f).
Proof.
  intros H. unfold pop. erewrite bind_Ok by reflexivity.
  rewrite bool_decide_eq_true_2 by exact H. reflexivity.
Qed.

Lemma pop_Err (f : EVMFrame) :
  Sp f = 0%nat -> pop f = (Err AssertionViolated, f).
Proof.
  intros H. unfold pop. erewrite bind_Ok by reflexivity.
  rewrite bool_decide_eq_false_2 by lia. reflexivity.
Qed.

Lemma peek_Ok (Index : nat) (f : EVMFrame) :
  (Index < Sp f)%nat -> peek Index f = (Ok (Sp f - 1 - Index)%nat, f).
Proof.
  intros H. unfold peek. erewrite bind_Ok by reflexivity.
  rewrite bool_decide_eq_true_2 by exact H. reflexivity.
Qed.

(** Two operands are popped: the top one first. *)
Lemma pop_pop (f : EVMFrame) {A : Type} (k : UInt256 -> UInt256 -> FrameM A) :
  (2 <= Sp f)%nat ->
  (B ← pop; A ← pop; k A B) f
  = k (Stack f !!! (Sp f - 2)%nat) (Stack f !!! (Sp f - 1)%nat) (set_Sp (Sp f - 2) f).
Proof.
  intros H. erewrite bind_Ok by (apply pop_Ok; lia).
  erewrite bind_Ok by (apply pop_Ok; simpl; lia).
  simpl. replace (Sp f - 1 - 1)%nat with (Sp f - 2)%nat by lia. reflexivity.
Qed.

(** ** The stack as the list of its operands *)

Lemma live_stack_push (V : UInt256) (f : EVMFrame) :
  (Sp f < length (Stack f))%nat ->
  live_stack (mkEVMFrame (Code f) (Pc f) (<[Sp f := V]> (Stack f))
                (S (Sp f)) (Memory f) (GasLeft f))
  = V :: live_stack f.
Proof.
  intros H. unfold live_stack. simpl.
  rewrite (take_S_r _ _ V) by (apply list_lookup_insert_eq; exact H).
  rewrite take_insert_ge by lia. rewrite rev_app_distr. reflexivity.
Qed.

Lemma live_stack_pop (f : EVMFrame) :
  (0 < Sp f)%nat -> (Sp f <= length (Stack f))%nat ->
  live_stack f = Stack f !!! (Sp f - 1)%nat :: live_stack (set_Sp (Sp f - 1) f).
Proof.
  intros H0 H. unfold live_stack. simpl.
  replace (Sp f) with (S (Sp f - 1)) at 1 by lia.
  rewrite (take_S_r _ _ (Stack f !!! (Sp f - 1)%nat))
    by (apply list_lookup_lookup_total_lt; lia).
  rewrite rev_app_distr. reflexivity.
Qed.

Lemma live_stack_length (f : EVMFrame) :
  (Sp f <= length (Stack f))%nat -> length (live_stack f) = Sp f.
Proof.
  intros H. unfold live_stack. rewrite length_rev, length_take. lia.
Qed.

(** ** The branches of [switch (Op)] *)

Lemma dispatch_PUSH (Op : Z) :
  0x60 <= Op <= 0x7F -> dispatch Op = case_PUSH Op.
Proof.
  intros H. unfold dispatch.
  assert (uint8_t Op = Op) as -> by (apply uint8_t_id; lia).
  repeat match goal with
         | |- context [Op =? ?c] => destruct (Z.eqb_spec Op c) as [E|_];
                                    [vm_compute in E; lia|]
         end.
  destruct (Z.leb_spec 0x60 Op); [|lia]. destruct (Z.leb_spec Op 0x7F); [|lia].
  reflexivity.
Qed.

Lemma dispatch_DUP (Op : Z) :
  0x80 <= Op <= 0x8F -> dispatch Op = case_DUP Op.
Proof.
  intros H. unfold dispatch.
  assert (uint8_t Op = Op) as -> by (apply uint8_t_id; lia).
  repeat match goal with
         | |- context [Op =? ?c] => destruct (Z.eqb_spec Op c) as [E|_];
                                    [vm_compute in E; lia|]
         end.
  destruct (Z.leb_spec 0x60 Op); [|lia]. destruct (Z.leb_spec Op 0x7F); [lia|].
  destruct (Z.leb_spec 0x80 Op); [|lia]. destruct (Z.leb_spec Op 0x8F); [|lia].
  reflexivity.
Qed.

Lemma dispatch_SWAP (Op : Z) :
  0x90 <= Op <= 0x9F -> dispatch Op = case_SWAP Op.
Proof.
  intros H. unfold dispatch.
  assert (uint8_t Op = Op) as -> by (apply uint8_t_id; lia).
  repeat match goal with
         | |- context [Op =? ?c] => destruct (Z.eqb_spec Op c) as [E|_];
                                    [vm_compute in E; lia|]
         end.
  destruct (Z.leb_spec 0x60 Op); [|lia]. destruct (Z.leb_spec Op 0x7F); [lia|].
  destruct (Z.leb_spec 0x80 Op); [|lia]. destruct (Z.leb_spec Op 0x8F); [lia|].
  destruct (Z.leb_spec 0x90 Op); [|lia]. destruct (Z.leb_spec Op 0x9F); [|lia].
  reflexivity.
Qed.

(** ** The arithmetic cases *)

(** C1. On a well-formed frame that holds at least two operands, the MUL
    case pops [B], then [A], and pushes the word [C] of [A * B] modulo
    [2^256] in their place: [C] holds bytes 0..31 of the 64-byte
    intermediate [Temp], which holds the whole product. In particular the
    product of [2^128] with itself is the zero word. *)
Theorem MUL_case_spec (f : EVMFrame) (A B : UInt256) (rest : list UInt256) :
  wf_frame f -> live_stack f = B :: A :: rest ->
  exists (C : UInt256) (Temp : list Z) (f' : EVMFrame),
    dispatch Opcode.MUL f = (Ok Break, f') /\
    live_stack f' = C :: rest /\
    Pc f' = Pc f /\ Memory f' = Memory f /\ Code f' = Code f /\
    wf_word C /\
    word_value C = (word_value A * word_value B) mod 2 ^ 256 /\
    length Temp = 64%nat /\
    le_value Temp = word_value A * word_value B /\
    Bytes C = take 32 Temp /\
    MUL_Res (word_of_Z (2 ^ 128)) (word_of_Z (2 ^ 128)) = Ok (word_of_Z 0).
Proof.
  intros (Hlen & HSp & Hwords & _ & _) Hlive.
  assert (2 <= Sp f)%nat as H2.
  { rewrite <- (live_stack_length f) by lia. rewrite Hlive. simpl. lia. }
  rewrite (live_stack_pop f) in Hlive by lia.
  rewrite (live_stack_pop (set_Sp (Sp f - 1) f)) in Hlive by (simpl; lia).
  simpl in Hlive. replace (Sp f - 1 - 1)%nat with (Sp f - 2)%nat in Hlive by lia.
  injection Hlive as HB HA Hrest.
  assert (wf_word A) as HwA.
  { subst A. apply (Forall_lookup_total_1 wf_word _ _ Hwords). lia. }
  assert (wf_word B) as HwB.
  { subst B. apply (Forall_lookup_total_1 wf_word _ _ Hwords). lia. }
  destruct (MUL_Temp_spec A B HwA HwB) as (st & Hrun & [[HTl HTb] _] & Hval).
  destruct (MUL_low_spec st.1 (conj HTl HTb)) as (HC & Htake & HvC).
  exists (MUL_low st.1), st.1,
    (mkEVMFrame (Code f) (Pc f) (<[(Sp f - 2)%nat := MUL_low st.1]> (Stack f))
       (S (Sp f - 2)) (Memory f) (GasLeft f)).
  split_and!; [| | reflexivity | reflexivity | reflexivity | | | | | |].
  - change (dispatch Opcode.MUL) with case_MUL. unfold case_MUL.
    erewrite bind_Ok by (apply require_args_Ok; lia).
    rewrite pop_pop by lia. rewrite HA, HB.
    erewrite bind_Ok by (unfold lift_res, MUL_Res; rewrite Hrun; reflexivity).
    erewrite bind_Ok by (apply push_Ok; simpl; unfold MAX_STACK in *; lia).
    reflexivity.
  - rewrite <- Hrest.
    apply (live_stack_push (MUL_low st.1) (set_Sp (Sp f - 2) f)). simpl. lia.
  - exact HC.
  - rewrite HvC, Hval. reflexivity.
  - exact HTl.
  - exact Hval.
  - exact Htake.
  - vm_compute. reflexivity.
Qed.

(** ** The check of the stack height *)

(** C7. An opcode that requires [N] operands checks the height of the stack
    before it pops anything: on a frame with fewer than [N] operands the
    case throws [UnexpectedNumArgs] and the frame, its stack and its height
    included, is the one the case was entered with. In particular ADD on
    an empty stack throws and leaves the stack empty. *)
Theorem operands_checked_first (Op : Z) (f : EVMFrame) :
  is_byte Op -> (Sp f < operands_required Op)%nat ->
  dispatch Op f = (Err (Thrown UnexpectedNumArgs), f) /\
  (Op = Opcode.ADD -> Sp f = 0%nat ->
   live_stack (dispatch Op f).2 = [] /\ Sp (dispatch Op f).2 = 0%nat).
Proof.
  intros HOp Hlt.
  assert (dispatch Op f = (Err (Thrown UnexpectedNumArgs), f)) as Hd.
  { unfold operands_required in Hlt.
    destruct (Z.eqb_spec Op 0x01) as [->|?].
    { change (dispatch 1) with case_ADD. unfold case_ADD.
      apply bind_Err, require_args_Err. exact Hlt. }
    destruct (Z.eqb_spec Op 0x02) as [->|?].
    { change (dispatch 2) with case_MUL. unfold case_MUL.
      apply bind_Err, require_args_Err. exact Hlt. }
    destruct (Z.eqb_spec Op 0x03) as [->|?].
    { change (dispatch 3) with case_SUB. unfold case_SUB.
      apply bind_Err, require_args_Err. exact Hlt. }
    cbn [orb] in Hlt.
    destruct (Z.eqb_spec Op 0x50) as [->|?].
    { change (dispatch 80) with case_POP. unfold case_POP.
      apply bind_Err, require_args_Err. exact Hlt. }
    destruct (Z.eqb_spec Op 0x52) as [->|?].
    { change (dispatch 82) with case_MSTORE. unfold case_MSTORE.
      apply bind_Err, require_args_Err. exact Hlt. }
    destruct (Z.eqb_spec Op 0xF3) as [->|?].
    { change (dispatch 243) with case_RETURN. unfold case_RETURN.
      apply bind_Err, require_args_Err. exact Hlt. }
    cbn [orb] in Hlt.
    destruct (Z.leb_spec 0x80 Op), (Z.leb_spec Op 0x8F); cbn [andb] in Hlt.
    { rewrite dispatch_DUP by lia. unfold case_DUP.
      rewrite uint8_t_id by lia. erewrite bind_Ok by reflexivity.
      destruct (decide (Sp f < Z.to_nat (Op - 127))%nat); [reflexivity | lia]. }
    all: destruct (Z.leb_spec 0x90 Op), (Z.leb_spec Op 0x9F); cbn [andb] in Hlt; try lia.
    all: rewrite dispatch_SWAP by lia; unfold case_SWAP.
    all: rewrite uint8_t_id by lia; erewrite bind_Ok by reflexivity.
    all: destruct (decide (Sp f <= Z.to_nat (Op - 143))%nat); [reflexivity | lia]. }
  split; [exact Hd|]. intros _ H0. rewrite Hd. cbn [snd].
  split; [|exact H0]. unfold live_stack. rewrite H0. reflexivity.
Qed.

(** ** The PUSH branch *)

Lemma rev_lookup_total {A : Type} `{!Inhabited A} (l : list A) (i : nat) :
  (i < length l)%nat -> rev l !!! i = l !!! (length l - 1 - i)%nat.
Proof.
  induction l as [|a l IH]; intros Hi; simpl in Hi; [lia|].
  simpl rev. destruct (decide (i < length l)%nat) as [Hlt|Hge].
  - rewrite lookup_total_app_l by (rewrite length_rev; exact Hlt).
    rewrite IH by exact Hlt. simpl length.
    replace (S (length l) - 1 - i)%nat with (S (length l - 1 - i)) by lia.
    reflexivity.
  - rewrite lookup_total_app_r by (rewrite length_rev; lia).
    rewrite length_rev. simpl length.
    replace (i - length l)%nat with 0%nat by lia.
    replace (S (length l) - 1 - i)%nat with 0%nat by lia. reflexivity.
Qed.

Lemma list_eq_total {A : Type} `{!Inhabited A} (l1 l2 : list A) (n : nat) :
  length l1 = n -> length l2 = n ->
  (forall i, (i < n)%nat -> l1 !!! i = l2 !!! i) -> l1 = l2.
Proof.
  intros H1 H2 H. apply (list_eq_same_length _ _ n); [exact H2 | exact H1 |].
  intros i x y Hi Hx Hy.
  apply list_lookup_total_correct in Hx. apply list_lookup_total_correct in Hy.
  rewrite <- Hx, <- Hy. apply H. exact Hi.
Qed.

Lemma le_value_app (l1 l2 : list Z) :
  le_value (l1 ++ l2) = le_value l1 + 256 ^ Z.of_nat (length l1) * le_value l2.
Proof.
  induction l1 as [|b t IH]; [simpl; lia|].
  simpl app. simpl le_value. simpl length. rewrite IH, pow256_S. lia.
Qed.

Lemma le_value_zeros (n : nat) : le_value (replicate n 0) = 0.
Proof. induction n as [|n IH]; [reflexivity|]. simpl. rewrite IH. reflexivity. Qed.

(** The immediate of a PUSH is stored with its bytes in the opposite order,
    and the rest of the word is zero. *)
Lemma PUSH_immediate (code : list Z) (pc n : nat) :
  (n <= 32)%nat -> (pc + n <= length code)%nat ->
  for_loop n (fun Val i => <[i := code !!! (pc + n - 1 - i)%nat]> Val)
    (Bytes UInt256_zero)
  = rev (take n (drop pc code)) ++ replicate (32 - n) 0.
Proof.
  intros Hn Hpc.
  set (Inv := fun (k : nat) (Val : list Z) =>
    length Val = 32%nat /\
    forall m, (m < 32)%nat ->
      Val !!! m = if decide (m < k)%nat then code !!! (pc + n - 1 - m)%nat else 0).
  assert (Inv n (for_loop n (fun Val i => <[i := code !!! (pc + n - 1 - i)%nat]> Val)
                   (Bytes UInt256_zero))) as [Hlen Hbytes].
  { apply (for_loop_invariant Inv).
    - split; [apply length_replicate|]. intros m Hm. cbn [Bytes UInt256_zero].
      rewrite lookup_total_replicate_2 by lia. reflexivity.
    - intros i Val Hi [HVl HV]. split; [rewrite length_insert; exact HVl|].
      intros m Hm. destruct (decide (m = i)) as [->|Hne].
      + rewrite list_lookup_total_insert_eq by lia.
        destruct (decide (i < S i)%nat); [reflexivity | lia].
      + rewrite list_lookup_total_insert_ne by lia. rewrite HV by lia.
        destruct (decide (m < i)%nat), (decide (m < S i)%nat); try lia; reflexivity. }
  assert (length (take n (drop pc code)) = n) as Himm
    by (rewrite length_take, length_drop; lia).
  apply (list_eq_total _ _ 32); [exact Hlen | |].
  - rewrite length_app, length_rev, length_replicate, Himm. lia.
  - intros m Hm. rewrite Hbytes by exact Hm.
    destruct (decide (m < n)%nat) as [Hlt|Hge].
    + rewrite lookup_total_app_l by (rewrite length_rev, Himm; exact Hlt).
      rewrite rev_lookup_total by (rewrite Himm; exact Hlt).
      rewrite Himm, lookup_total_take_lt by lia.
      rewrite lookup_total_drop. f_equal. lia.
    + rewrite lookup_total_app_r by (rewrite length_rev, Himm; lia).
      rewrite lookup_total_replicate_2 by (rewrite length_rev, Himm; lia).
      reflexivity.
Qed.

Lemma case_PUSH_UnexpectedEnd (Op : Z) (f : EVMFrame) :
  0x60 <= Op <= 0x7F -> (CodeEnd f < Pc f + Z.to_nat (Op - 0x5F))%nat ->
  dispatch Op f = (Err (Thrown UnexpectedEnd), f).
Proof.
  intros HOp Hend. rewrite dispatch_PUSH by exact HOp.
  unfold case_PUSH. rewrite uint8_t_id by lia.
  erewrite bind_Ok by reflexivity.
  destruct (decide (CodeEnd f < Pc f + Z.to_nat (Op - 95))%nat); [reflexivity | lia].
Qed.

Lemma case_PUSH_Ok (Op : Z) (f : EVMFrame) :
  0x60 <= Op <= 0x7F -> (Pc f + Z.to_nat (Op - 0x5F) <= CodeEnd f)%nat ->
  (Sp f < MAX_STACK)%nat ->
  dispatch Op f
  = (Ok Break,
     mkEVMFrame (Code f) (Pc f + Z.to_nat (Op - 0x5F))
       (<[Sp f := mkUInt256 (rev (take (Z.to_nat (Op - 0x5F)) (drop (Pc f) (Code f)))
                             ++ replicate (32 - Z.to_nat (Op - 0x5F)) 0)]> (Stack f))
       (S (Sp f)) (Memory f) (GasLeft f)).
Proof.
  intros HOp Hfit HSp. rewrite dispatch_PUSH by exact HOp.
  unfold case_PUSH. rewrite uint8_t_id by lia.
  erewrite bind_Ok by reflexivity.
  destruct (decide (CodeEnd f < Pc f + Z.to_nat (Op - 95))%nat) as [Hc|_]; [lia|].
  unfold CodeEnd in Hfit. rewrite PUSH_immediate by lia.
  erewrite bind_Ok by reflexivity.
  erewrite bind_Ok by (apply push_Ok; exact HSp). reflexivity.
Qed.

Lemma case_PUSH_full (Op : Z) (f : EVMFrame) :
  0x60 <= Op <= 0x7F -> (Pc f + Z.to_nat (Op - 0x5F) <= CodeEnd f)%nat ->
  (MAX_STACK <= Sp f)%nat ->
  dispatch Op f = (Err AssertionViolated, set_Pc (Pc f + Z.to_nat (Op - 0x5F)) f).
Proof.
  intros HOp Hfit HSp. rewrite dispatch_PUSH by exact HOp.
  unfold case_PUSH. rewrite uint8_t_id by lia.
  erewrite bind_Ok by reflexivity.
  destruct (decide (CodeEnd f < Pc f + Z.to_nat (Op - 95))%nat) as [Hc|_]; [lia|].
  erewrite bind_Ok by reflexivity.
  erewrite bind_Err by (apply push_Err; exact HSp). reflexivity.
Qed.

(** X23. The PUSH branch. Let [n = Op - 0x5F] for a PUSH opcode [Op] and
    let the frame be entered with [Pc] behind the opcode. With fewer than
    [n] bytes left the branch throws [UnexpectedEnd] and leaves the frame as
    it entered the branch. Otherwise the [n] bytes are a big-endian
    immediate: the word [Val] holds them in the opposite order (the first
    byte of the code at index [n-1], the bytes from [n] on zero) and
    denotes the same number. [Pc] moves behind the immediate, and [Val] is
    pushed when the stack holds fewer than [MAX_STACK] words; on a full
    stack the assertion of [push] fails instead, after [Pc] has moved. *)
Theorem PUSH_case_spec (Op : Z) (f : EVMFrame) :
  0x60 <= Op <= 0x7F ->
  let n := Z.to_nat (Op - 0x5F) in
  let imm := take n (drop (Pc f) (Code f)) in
  let Val := mkUInt256 (rev imm ++ replicate (32 - n) 0) in
  (1 <= n <= 32)%nat /\
  ((CodeEnd f < Pc f + n)%nat ->
     dispatch Op f = (Err (Thrown UnexpectedEnd), f)) /\
  ((Pc f + n <= CodeEnd f)%nat ->
     length imm = n /\ word_value Val = be_value imm /\
     ((Sp f < MAX_STACK)%nat ->
        dispatch Op f
        = (Ok Break, mkEVMFrame (Code f) (Pc f + n) (<[Sp f := Val]> (Stack f))
                       (S (Sp f)) (Memory f) (GasLeft f))) /\
     ((MAX_STACK <= Sp f)%nat ->
        dispatch Op f = (Err AssertionViolated, set_Pc (Pc f + n) f))).
Proof.
  intros HOp n imm Val.
  assert (1 <= n <= 32)%nat as Hn by (subst n; lia).
  split; [exact Hn|]. split.
  - intros Hend. apply case_PUSH_UnexpectedEnd; assumption.
  - intros Hfit.
    assert (length imm = n) as Himm.
    { subst imm. unfold CodeEnd in Hfit. rewrite length_take, length_drop. lia. }
    split; [exact Himm|]. split.
    { unfold word_value, be_value, Val. cbn [Bytes].
      rewrite le_value_app, le_value_zeros. lia. }
    split; intros HSp.
    + apply case_PUSH_Ok; assumption.
    + apply case_PUSH_full; assumption.
Qed.

(** ** The memory of a frame *)

(** *** The growth step *)

(** Where the memory is long enough, or the size asked for is one that a
    vector can have, the old bytes stay and zero bytes are appended. *)
Lemma Memory_grow_Ok (Need : Z) (f : EVMFrame) :
  Need <= Memory_size f \/ Need <= vector_max_size ->
  Memory_grow Need f
  = (Ok tt, set_Memory
              (Memory f ++ replicate (Z.to_nat Need - length (Memory f)) 0) f).
Proof.
  intros H. unfold Memory_grow. erewrite bind_Ok by reflexivity.
  destruct (decide (Memory_size f < Need)) as [Hlt|Hge]; unfold Memory_size in *.
  - unfold Memory_resize. destruct (decide (Need <= vector_max_size)) as [_|Hbig].
    + unfold modify_frame. rewrite resize_spec, take_ge by lia. reflexivity.
    + lia.
  - replace (Z.to_nat Need - length (Memory f))%nat with 0%nat by lia.
    cbn [replicate]. rewrite app_nil_r. destruct f; reflexivity.
Qed.

(** Where the memory has to grow beyond the largest size of a vector,
    [resize] throws and the frame is as it was. *)
Lemma Memory_grow_Err (Need : Z) (f : EVMFrame) :
  Memory_size f < Need -> vector_max_size < Need ->
  Memory_grow Need f = (Err LengthError, f).
Proof.
  intros Hlt Hbig. unfold Memory_grow. erewrite bind_Ok by reflexivity.
  destruct (decide (Memory_size f < Need)); [|lia].
  unfold Memory_resize. destruct (decide (Need <= vector_max_size)); [lia|].
  reflexivity.
Qed.

Lemma Memory_grow_cases (Need : Z) (f : EVMFrame) :
  Memory_grow Need f
  = (Ok tt, set_Memory
              (Memory f ++ replicate (Z.to_nat Need - length (Memory f)) 0) f) \/
  (Memory_size f < Need /\ vector_max_size < Need /\
   Memory_grow Need f = (Err LengthError, f)).
Proof.
  destruct (Z_le_gt_dec Need (Memory_size f)) as [Hle|Hgt].
  - left. apply Memory_grow_Ok. left. exact Hle.
  - destruct (Z_le_gt_dec Need vector_max_size) as [Hfit|Hbig].
    + left. apply Memory_grow_Ok. right. exact Hfit.
    + right. split_and!; [lia | lia | apply Memory_grow_Err; lia].
Qed.

Lemma for_loopF_S (n : nat) (body : nat -> FrameM unit) :
  for_loopF (S n) body = (for_loopF n body;; body n).
Proof. unfold for_loopF. rewrite seq_S, fold_left_app. reflexivity. Qed.

(** *** Steps that leave the memory as it is *)

Lemma Memory_kept_bind {A B : Type} (m : FrameM A) (k : A -> FrameM B) :
  Memory_kept m -> (forall a, Memory_kept (k a)) -> Memory_kept (m ≫= k).
Proof.
  intros Hm Hk f. specialize (Hm f). unfold mbind, FrameM_bind.
  destruct (m f) as [[a|e] f'] eqn:E; cbn [snd] in *.
  - rewrite (Hk a f'). exact Hm.
  - exact Hm.
Qed.

Lemma Memory_kept_ret {A : Type} (a : A) : Memory_kept (mret a).
Proof. intros f. reflexivity. Qed.

Lemma Memory_kept_fault {A : Type} (e : Fault) : Memory_kept (@fault A e).
Proof. intros f. reflexivity. Qed.

Lemma Memory_kept_throw {A : Type} (e : ErrorCode) : Memory_kept (@throw A e).
Proof. intros f. reflexivity. Qed.

Lemma Memory_kept_get : Memory_kept get_frame.
Proof. intros f. reflexivity. Qed.

Lemma Memory_kept_stackHeight : Memory_kept stackHeight.
Proof. intros f. reflexivity. Qed.

Lemma Memory_kept_lift {A : Type} (r : res A) : Memory_kept (lift_res r).
Proof. intros f. destruct r; reflexivity. Qed.

Lemma Memory_kept_modify (g : EVMFrame -> EVMFrame) :
  (forall f, Memory (g f) = Memory f) -> Memory_kept (modify_frame g).
Proof. intros H f. apply H. Qed.

Lemma Memory_kept_ZEN_ASSERT (c : bool) : Memory_kept (ZEN_ASSERT c).
Proof. destruct c; [apply Memory_kept_ret | apply Memory_kept_fault]. Qed.

Create HintDb mem discriminated.
#[local] Hint Resolve Memory_kept_ret Memory_kept_fault Memory_kept_throw
  Memory_kept_get Memory_kept_stackHeight Memory_kept_lift
  Memory_kept_ZEN_ASSERT : mem.

(** Breaks a handler into its steps. *)
Ltac mem_steps :=
  repeat first
    [ solve [auto with mem]
    | match goal with |- Memory_kept (if ?c then _ else _) => destruct c end
    | match goal with |- Memory_kept (_ ≫= _) => apply Memory_kept_bind; [|intros ?] end
    | apply Memory_kept_modify; intros ?; reflexivity ].

Lemma Memory_kept_require_args (N : nat) : Memory_kept (require_args N).
Proof. unfold require_args. mem_steps. Qed.

Lemma Memory_kept_push (V : UInt256) : Memory_kept (push V).
Proof. unfold push. mem_steps. Qed.

Lemma Memory_kept_pop : Memory_kept pop.
Proof. unfold pop. mem_steps. Qed.

Lemma Memory_kept_peek (Index : nat) : Memory_kept (peek Index).
Proof. unfold peek. mem_steps. Qed.

Lemma Memory_kept_range (Off Len : Z) : Memory_kept (Memory_range Off Len).
Proof. unfold Memory_range. mem_steps. Qed.

#[local] Hint Resolve Memory_kept_require_args Memory_kept_push Memory_kept_pop
  Memory_kept_peek Memory_kept_range : mem.

(** Only MSTORE and RETURN touch the memory. *)
Lemma Memory_kept_dispatch (Op : Z) :
  Op <> Opcode.MSTORE -> Op <> Opcode.RETURN -> Memory_kept (dispatch Op).
Proof.
  intros HM HR. unfold dispatch.
  destruct (Z.eqb_spec Op Opcode.MSTORE) as [E|_]; [contradiction|].
  destruct (Z.eqb_spec Op Opcode.RETURN) as [E|_]; [contradiction|].
  repeat match goal with
         | |- Memory_kept (if ?c then _ else _) => destruct c
         end;
    try solve [auto with mem];
    unfold case_ADD, case_SUB, case_MUL, case_POP, case_PUSH, case_DUP, case_SWAP;
    cbv zeta; mem_steps.
Qed.

(** *** Steps that extend the memory with zero bytes *)

Lemma zero_extension_lookup (M : list Z) (k i : nat) :
  (i < length M + k)%nat ->
  (M ++ replicate k 0) !!! i = if decide (i < length M)%nat then M !!! i else 0.
Proof.
  intros Hi. destruct (decide (i < length M)%nat) as [Hlt|Hge].
  - apply lookup_total_app_l. exact Hlt.
  - rewrite lookup_total_app_r by lia. apply lookup_total_replicate_2. lia.
Qed.

Lemma Memory_extended_refl (W : nat -> Prop) (M : list Z) : Memory_extended W M M.
Proof.
  exists 0%nat. split; [lia|]. intros i _ _. cbn [replicate].
  rewrite app_nil_r. reflexivity.
Qed.

Lemma Memory_extended_trans (W : nat -> Prop) (M1 M2 M3 : list Z) :
  Memory_extended W M1 M2 -> Memory_extended W M2 M3 -> Memory_extended W M1 M3.
Proof.
  intros (k1 & L1 & H1) (k2 & L2 & H2). exists (k1 + k2)%nat. split; [lia|].
  intros i Hi HW. rewrite (H2 i Hi HW).
  rewrite (zero_extension_lookup M2) by lia.
  rewrite (zero_extension_lookup M1) by lia.
  destruct (decide (i < length M2)%nat) as [Hlt|Hge].
  - rewrite (H1 i Hlt HW). apply zero_extension_lookup. lia.
  - destruct (decide (i < length M1)%nat); [lia | reflexivity].
Qed.

Lemma Memory_extended_mono (W W' : nat -> Prop) (M M' : list Z) :
  (forall i, W i -> W' i) -> Memory_extended W M M' -> Memory_extended W' M M'.
Proof.
  intros HW (k & L & H). exists k. split; [exact L|].
  intros i Hi Hn. apply H; [exact Hi | intros Hw; apply Hn, HW, Hw].
Qed.

Lemma Memory_extends_kept {A : Type} (W : nat -> Prop) (m : FrameM A) :
  Memory_kept m -> Memory_extends W m.
Proof. intros H f. rewrite (H f). apply Memory_extended_refl. Qed.

Lemma Memory_extends_bind {A B : Type} (W : nat -> Prop)
    (m : FrameM A) (k : A -> FrameM B) :
  Memory_extends W m -> (forall a, Memory_extends W (k a)) ->
  Memory_extends W (m ≫= k).
Proof.
  intros Hm Hk f. specialize (Hm f). unfold mbind, FrameM_bind.
  destruct (m f) as [[a|e] f'] eqn:E; cbn [snd] in *.
  - eapply Memory_extended_trans; [exact Hm | apply Hk].
  - exact Hm.
Qed.

(** The growth step appends zero bytes, or leaves the memory as it is. *)
Lemma Memory_extends_grow (W : nat -> Prop) (Need : Z) :
  Memory_extends W (Memory_grow Need).
Proof.
  intros f. destruct (Memory_grow_cases Need f) as [E|(_ & _ & E)]; rewrite E.
  - cbn [snd set_Memory Memory].
    exists (Z.to_nat Need - length (Memory f))%nat. split.
    + rewrite length_app, length_replicate. reflexivity.
    + intros i _ _. reflexivity.
  - apply Memory_extended_refl.
Qed.

(** A store changes the byte at its index and nothing else. *)
Lemma Memory_extends_store (W : nat -> Prop) (Index V : Z) :
  W (Z.to_nat Index) -> Memory_extends W (Memory_store Index V).
Proof.
  intros HW f. unfold Memory_store. erewrite bind_Ok by reflexivity.
  destruct (decide (Index < Memory_size f)); [|apply Memory_extended_refl].
  cbn [modify_frame snd set_Memory Memory].
  exists 0%nat. split; [rewrite length_insert; lia|].
  intros i _ Hn. cbn [replicate]. rewrite app_nil_r.
  apply list_lookup_total_insert_ne. intros E. apply Hn. rewrite <- E. exact HW.
Qed.

Lemma Memory_extends_for_loopF (W : nat -> Prop) (n : nat) (body : nat -> FrameM unit) :
  (forall i, (i < n)%nat -> Memory_extends W (body i)) ->
  Memory_extends W (for_loopF n body).
Proof.
  intros H. induction n as [|n IH].
  - apply Memory_extends_kept, Memory_kept_ret.
  - rewrite for_loopF_S. apply Memory_extends_bind.
    + apply IH. intros i Hi. apply H. lia.
    + intros _. apply H. lia.
Qed.

(** RETURN grows the memory and does not write to it. *)
Lemma Memory_extends_RETURN : Memory_extends (fun _ => False) case_RETURN.
Proof.
  unfold case_RETURN.
  repeat first
    [ apply Memory_extends_grow
    | apply Memory_extends_kept; solve [auto with mem]
    | match goal with
      | |- Memory_extends _ (_ ≫= _) => apply Memory_extends_bind; [|intros ?]
      end ].
Qed.

(** MSTORE grows the memory and writes the 32 bytes from its offset on. *)
Lemma Memory_extended_MSTORE (f : EVMFrame) :
  Memory_extended (store_window Opcode.MSTORE f)
    (Memory f) (Memory (case_MSTORE f).2).
Proof.
  unfold case_MSTORE.
  destruct (decide (Sp f < 2)%nat) as [Hfew|Hhas].
  - erewrite bind_Err by (apply require_args_Err; exact Hfew).
    apply Memory_extended_refl.
  - erewrite bind_Ok by (apply require_args_Ok; lia).
    rewrite pop_pop by lia. cbv zeta.
    set (g := set_Sp (Sp f - 2) f).
    change (Memory f) with (Memory g) at 1.
    generalize g. clear g.
    change (Memory_extends (store_window Opcode.MSTORE f)
              (Memory_grow
                 (size_t (size_t (low64 (Stack f !!! (Sp f - 1)%nat)) + 32));;
               for_loopF 32
                 (fun i =>
                    Memory_store
                      (size_t (size_t (low64 (Stack f !!! (Sp f - 1)%nat)) + Z.of_nat i))
                      (Bytes (Stack f !!! (Sp f - 2)%nat) !!! (31 - i)%nat));;
               mret Break)).
    apply Memory_extends_bind; [apply Memory_extends_grow | intros _].
    apply Memory_extends_bind; [|intros _; apply Memory_extends_kept, Memory_kept_ret].
    apply Memory_extends_for_loopF. intros i Hi.
    apply Memory_extends_store. split; [reflexivity|].
    exists i. split; [exact Hi|].
    apply Z2Nat.id. unfold size_t at 1. apply Z.mod_pos_bound. reflexivity.
Qed.

Lemma Memory_extended_dispatch (Op : Z) (f : EVMFrame) :
  Memory_extended (store_window Op f) (Memory f) (Memory (dispatch Op f).2).
Proof.
  destruct (Z.eq_dec Op Opcode.MSTORE) as [->|HM].
  - change (dispatch Opcode.MSTORE) with case_MSTORE. apply Memory_extended_MSTORE.
  - destruct (Z.eq_dec Op Opcode.RETURN) as [->|HR].
    + change (dispatch Opcode.RETURN) with case_RETURN.
      eapply Memory_extended_mono; [|apply Memory_extends_RETURN].
      intros i [].
    + rewrite (Memory_kept_dispatch Op HM HR f). apply Memory_extended_refl.
Qed.

(** C8. The memory of a frame is empty when the frame is allocated. Whatever
    the opcode, the frame it finds and its outcome, the memory it leaves is
    the memory it found, extended with [k] zero bytes for some [k] and
    changed at no index but those MSTORE writes, the 32 indices from its
    offset operand on: the memory never gets shorter, the bytes it had stay
    where no store hits them, and every byte that a growth adds is zero
    unless the MSTORE that grew the memory stores to it. An opcode other than
    MSTORE and RETURN leaves the memory as it is. The growth step itself,
    whether [resize] throws or not, leaves the memory it found followed by
    zero bytes, as many as were missing when it does not throw. *)
Theorem Memory_never_shrinks :
  (forall FuncInst ctx,
     Memory <$> getCurFrame (allocFrame FuncInst ctx) = Some []) /\
  (forall Op f,
     exists k : nat,
       length (Memory (dispatch Op f).2) = (length (Memory f) + k)%nat /\
       forall i : nat,
         (i < length (Memory f) + k)%nat ->
         ~ store_window Op f i ->
         Memory (dispatch Op f).2 !!! i
         = if decide (i < length (Memory f))%nat then Memory f !!! i else 0) /\
  (forall Op f, (length (Memory f) <= length (Memory (dispatch Op f).2))%nat) /\
  (forall Op f,
     Op <> Opcode.MSTORE -> Op <> Opcode.RETURN ->
     Memory (dispatch Op f).2 = Memory f) /\
  (forall Need f,
     exists k : nat,
       Memory (Memory_grow Need f).2 = Memory f ++ replicate k 0 /\
       ((Memory_grow Need f).1 = Ok tt ->
        k = (Z.to_nat Need - length (Memory f))%nat)).
Proof.
  split_and!.
  - intros FuncInst ctx. reflexivity.
  - intros Op f. destruct (Memory_extended_dispatch Op f) as (k & L & H).
    exists k. split; [exact L|]. intros i Hi HW.
    rewrite H by (try lia; exact HW). apply zero_extension_lookup. exact Hi.
  - intros Op f. destruct (Memory_extended_dispatch Op f) as (k & L & _). lia.
  - intros Op f HM HR. apply Memory_kept_dispatch; assumption.
  - intros Need f. destruct (Memory_grow_cases Need f) as [E|(_ & _ & E)]; rewrite E.
    + exists (Z.to_nat Need - length (Memory f))%nat. split; reflexivity.
    + exists 0%nat. split; [|discriminate].
      cbn [snd replicate]. rewrite app_nil_r. reflexivity.
Qed.

(** ** The intermediate array of the MUL case *)

(** C10. For all 256-bit words [A] and [B] the loops that fill [Temp] end
    without a fault: the carry loop neither leaves the 64 entries of [Temp]
    nor uses up its fuel. Every index it writes is at most 63, and [Temp]
    holds the whole product, which is below [2^512]. *)
Theorem MUL_Temp_in_bounds (A B : UInt256) :
  wf_word A -> wf_word B ->
  exists (Temp : list Z) (log : list nat),
    MUL_Temp A B = Ok (Temp, log) /\
    Forall (fun idx => (idx <= 63)%nat) log /\
    length Temp = 64%nat /\
    le_value Temp = word_value A * word_value B /\
    word_value A * word_value B < 2 ^ 512.
Proof.
  intros HA HB.
  destruct (MUL_Temp_spec A B HA HB) as ([Temp log] & Hrun & [[Hl Hb] Hlog] & Hval).
  exists Temp, log. cbn [fst snd] in *. split_and!.
  - exact Hrun.
  - exact Hlog.
  - exact Hl.
  - exact Hval.
  - rewrite <- Hval. pose proof (le_value_bounds Temp Hb) as H.
    rewrite Hl in H. change (256 ^ Z.of_nat Temp_size) with (2 ^ 512) in H. lia.
Qed.

(** ** Runs of the interpreter *)

(** C4. The code PUSH1 0x05, PUSH1 0x03, ADD, PUSH1 0x00, MSTORE, PUSH1 0x20,
    PUSH1 0x00, RETURN, run in a fresh frame, leaves through the [return] of
    the RETURN case; the return data are 32 bytes, 31 zero bytes followed by
    0x08, of big-endian value 8, and no frame is left. *)
Theorem add_and_return_run :
  exit_of (interpret (allocFrame (Some add_and_return_code) empty_context))
  = Some Returned /\
  ReturnData (context_of (interpret (allocFrame (Some add_and_return_code) empty_context)))
  = replicate 31 0 ++ [8] /\
  length (ReturnData (context_of (interpret (allocFrame (Some add_and_return_code) empty_context))))
  = 32%nat /\
  be_value (ReturnData (context_of (interpret (allocFrame (Some add_and_return_code) empty_context))))
  = 8 /\
  Frames (context_of (interpret (allocFrame (Some add_and_return_code) empty_context)))
  = [].
Proof.
  assert (interpret (allocFrame (Some add_and_return_code) empty_context)
          = Exited Returned (mkContext [] (replicate 31 0 ++ [8]))) as ->
    by (vm_compute; reflexivity).
  cbn [exit_of context_of ReturnData Frames]. split_and!; reflexivity.
Qed.

(** C9. No case checks the capacity of the stack before it pushes. On a
    stack that holds [MAX_STACK] words, [push] fails its assertion, and so
    do a PUSH with its operand bytes present and a DUP: the fault is the
    violated assertion, none of the thrown error codes. The code of 1025
    PUSH1 instructions reaches it with 1024 words on the stack. *)
Theorem push_on_full_stack :
  (forall V f, (MAX_STACK <= Sp f)%nat -> push V f = (Err AssertionViolated, f)) /\
  (forall Op f, 0x60 <= Op <= 0x7F ->
     (Pc f + Z.to_nat (Op - 0x5F) <= CodeEnd f)%nat -> Sp f = MAX_STACK ->
     (dispatch Op f).1 = Err AssertionViolated) /\
  (forall Op f, 0x80 <= Op <= 0x8F -> Sp f = MAX_STACK ->
     dispatch Op f = (Err AssertionViolated, f)) /\
  fault_of (interpret (allocFrame (Some overflow_code) empty_context))
  = Some AssertionViolated /\
  Sp <$> getCurFrame (context_of (interpret (allocFrame (Some overflow_code) empty_context)))
  = Some MAX_STACK.
Proof.
  split_and!.
  - intros V f H. apply push_Err. exact H.
  - intros Op f HOp Hfit HSp.
    rewrite case_PUSH_full by (try assumption; lia). reflexivity.
  - intros Op f HOp HSp. rewrite dispatch_DUP by exact HOp.
    unfold case_DUP. rewrite uint8_t_id by lia.
    erewrite bind_Ok by reflexivity.
    destruct (decide (Sp f < Z.to_nat (Op - 127))%nat) as [Hc|_];
      [rewrite HSp in Hc; unfold MAX_STACK in Hc; lia|].
    erewrite bind_Ok by (apply peek_Ok; rewrite HSp; unfold MAX_STACK; lia).
    erewrite bind_Ok by reflexivity.
    erewrite bind_Err by (apply push_Err; lia). reflexivity.
  - vm_compute. reflexivity.
  - vm_compute. reflexivity.
Qed.

(** C5, at the offset [2^64 - 1]. The words on the stack are the offset
    [0xFFFFFFFFFFFFFFFF] and the value 0x2A. [NeedSize] wraps around to 31,
    the memory grows to 31 bytes only, and the first store, at index
    [2^64 - 1], lies outside of it. The same happens when the code
    PUSH1 0x2A, PUSH8 0xFFFFFFFFFFFFFFFF, MSTORE is run. *)
Theorem MSTORE_offset_wraps :
  low64 (word_of_Z (2 ^ 64 - 1)) = 2 ^ 64 - 1 /\
  size_t (size_t (low64 (word_of_Z (2 ^ 64 - 1))) + 32) = 31 /\
  (dispatch Opcode.MSTORE
     (frame_of_stack wrapping_store_code 12 [word_of_Z (2 ^ 64 - 1); word_of_Z 0x2A])).1
  = Err OutOfBounds /\
  Memory (dispatch Opcode.MSTORE
            (frame_of_stack wrapping_store_code 12
               [word_of_Z (2 ^ 64 - 1); word_of_Z 0x2A])).2
  = replicate 31 0 /\
  fault_of (interpret (allocFrame (Some wrapping_store_code) empty_context))
  = Some OutOfBounds.
Proof.
  split_and!; vm_compute; reflexivity.
Qed.

(** ** The theorems at concrete inputs *)

(** Decides a closed proposition by evaluation. *)
Ltac by_evaluation :=
  match goal with
  | |- ?P => apply (bool_decide_unpack P); vm_compute; exact I
  end.

Lemma wf_word_of_Z_examples :
  wf_word (word_of_Z 5) /\ wf_word (word_of_Z 3) /\
  wf_word (word_of_Z (2 ^ 256 - 1)) /\ wf_word (word_of_Z 7) /\
  wf_word (word_of_Z 6).
Proof. split_and!; by_evaluation. Defined.

Lemma MUL_case_spec_witness :
  wf_frame mul_frame /\ live_stack mul_frame = [word_of_Z 7; word_of_Z 6] /\
  exists C, (dispatch Opcode.MUL mul_frame).1 = Ok Break /\
            live_stack (dispatch Opcode.MUL mul_frame).2 = [C] /\
            word_value C = 42.
Proof.
  assert (wf_frame mul_frame) as Hwf
    by by_evaluation.
  assert (live_stack mul_frame = [word_of_Z 7; word_of_Z 6]) as Hlive
    by (vm_compute; reflexivity).
  split; [exact Hwf|]. split; [exact Hlive|].
  destruct (MUL_case_spec mul_frame (word_of_Z 6) (word_of_Z 7) [] Hwf Hlive)
    as (C & Temp & f' & Hrun & Hstack & _ & _ & _ & _ & Hval & _).
  exists C. rewrite Hrun. cbn [fst snd]. split; [reflexivity|].
  split; [exact Hstack|]. rewrite Hval. vm_compute. reflexivity.
Defined.

Lemma addUInt256_spec_witness :
  wf_word (word_of_Z (2 ^ 256 - 1)) /\ wf_word (word_of_Z 5) /\
  word_value (addUInt256 (word_of_Z (2 ^ 256 - 1)) (word_of_Z 5))
  = (word_value (word_of_Z (2 ^ 256 - 1)) + word_value (word_of_Z 5)) mod 2 ^ 256 /\
  wf_word (addUInt256 (word_of_Z (2 ^ 256 - 1)) (word_of_Z 5)) /\
  addUInt256 (word_of_Z (2 ^ 256 - 1)) (word_of_Z 5)
  = addUInt256 (word_of_Z 5) (word_of_Z (2 ^ 256 - 1)).
Proof.
  destruct wf_word_of_Z_examples as (H5 & _ & Hmax & _).
  split; [exact Hmax|]. split; [exact H5|].
  apply (addUInt256_spec (word_of_Z (2 ^ 256 - 1)) (word_of_Z 5) Hmax H5).
Defined.

Lemma SUB_add_inverse_witness :
  wf_word (word_of_Z 3) /\ wf_word (word_of_Z (2 ^ 256 - 1)) /\
  SUB_Res (addUInt256 (word_of_Z 3) (word_of_Z (2 ^ 256 - 1))) (word_of_Z (2 ^ 256 - 1))
  = word_of_Z 3 /\
  word_value (SUB_Res (word_of_Z 3) (word_of_Z (2 ^ 256 - 1)))
  = (word_value (word_of_Z 3) - word_value (word_of_Z (2 ^ 256 - 1))) mod 2 ^ 256.
Proof.
  destruct wf_word_of_Z_examples as (_ & H3 & Hmax & _).
  split; [exact H3|]. split; [exact Hmax|].
  apply (SUB_add_inverse (word_of_Z 3) (word_of_Z (2 ^ 256 - 1)) H3 Hmax).
Defined.

Lemma PUSH_case_spec_witness :
  0x60 <= 0x61 <= 0x7F /\
  dispatch 0x61 push2_frame
  = (Ok Break,
     mkEVMFrame (Code push2_frame) 3
       (<[0%nat := mkUInt256 ([0x34; 0x12] ++ replicate 30 0)]> (Stack push2_frame))
       1 [] 0) /\
  word_value (mkUInt256 ([0x34; 0x12] ++ replicate 30 0)) = be_value [0x12; 0x34].
Proof.
  assert (0x60 <= 0x61 <= 0x7F) as HOp by lia.
  split; [exact HOp|].
  destruct (PUSH_case_spec 0x61 push2_frame HOp) as (_ & _ & H).
  destruct H as (_ & Hval & Hpush & _); [vm_compute; lia|].
  split; [|exact Hval]. apply Hpush. vm_compute. lia.
Defined.

Lemma operands_checked_first_witness :
  is_byte Opcode.ADD /\ (Sp empty_frame < operands_required Opcode.ADD)%nat /\
  dispatch Opcode.ADD empty_frame = (Err (Thrown UnexpectedNumArgs), empty_frame) /\
  live_stack (dispatch Opcode.ADD empty_frame).2 = [].
Proof.
  assert (is_byte Opcode.ADD) as HOp by (unfold is_byte, Opcode.ADD; lia).
  assert (Sp empty_frame < operands_required Opcode.ADD)%nat as Hlt
    by (vm_compute; lia).
  split; [exact HOp|]. split; [exact Hlt|].
  destruct (operands_checked_first Opcode.ADD empty_frame HOp Hlt) as [Hd Hadd].
  split; [exact Hd|]. apply Hadd; reflexivity.
Defined.

Lemma MUL_Temp_in_bounds_witness :
  wf_word (word_of_Z (2 ^ 256 - 1)) /\
  exists (Temp : list Z) (log : list nat),
    MUL_Temp (word_of_Z (2 ^ 256 - 1)) (word_of_Z (2 ^ 256 - 1)) = Ok (Temp, log) /\
    Forall (fun idx => (idx <= 63)%nat) log /\
    length Temp = 64%nat /\
    le_value Temp
    = word_value (word_of_Z (2 ^ 256 - 1)) * word_value (word_of_Z (2 ^ 256 - 1)) /\
    word_value (word_of_Z (2 ^ 256 - 1)) * word_value (word_of_Z (2 ^ 256 - 1))
    < 2 ^ 512.
Proof.
  destruct wf_word_of_Z_examples as (_ & _ & Hmax & _).
  split; [exact Hmax|].
  apply (MUL_Temp_in_bounds (word_of_Z (2 ^ 256 - 1)) (word_of_Z (2 ^ 256 - 1)) Hmax Hmax).
Defined.

(** C3, on a full stack. The frame holds [MAX_STACK] words and the operand
    byte of its PUSH1 is there, so that the word is to be pushed. The branch
    calls [push] without a check of the capacity: the assertion
    [Sp < MAX_STACK] of [push] is violated, [Pc] has moved behind the
    operand, the stack is as it was and no word is pushed. *)
Theorem PUSH_on_full_stack_not_pushed :
  (Pc full_frame + 1 <= CodeEnd full_frame)%nat /\
  dispatch Opcode.PUSH1 full_frame = (Err AssertionViolated, set_Pc 2 full_frame) /\
  live_stack (dispatch Opcode.PUSH1 full_frame).2 = live_stack full_frame /\
  ~ (exists f', dispatch Opcode.PUSH1 full_frame = (Ok Break, f')).
Proof.
  assert (dispatch Opcode.PUSH1 full_frame = (Err AssertionViolated, set_Pc 2 full_frame))
    as Hd by (vm_compute; reflexivity).
  split_and!.
  - vm_compute. lia.
  - exact Hd.
  - rewrite Hd. reflexivity.
  - intros [f' H]. rewrite Hd in H. discriminate.
Qed.

(** ** Offsets and sizes: the low 64 bits of a word *)

Lemma byte_bits_above (b n : Z) : is_byte b -> 8 <= n -> Z.testbit b n = false.
Proof.
  intros [H0 H1] Hn. destruct (decide (b = 0)) as [->|Hne]; [apply Z.bits_0|].
  apply Z.bits_above_log2; [lia|].
  apply Z.log2_lt_pow2; [lia|].
  assert (2 ^ 8 <= 2 ^ n) by (apply Z.pow_le_mono_r; lia). lia.
Qed.

Lemma lor_shiftl_byte (x b : Z) :
  0 <= x -> is_byte b -> Z.lor (Z.shiftl x 8) b = x * 256 + b.
Proof.
  intros Hx Hb. rewrite Z.shiftl_mul_pow2 by lia. change (2 ^ 8) with 256.
  assert (Z.land (x * 256) b = 0) as Hland.
  { apply Z.bits_inj'. intros n Hn. rewrite Z.land_spec, Z.bits_0.
    destruct (Z.lt_ge_cases n 8) as [Hlt|Hge].
    - change 256 with (2 ^ 8). rewrite Z.mul_pow2_bits_low by lia. reflexivity.
    - rewrite (byte_bits_above b n Hb Hge). apply andb_false_r. }
  rewrite <- Z.lxor_lor by exact Hland.
  symmetry. apply Z.add_nocarry_lxor. exact Hland.
Qed.

Lemma low64_fold (l : list Z) (k : nat) : forall acc : Z,
  Forall is_byte l -> (k <= length l)%nat -> 0 <= acc ->
  acc * 256 ^ Z.of_nat k + prefix_value k l < 2 ^ 64 ->
  fold_left (fun Offset i => uint64_t (Z.lor (Z.shiftl Offset 8) (l !!! i)))
    (rev (seq 0 k)) acc
  = acc * 256 ^ Z.of_nat k + prefix_value k l.
Proof.
  induction k as [|k IH]; intros acc Hl Hk Hacc Hfit.
  - simpl. lia.
  - rewrite seq_S, rev_app_distr. cbn [rev app fold_left Nat.add].
    pose proof (is_byte_lookup l k Hl ltac:(lia)) as Hb.
    pose proof (prefix_value_bounds k l Hl ltac:(lia)) as Hp.
    pose proof (pow256_pos k) as HX.
    rewrite (prefix_value_S k) in Hfit. rewrite pow256_S in Hfit.
    rewrite lor_shiftl_byte by (unfold is_byte; lia).
    assert (acc * 256 + l !!! k <= (acc * 256 + l !!! k) * 256 ^ Z.of_nat k) as Hle by nia.
    unfold uint64_t. rewrite Z.mod_small by nia.
    rewrite IH by (try assumption; try lia; nia).
    rewrite (prefix_value_S k), pow256_S. ring.
Qed.

Lemma prefix_value_take (n : nat) (l : list Z) :
  (n <= length l)%nat -> le_value (take n l) = prefix_value n l.
Proof.
  intros Hn. rewrite <- prefix_value_le_value, length_take.
  replace (n `min` length l)%nat with n by lia.
  apply prefix_value_ext. intros m Hm. apply lookup_total_take_lt. exact Hm.
Qed.

Lemma low64_prefix (W : UInt256) :
  wf_word W -> low64 W = prefix_value 8 (Bytes W).
Proof.
  intros [Hl Hb].
  pose proof (prefix_value_bounds 8 (Bytes W) Hb ltac:(lia)) as H8.
  change (256 ^ Z.of_nat 8) with (2 ^ 64) in H8.
  unfold low64. rewrite low64_fold; try assumption; lia.
Qed.

Lemma low64_range (W : UInt256) : wf_word W -> 0 <= low64 W < 2 ^ 64.
Proof.
  intros HW. rewrite (low64_prefix W HW). destruct HW as [Hl Hb].
  pose proof (prefix_value_bounds 8 (Bytes W) Hb ltac:(lia)) as H8.
  change (256 ^ Z.of_nat 8) with (2 ^ 64) in H8. exact H8.
Qed.

(** X1. The offset and the size of MSTORE and RETURN are read from bytes
    0..7 of the word: the value is that of the low eight bytes, that is the
    word modulo [2^64], and bytes 8..31 play no part. *)
Theorem low64_spec (W : UInt256) :
  wf_word W ->
  low64 W = le_value (take 8 (Bytes W)) /\
  low64 W = word_value W mod 2 ^ 64 /\
  0 <= low64 W < 2 ^ 64.
Proof.
  intros HW. pose proof (low64_prefix W HW) as Hlow.
  pose proof (low64_range W HW) as Hrange. destruct HW as [Hl Hb].
  split_and!.
  - rewrite Hlow. symmetry. apply prefix_value_take. lia.
  - rewrite Hlow, (word_value_prefix W (conj Hl Hb)).
    change (2 ^ 64) with (256 ^ Z.of_nat 8).
    symmetry. apply prefix_value_mod; [exact Hb | lia | lia].
  - lia.
  - lia.
Qed.

Lemma low64_spec_witness :
  wf_word (word_of_Z (2 ^ 70 + 5)) /\
  low64 (word_of_Z (2 ^ 70 + 5)) = 5.
Proof.
  assert (wf_word (word_of_Z (2 ^ 70 + 5))) as H by by_evaluation.
  split; [exact H|].
  destruct (low64_spec (word_of_Z (2 ^ 70 + 5)) H) as (_ & Hmod & _).
  rewrite Hmod. vm_compute. reflexivity.
Defined.

(** ** The MSTORE case *)

Lemma size_t_id (z : Z) : 0 <= z < 2 ^ 64 -> size_t z = z.
Proof. intros H. unfold size_t. apply Z.mod_small. exact H. Qed.

Lemma set_Memory_twice (m1 m2 : list Z) (f : EVMFrame) :
  set_Memory m2 (set_Memory m1 f) = set_Memory m2 f.
Proof. reflexivity. Qed.

(** The 32 stores of MSTORE, when the memory holds [Off + 32] bytes. *)
Lemma MSTORE_stores (V : UInt256) (Off : nat) (M : list Z) (g : EVMFrame) (n : nat) :
  (n <= 32)%nat -> (Off + 32 <= length M)%nat -> Z.of_nat Off + 32 < 2 ^ 64 ->
  for_loopF n (fun i => Memory_store (size_t (Z.of_nat Off + Z.of_nat i))
                          (Bytes V !!! (31 - i)%nat)) (set_Memory M g)
  = (Ok tt, set_Memory
              (for_loop n (fun M i => <[(Off + i)%nat := Bytes V !!! (31 - i)%nat]> M) M)
              g).
Proof.
  intros Hn HM Hoff. induction n as [|n IH]; [reflexivity|].
  rewrite for_loopF_S, for_loop_S. erewrite bind_Ok by (apply IH; lia).
  set (Mn := for_loop n _ M).
  assert (length Mn = length M) as HMn.
  { subst Mn. apply (for_loop_invariant (fun _ M' => length M' = length M)).
    - reflexivity.
    - intros i s _ Hs. rewrite length_insert. exact Hs. }
  unfold Memory_store. erewrite bind_Ok by reflexivity.
  rewrite size_t_id by lia. unfold Memory_size. cbn [Memory set_Memory].
  destruct (decide (Z.of_nat Off + Z.of_nat n < Z.of_nat (length Mn))) as [_|Hc];
    [|lia].
  unfold modify_frame. cbn [Memory set_Memory].
  replace (Z.to_nat (Z.of_nat Off + Z.of_nat n)) with (Off + n)%nat by lia.
  reflexivity.
Qed.

(** What the 32 stores leave in the memory. *)
Lemma MSTORE_stores_result (V : UInt256) (Off : nat) (M : list Z) :
  length (Bytes V) = 32%nat -> (Off + 32 <= length M)%nat ->
  for_loop 32 (fun M i => <[(Off + i)%nat := Bytes V !!! (31 - i)%nat]> M) M
  = take Off M ++ rev (Bytes V) ++ drop (Off + 32) M.
Proof.
  intros HV HM.
  set (Inv := fun (k : nat) (M' : list Z) =>
    length M' = length M /\
    forall m, (m < length M)%nat ->
      M' !!! m = if decide (Off <= m < Off + k)%nat
                 then Bytes V !!! (31 - (m - Off))%nat else M !!! m).
  assert (Inv 32%nat
            (for_loop 32 (fun M i => <[(Off + i)%nat := Bytes V !!! (31 - i)%nat]> M) M))
    as [Hlen Hbytes].
  { apply (for_loop_invariant Inv).
    - split; [reflexivity|]. intros m Hm.
      destruct (decide (Off <= m < Off + 0)%nat); [lia | reflexivity].
    - intros i M' Hi [HMl HMb]. split; [rewrite length_insert; exact HMl|].
      intros m Hm. destruct (decide (m = Off + i)%nat) as [->|Hne].
      + rewrite list_lookup_total_insert_eq by lia.
        destruct (decide (Off <= Off + i < Off + S i)%nat); [|lia].
        f_equal. lia.
      + rewrite list_lookup_total_insert_ne by lia. rewrite HMb by lia.
        destruct (decide (Off <= m < Off + i)%nat),
          (decide (Off <= m < Off + S i)%nat); try lia; reflexivity. }
  apply (list_eq_total _ _ (length M)); [exact Hlen | |].
  - rewrite !length_app, length_take, length_rev, length_drop. lia.
  - intros m Hm. rewrite Hbytes by exact Hm.
    destruct (decide (Off <= m < Off + 32)%nat) as [Hin|Hout].
    + rewrite lookup_total_app_r by (rewrite length_take; lia).
      rewrite length_take. replace (Off `min` length M)%nat with Off by lia.
      rewrite lookup_total_app_l by (rewrite length_rev; lia).
      rewrite rev_lookup_total by lia. f_equal. lia.
    + destruct (decide (m < Off)%nat) as [Hlt|Hge].
      * rewrite lookup_total_app_l by (rewrite length_take; lia).
        apply eq_sym, lookup_total_take_lt. exact Hlt.
      * rewrite lookup_total_app_r by (rewrite length_take; lia).
        rewrite length_take. replace (Off `min` length M)%nat with Off by lia.
        rewrite lookup_total_app_r by (rewrite length_rev; lia).
        rewrite length_rev, lookup_total_drop. f_equal. lia.
Qed.

(** Two operands on a well-formed frame. *)
Lemma two_operands (f : EVMFrame) (X Y : UInt256) (rest : list UInt256) :
  wf_frame f -> live_stack f = X :: Y :: rest ->
  (2 <= Sp f)%nat /\ Stack f !!! (Sp f - 1)%nat = X /\
  Stack f !!! (Sp f - 2)%nat = Y /\ live_stack (set_Sp (Sp f - 2) f) = rest /\
  wf_word X /\ wf_word Y.
Proof.
  intros (Hlen & HSp & Hwords & _ & _) Hlive.
  assert (2 <= Sp f)%nat as H2.
  { rewrite <- (live_stack_length f) by lia. rewrite Hlive. simpl. lia. }
  rewrite (live_stack_pop f) in Hlive by lia.
  rewrite (live_stack_pop (set_Sp (Sp f - 1) f)) in Hlive by (simpl; lia).
  simpl in Hlive. replace (Sp f - 1 - 1)%nat with (Sp f - 2)%nat in Hlive by lia.
  injection Hlive as HX HY Hrest. split_and!; try assumption.
  - subst X. apply (Forall_lookup_total_1 wf_word _ _ Hwords). lia.
  - subst Y. apply (Forall_lookup_total_1 wf_word _ _ Hwords). lia.
Qed.

(** The run of MSTORE when [Off + 32] does not wrap around and the memory
    is long enough or can be made so. *)
Lemma case_MSTORE_Ok (f : EVMFrame) (OffsetVal Value : UInt256)
    (rest : list UInt256) :
  wf_frame f -> live_stack f = OffsetVal :: Value :: rest ->
  low64 OffsetVal + 32 < 2 ^ 64 ->
  low64 OffsetVal + 32 <= Memory_size f \/ low64 OffsetVal + 32 <= vector_max_size ->
  dispatch Opcode.MSTORE f
  = (Ok Break,
     set_Memory
       (take (Z.to_nat (low64 OffsetVal))
          (Memory f ++ replicate (Z.to_nat (low64 OffsetVal) + 32 - length (Memory f)) 0)
        ++ rev (Bytes Value)
        ++ drop (Z.to_nat (low64 OffsetVal) + 32)
             (Memory f ++ replicate (Z.to_nat (low64 OffsetVal) + 32 - length (Memory f)) 0))
       (set_Sp (Sp f - 2) f)).
Proof.
  intros Hwf Hlive Hfit Hroom.
  set (Off := Z.to_nat (low64 OffsetVal)).
  set (M := Memory f ++ replicate (Off + 32 - length (Memory f)) 0).
  destruct (two_operands f OffsetVal Value rest Hwf Hlive)
    as (H2 & HO & HV & Hrest & HwO & HwV).
  pose proof (low64_range OffsetVal HwO) as Hrange.
  assert (Z.of_nat Off = low64 OffsetVal) as HOff by (subst Off; lia).
  assert (length M = (length (Memory f) `max` (Off + 32))%nat) as HMlen.
  { subst M. rewrite length_app, length_replicate. lia. }
  change (dispatch Opcode.MSTORE) with case_MSTORE. unfold case_MSTORE.
  erewrite bind_Ok by (apply require_args_Ok; lia).
  rewrite pop_pop by lia. rewrite HO, HV. cbv zeta.
  rewrite (size_t_id (low64 OffsetVal)) by lia.
  rewrite (size_t_id (low64 OffsetVal + 32)) by lia.
  erewrite bind_Ok by (apply Memory_grow_Ok; exact Hroom).
  cbn [Memory set_Sp].
  replace (Z.to_nat (low64 OffsetVal + 32)) with (Off + 32)%nat by lia.
  fold M. rewrite <- HOff.
  erewrite bind_Ok by (apply MSTORE_stores; lia).
  rewrite MSTORE_stores_result by (destruct HwV; lia).
  reflexivity.
Qed.

(** The run of MSTORE when the memory has to grow beyond the largest size
    of a vector: [resize] throws after the two operands have been popped. *)
Lemma case_MSTORE_LengthError (f : EVMFrame) (OffsetVal Value : UInt256)
    (rest : list UInt256) :
  wf_frame f -> live_stack f = OffsetVal :: Value :: rest ->
  low64 OffsetVal + 32 < 2 ^ 64 ->
  Memory_size f < low64 OffsetVal + 32 -> vector_max_size < low64 OffsetVal + 32 ->
  dispatch Opcode.MSTORE f = (Err LengthError, set_Sp (Sp f - 2) f).
Proof.
  intros Hwf Hlive Hfit Hshort Hbig.
  destruct (two_operands f OffsetVal Value rest Hwf Hlive)
    as (H2 & HO & HV & Hrest & HwO & HwV).
  pose proof (low64_range OffsetVal HwO) as Hrange.
  change (dispatch Opcode.MSTORE) with case_MSTORE. unfold case_MSTORE.
  erewrite bind_Ok by (apply require_args_Ok; lia).
  rewrite pop_pop by lia. rewrite HO, HV. cbv zeta.
  rewrite (size_t_id (low64 OffsetVal)) by lia.
  rewrite (size_t_id (low64 OffsetVal + 32)) by lia.
  erewrite bind_Err by (apply Memory_grow_Err; [exact Hshort | exact Hbig]).
  reflexivity.
Qed.

(** X2. MSTORE with the offset on top of the stack and the value below it,
    for an offset whose low 64 bits [Off] satisfy [Off + 32 < 2^64]. Where
    the memory holds [Off + 32] bytes already, or [Off + 32] is a size that
    a vector can have (at most [vector_max_size]): both operands are
    popped, the memory is extended with zero bytes to [Off + 32] bytes when
    it is shorter, and the 32 bytes of the value are written at
    [Off .. Off+31] in big-endian order; the other bytes of the memory stay
    as they were. Where the memory is shorter than [Off + 32] and
    [Off + 32] exceeds [vector_max_size]: [resize] throws
    [std::length_error], both operands have been popped and the memory is
    as it was. *)
Theorem MSTORE_case_spec (f : EVMFrame) (OffsetVal Value : UInt256)
    (rest : list UInt256) :
  wf_frame f -> live_stack f = OffsetVal :: Value :: rest ->
  low64 OffsetVal + 32 < 2 ^ 64 ->
  let Off := Z.to_nat (low64 OffsetVal) in
  let M := Memory f ++ replicate (Off + 32 - length (Memory f)) 0 in
  (low64 OffsetVal + 32 <= Memory_size f \/ low64 OffsetVal + 32 <= vector_max_size ->
   exists f',
     dispatch Opcode.MSTORE f = (Ok Break, f') /\
     live_stack f' = rest /\
     Memory f' = take Off M ++ rev (Bytes Value) ++ drop (Off + 32) M /\
     length (Memory f') = (length (Memory f) `max` (Off + 32))%nat /\
     be_value (take 32 (drop Off (Memory f'))) = word_value Value /\
     Pc f' = Pc f /\ Code f' = Code f) /\
  (Memory_size f < low64 OffsetVal + 32 -> vector_max_size < low64 OffsetVal + 32 ->
   exists f',
     dispatch Opcode.MSTORE f = (Err LengthError, f') /\
     live_stack f' = rest /\ Memory f' = Memory f /\
     Pc f' = Pc f /\ Code f' = Code f).
Proof.
  intros Hwf Hlive Hfit Off M.
  destruct (two_operands f OffsetVal Value rest Hwf Hlive)
    as (H2 & HO & HV & Hrest & HwO & HwV).
  pose proof (low64_range OffsetVal HwO) as Hrange.
  assert (Z.of_nat Off = low64 OffsetVal) as HOff by (subst Off; lia).
  assert (length M = (length (Memory f) `max` (Off + 32))%nat) as HMlen.
  { subst M. rewrite length_app, length_replicate. lia. }
  set (Mres := take Off M ++ rev (Bytes Value) ++ drop (Off + 32) M).
  assert (length Mres = length M) as HMres.
  { subst Mres. destruct HwV as [HVl _].
    rewrite !length_app, length_take, length_rev, length_drop. lia. }
  split.
  - intros Hroom. exists (set_Memory Mres (set_Sp (Sp f - 2) f)). split_and!.
    + apply (case_MSTORE_Ok f OffsetVal Value rest); assumption.
    + exact Hrest.
    + reflexivity.
    + cbn [Memory set_Memory]. rewrite HMres. exact HMlen.
    + cbn [Memory set_Memory]. subst Mres.
      rewrite drop_app_length' by (rewrite length_take; lia).
      rewrite take_app_length' by (rewrite length_rev; destruct HwV; lia).
      unfold be_value, word_value. rewrite rev_involutive. reflexivity.
    + reflexivity.
    + reflexivity.
  - intros Hshort Hbig. exists (set_Sp (Sp f - 2) f). split_and!.
    + apply (case_MSTORE_LengthError f OffsetVal Value rest); assumption.
    + exact Hrest.
    + reflexivity.
    + reflexivity.
    + reflexivity.
Qed.

Lemma MSTORE_case_spec_witness :
  (wf_frame (frame_of_stack [0x52] 1 [word_of_Z 2; word_of_Z 0x0102]) /\
   low64 (word_of_Z 2) + 32 < 2 ^ 64 /\
   exists f',
     dispatch Opcode.MSTORE (frame_of_stack [0x52] 1 [word_of_Z 2; word_of_Z 0x0102])
     = (Ok Break, f') /\
     live_stack f' = [] /\
     Memory f' = [0; 0] ++ replicate 30 0 ++ [1; 2]) /\
  (wf_frame (frame_of_stack [0x52] 1 [word_of_Z (2 ^ 63); word_of_Z 0x0102]) /\
   low64 (word_of_Z (2 ^ 63)) + 32 < 2 ^ 64 /\
   exists f',
     dispatch Opcode.MSTORE
       (frame_of_stack [0x52] 1 [word_of_Z (2 ^ 63); word_of_Z 0x0102])
     = (Err LengthError, f') /\
     live_stack f' = [] /\ Memory f' = []).
Proof.
  split.
  - assert (wf_frame (frame_of_stack [0x52] 1 [word_of_Z 2; word_of_Z 0x0102])) as Hwf
      by by_evaluation.
    assert (low64 (word_of_Z 2) + 32 < 2 ^ 64) as Hfit by (vm_compute; reflexivity).
    split; [exact Hwf|]. split; [exact Hfit|].
    destruct (MSTORE_case_spec _ (word_of_Z 2) (word_of_Z 0x0102) [] Hwf
                ltac:(vm_compute; reflexivity) Hfit) as [Hok _].
    destruct (Hok ltac:(right; by_evaluation)) as (f' & Hrun & Hstack & Hmem & _).
    exists f'. split; [exact Hrun|]. split; [exact Hstack|].
    rewrite Hmem. vm_compute. reflexivity.
  - assert (wf_frame (frame_of_stack [0x52] 1 [word_of_Z (2 ^ 63); word_of_Z 0x0102]))
      as Hwf by by_evaluation.
    assert (low64 (word_of_Z (2 ^ 63)) + 32 < 2 ^ 64) as Hfit
      by (vm_compute; reflexivity).
    split; [exact Hwf|]. split; [exact Hfit|].
    destruct (MSTORE_case_spec _ (word_of_Z (2 ^ 63)) (word_of_Z 0x0102) [] Hwf
                ltac:(vm_compute; reflexivity) Hfit) as [_ Hthrows].
    destruct (Hthrows ltac:(by_evaluation) ltac:(by_evaluation))
      as (f' & Hrun & Hstack & Hmem & _).
    exists f'. split; [exact Hrun|]. split; [exact Hstack|]. exact Hmem.
Defined.

(** ** The RETURN case *)

Lemma Memory_range_Ok (Off Len : Z) (f : EVMFrame) :
  Off + Len <= Memory_size f ->
  Memory_range Off Len f
  = (Ok (take (Z.to_nat Len) (drop (Z.to_nat Off) (Memory f))), f).
Proof.
  intros H. unfold Memory_range. erewrite bind_Ok by reflexivity.
  destruct (decide (Off + Len <= Memory_size f)); [reflexivity | lia].
Qed.

Lemma Memory_range_Err (Off Len : Z) (f : EVMFrame) :
  Memory_size f < Off + Len -> Memory_range Off Len f = (Err OutOfBounds, f).
Proof.
  intros H. unfold Memory_range. erewrite bind_Ok by reflexivity.
  destruct (decide (Off + Len <= Memory_size f)); [lia | reflexivity].
Qed.

(** The run of RETURN when [Off + Len] does not wrap around and the memory
    is long enough or can be made so. *)
Lemma case_RETURN_Ok (f : EVMFrame) (OffsetVal SizeVal : UInt256)
    (rest : list UInt256) :
  wf_frame f -> live_stack f = OffsetVal :: SizeVal :: rest ->
  low64 OffsetVal + low64 SizeVal < 2 ^ 64 ->
  low64 OffsetVal + low64 SizeVal <= Memory_size f \/
  low64 OffsetVal + low64 SizeVal <= vector_max_size ->
  dispatch Opcode.RETURN f
  = (Ok (EndRETURN
           (take (Z.to_nat (low64 SizeVal))
              (drop (Z.to_nat (low64 OffsetVal))
                 (Memory f
                  ++ replicate (Z.to_nat (low64 OffsetVal) + Z.to_nat (low64 SizeVal)
                                - length (Memory f)) 0)))),
     set_Memory
       (Memory f
        ++ replicate (Z.to_nat (low64 OffsetVal) + Z.to_nat (low64 SizeVal)
                      - length (Memory f)) 0)
       (set_Sp (Sp f - 2) f)).
Proof.
  intros Hwf Hlive Hfit Hroom.
  set (Off := Z.to_nat (low64 OffsetVal)). set (Len := Z.to_nat (low64 SizeVal)).
  set (M := Memory f ++ replicate (Off + Len - length (Memory f)) 0).
  destruct (two_operands f OffsetVal SizeVal rest Hwf Hlive)
    as (H2 & HO & HS & Hrest & HwO & HwS).
  pose proof (low64_range OffsetVal HwO) as HrO.
  pose proof (low64_range SizeVal HwS) as HrS.
  assert (length M = (length (Memory f) `max` (Off + Len))%nat) as HMlen.
  { subst M. rewrite length_app, length_replicate. lia. }
  change (dispatch Opcode.RETURN) with case_RETURN. unfold case_RETURN.
  erewrite bind_Ok by (apply require_args_Ok; lia).
  rewrite pop_pop by lia. rewrite HO, HS. cbv zeta.
  rewrite (size_t_id (low64 OffsetVal)), (size_t_id (low64 SizeVal)) by lia.
  rewrite (size_t_id (low64 OffsetVal + low64 SizeVal)) by lia.
  erewrite bind_Ok by (apply Memory_grow_Ok; exact Hroom).
  cbn [Memory set_Sp].
  replace (Z.to_nat (low64 OffsetVal + low64 SizeVal)) with (Off + Len)%nat by lia.
  fold M.
  erewrite bind_Ok
    by (apply Memory_range_Ok; unfold Memory_size; cbn [Memory set_Memory]; lia).
  reflexivity.
Qed.

(** The run of RETURN when the memory has to grow beyond the largest size
    of a vector: [resize] throws after the two operands have been popped. *)
Lemma case_RETURN_LengthError (f : EVMFrame) (OffsetVal SizeVal : UInt256)
    (rest : list UInt256) :
  wf_frame f -> live_stack f = OffsetVal :: SizeVal :: rest ->
  low64 OffsetVal + low64 SizeVal < 2 ^ 64 ->
  Memory_size f < low64 OffsetVal + low64 SizeVal ->
  vector_max_size < low64 OffsetVal + low64 SizeVal ->
  dispatch Opcode.RETURN f = (Err LengthError, set_Sp (Sp f - 2) f).
Proof.
  intros Hwf Hlive Hfit Hshort Hbig.
  destruct (two_operands f OffsetVal SizeVal rest Hwf Hlive)
    as (H2 & HO & HS & Hrest & HwO & HwS).
  pose proof (low64_range OffsetVal HwO) as HrO.
  pose proof (low64_range SizeVal HwS) as HrS.
  change (dispatch Opcode.RETURN) with case_RETURN. unfold case_RETURN.
  erewrite bind_Ok by (apply require_args_Ok; lia).
  rewrite pop_pop by lia. rewrite HO, HS. cbv zeta.
  rewrite (size_t_id (low64 OffsetVal)), (size_t_id (low64 SizeVal)) by lia.
  rewrite (size_t_id (low64 OffsetVal + low64 SizeVal)) by lia.
  erewrite bind_Err by (apply Memory_grow_Err; [exact Hshort | exact Hbig]).
  reflexivity.
Qed.

(** X3. RETURN with the offset on top of the stack and the size below it,
    when the low 64 bits [Off] and [Len] of the two satisfy
    [Off + Len < 2^64]. Where the memory holds [Off + Len] bytes already, or
    [Off + Len] is a size that a vector can have (at most
    [vector_max_size]): both operands are popped, the memory is extended
    with zero bytes to [Off + Len] bytes when it is shorter, and the bytes
    [Off .. Off+Len-1] of the memory, [Len] of them, leave the case as the
    return data. Where the memory is shorter than [Off + Len] and
    [Off + Len] exceeds [vector_max_size]: [resize] throws
    [std::length_error], both operands have been popped and the memory is
    as it was. *)
Theorem RETURN_case_spec (f : EVMFrame) (OffsetVal SizeVal : UInt256)
    (rest : list UInt256) :
  wf_frame f -> live_stack f = OffsetVal :: SizeVal :: rest ->
  low64 OffsetVal + low64 SizeVal < 2 ^ 64 ->
  let Off := Z.to_nat (low64 OffsetVal) in
  let Len := Z.to_nat (low64 SizeVal) in
  let M := Memory f ++ replicate (Off + Len - length (Memory f)) 0 in
  (low64 OffsetVal + low64 SizeVal <= Memory_size f \/
   low64 OffsetVal + low64 SizeVal <= vector_max_size ->
   exists f',
     dispatch Opcode.RETURN f = (Ok (EndRETURN (take Len (drop Off M))), f') /\
     length (take Len (drop Off M)) = Len /\
     Memory f' = M /\ live_stack f' = rest) /\
  (Memory_size f < low64 OffsetVal + low64 SizeVal ->
   vector_max_size < low64 OffsetVal + low64 SizeVal ->
   exists f',
     dispatch Opcode.RETURN f = (Err LengthError, f') /\
     Memory f' = Memory f /\ live_stack f' = rest).
Proof.
  intros Hwf Hlive Hfit Off Len M.
  destruct (two_operands f OffsetVal SizeVal rest Hwf Hlive)
    as (H2 & HO & HS & Hrest & HwO & HwS).
  pose proof (low64_range OffsetVal HwO) as HrO.
  pose proof (low64_range SizeVal HwS) as HrS.
  assert (length M = (length (Memory f) `max` (Off + Len))%nat) as HMlen.
  { subst M. rewrite length_app, length_replicate. lia. }
  split.
  - intros Hroom. exists (set_Memory M (set_Sp (Sp f - 2) f)). split_and!.
    + apply (case_RETURN_Ok f OffsetVal SizeVal rest); assumption.
    + rewrite length_take, length_drop. lia.
    + reflexivity.
    + exact Hrest.
  - intros Hshort Hbig. exists (set_Sp (Sp f - 2) f). split_and!.
    + apply (case_RETURN_LengthError f OffsetVal SizeVal rest); assumption.
    + reflexivity.
    + exact Hrest.
Qed.

Lemma RETURN_case_spec_witness :
  (wf_frame (frame_of_stack [0xF3] 1 [word_of_Z 1; word_of_Z 3]) /\
   low64 (word_of_Z 1) + low64 (word_of_Z 3) < 2 ^ 64 /\
   (dispatch Opcode.RETURN (frame_of_stack [0xF3] 1 [word_of_Z 1; word_of_Z 3])).1
   = Ok (EndRETURN [0; 0; 0])) /\
  (wf_frame (frame_of_stack [0xF3] 1 [word_of_Z 0; word_of_Z (2 ^ 63)]) /\
   low64 (word_of_Z 0) + low64 (word_of_Z (2 ^ 63)) < 2 ^ 64 /\
   (dispatch Opcode.RETURN
      (frame_of_stack [0xF3] 1 [word_of_Z 0; word_of_Z (2 ^ 63)])).1
   = Err LengthError).
Proof.
  split.
  - assert (wf_frame (frame_of_stack [0xF3] 1 [word_of_Z 1; word_of_Z 3])) as Hwf
      by by_evaluation.
    assert (low64 (word_of_Z 1) + low64 (word_of_Z 3) < 2 ^ 64) as Hfit
      by (vm_compute; reflexivity).
    split; [exact Hwf|]. split; [exact Hfit|].
    destruct (RETURN_case_spec _ (word_of_Z 1) (word_of_Z 3) [] Hwf
                ltac:(vm_compute; reflexivity) Hfit) as [Hok _].
    destruct (Hok ltac:(right; by_evaluation)) as (f' & Hrun & _).
    rewrite Hrun. vm_compute. reflexivity.
  - assert (wf_frame (frame_of_stack [0xF3] 1 [word_of_Z 0; word_of_Z (2 ^ 63)]))
      as Hwf by by_evaluation.
    assert (low64 (word_of_Z 0) + low64 (word_of_Z (2 ^ 63)) < 2 ^ 64) as Hfit
      by (vm_compute; reflexivity).
    split; [exact Hwf|]. split; [exact Hfit|].
    destruct (RETURN_case_spec _ (word_of_Z 0) (word_of_Z (2 ^ 63)) [] Hwf
                ltac:(vm_compute; reflexivity) Hfit) as [_ Hthrows].
    destruct (Hthrows ltac:(by_evaluation) ltac:(by_evaluation)) as (f' & Hrun & _).
    rewrite Hrun. reflexivity.
Defined.

(** ** The ADD, SUB and POP cases *)

(** A case that pops [B], then [A], and pushes [op A B]. *)
Lemma binary_case (op : UInt256 -> UInt256 -> UInt256) (f : EVMFrame)
    (A B : UInt256) (rest : list UInt256) :
  wf_frame f -> live_stack f = B :: A :: rest ->
  exists f',
    (require_args 2;; B ← pop; A ← pop; push (op A B);; mret Break) f
    = (Ok Break, f') /\
    live_stack f' = op A B :: rest /\
    Sp f' = (Sp f - 1)%nat /\
    Pc f' = Pc f /\ Memory f' = Memory f /\ Code f' = Code f.
Proof.
  intros Hwf Hlive.
  destruct (two_operands f B A rest Hwf Hlive) as (H2 & HB & HA & Hrest & _ & _).
  destruct Hwf as (Hlen & HSp & _).
  exists (mkEVMFrame (Code f) (Pc f) (<[(Sp f - 2)%nat := op A B]> (Stack f))
            (S (Sp f - 2)) (Memory f) (GasLeft f)).
  split_and!; try reflexivity.
  - erewrite bind_Ok by (apply require_args_Ok; lia).
    rewrite pop_pop by lia. rewrite HA, HB.
    erewrite bind_Ok by (apply push_Ok; simpl; unfold MAX_STACK in *; lia).
    reflexivity.
  - rewrite <- Hrest.
    apply (live_stack_push (op A B) (set_Sp (Sp f - 2) f)). simpl. lia.
  - simpl. lia.
Qed.

(** X4. ADD on a well-formed frame whose two topmost operands are [B]
    (on top) and [A]: both are popped and the word of [A + B] modulo
    [2^256] is pushed; the height drops by one and [Pc], the memory and the
    code are untouched. *)
Theorem ADD_case_spec (f : EVMFrame) (A B : UInt256) (rest : list UInt256) :
  wf_frame f -> live_stack f = B :: A :: rest ->
  exists f',
    dispatch Opcode.ADD f = (Ok Break, f') /\
    live_stack f' = addUInt256 A B :: rest /\
    word_value (addUInt256 A B) = (word_value A + word_value B) mod 2 ^ 256 /\
    Sp f' = (Sp f - 1)%nat /\
    Pc f' = Pc f /\ Memory f' = Memory f /\ Code f' = Code f.
Proof.
  intros Hwf Hlive.
  destruct (two_operands f B A rest Hwf Hlive) as (_ & _ & _ & _ & HwB & HwA).
  destruct (binary_case addUInt256 f A B rest Hwf Hlive)
    as (f' & Hrun & Hstack & Hrest).
  exists f'. split; [exact Hrun|]. split; [exact Hstack|].
  split; [apply addUInt256_value; assumption | exact Hrest].
Qed.

(** X5. SUB on a well-formed frame whose two topmost operands are [B]
    (on top) and [A]: both are popped and the word of [A - B] modulo
    [2^256] is pushed, the operand on top being the one subtracted. *)
Theorem SUB_case_spec (f : EVMFrame) (A B : UInt256) (rest : list UInt256) :
  wf_frame f -> live_stack f = B :: A :: rest ->
  exists f',
    dispatch Opcode.SUB f = (Ok Break, f') /\
    live_stack f' = SUB_Res A B :: rest /\
    word_value (SUB_Res A B) = (word_value A - word_value B) mod 2 ^ 256 /\
    Sp f' = (Sp f - 1)%nat /\
    Pc f' = Pc f /\ Memory f' = Memory f /\ Code f' = Code f.
Proof.
  intros Hwf Hlive.
  destruct (two_operands f B A rest Hwf Hlive) as (_ & _ & _ & _ & HwB & HwA).
  destruct (binary_case SUB_Res f A B rest Hwf Hlive)
    as (f' & Hrun & Hstack & Hrest).
  exists f'. split; [exact Hrun|]. split; [exact Hstack|].
  split; [apply SUB_Res_value; assumption | exact Hrest].
Qed.

Lemma ADD_case_spec_witness :
  wf_frame (frame_of_stack [0x01] 1 [word_of_Z 3; word_of_Z 5]) /\
  exists f',
    dispatch Opcode.ADD (frame_of_stack [0x01] 1 [word_of_Z 3; word_of_Z 5])
    = (Ok Break, f') /\
    live_stack f' = [word_of_Z 8].
Proof.
  assert (wf_frame (frame_of_stack [0x01] 1 [word_of_Z 3; word_of_Z 5])) as Hwf
    by by_evaluation.
  split; [exact Hwf|].
  destruct (ADD_case_spec _ (word_of_Z 5) (word_of_Z 3) [] Hwf
              ltac:(vm_compute; reflexivity)) as (f' & Hrun & Hstack & _).
  exists f'. split; [exact Hrun|]. rewrite Hstack. vm_compute. reflexivity.
Defined.

Lemma SUB_case_spec_witness :
  wf_frame (frame_of_stack [0x03] 1 [word_of_Z 3; word_of_Z 5]) /\
  exists f',
    dispatch Opcode.SUB (frame_of_stack [0x03] 1 [word_of_Z 3; word_of_Z 5])
    = (Ok Break, f') /\
    live_stack f' = [word_of_Z 2].
Proof.
  assert (wf_frame (frame_of_stack [0x03] 1 [word_of_Z 3; word_of_Z 5])) as Hwf
    by by_evaluation.
  split; [exact Hwf|].
  destruct (SUB_case_spec _ (word_of_Z 5) (word_of_Z 3) [] Hwf
              ltac:(vm_compute; reflexivity)) as (f' & Hrun & Hstack & _).
  exists f'. split; [exact Hrun|]. rewrite Hstack. vm_compute. reflexivity.
Defined.

(** ** [push] and [pop] compose *)

Lemma set_Stack_Sp_id (f : EVMFrame) : set_Sp (Sp f) (set_Stack (Stack f) f) = f.
Proof. destruct f; reflexivity. Qed.

(** X6. On a frame with room on its stack, [pop] after [push V] returns [V]
    and leaves the operands and the height as they were before the [push].
    On a frame that holds an operand, pushing the word that [pop] returned
    restores the frame exactly. *)
Theorem push_pop_roundtrip (V : UInt256) (f : EVMFrame) :
  length (Stack f) = MAX_STACK ->
  ((Sp f < MAX_STACK)%nat ->
     exists f', (push V;; pop) f = (Ok V, f') /\
                live_stack f' = live_stack f /\ Sp f' = Sp f) /\
  ((0 < Sp f <= MAX_STACK)%nat ->
     (W ← pop; push W) f = (Ok tt, f)).
Proof.
  intros Hlen. split.
  - intros HSp.
    exists (mkEVMFrame (Code f) (Pc f) (<[Sp f := V]> (Stack f)) (Sp f)
              (Memory f) (GasLeft f)).
    split_and!.
    + erewrite bind_Ok by (apply push_Ok; exact HSp).
      rewrite pop_Ok by (simpl; lia). cbn [Stack Sp set_Sp Code Pc Memory GasLeft].
      replace (S (Sp f) - 1)%nat with (Sp f) by lia.
      rewrite list_lookup_total_insert_eq by lia. reflexivity.
    + unfold live_stack. cbn [Stack Sp]. rewrite take_insert_ge by lia. reflexivity.
    + reflexivity.
  - intros HSp. erewrite bind_Ok by (apply pop_Ok; lia).
    rewrite push_Ok by (simpl; lia). cbn [Stack Sp set_Sp Code Pc Memory GasLeft].
    rewrite list_insert_id by (apply list_lookup_lookup_total_lt; lia).
    replace (S (Sp f - 1)) with (Sp f) by lia. destruct f; reflexivity.
Qed.

Lemma push_pop_roundtrip_witness :
  length (Stack empty_frame) = MAX_STACK /\ (Sp empty_frame < MAX_STACK)%nat /\
  exists f', (push (word_of_Z 9);; pop) empty_frame = (Ok (word_of_Z 9), f') /\
             live_stack f' = live_stack empty_frame.
Proof.
  assert (length (Stack empty_frame) = MAX_STACK) as Hlen by (vm_compute; reflexivity).
  assert (Sp empty_frame < MAX_STACK)%nat as HSp by (vm_compute; lia).
  split; [exact Hlen|]. split; [exact HSp|].
  destruct (push_pop_roundtrip (word_of_Z 9) empty_frame Hlen) as [H _].
  destruct (H HSp) as (f' & Hrun & Hstack & _).
  exists f'. split; [exact Hrun | exact Hstack].
Defined.

(** ** The operands as a list *)

Lemma live_stack_lookup (f : EVMFrame) (m : nat) :
  (Sp f <= length (Stack f))%nat -> (m < Sp f)%nat ->
  live_stack f !!! m = Stack f !!! (Sp f - 1 - m)%nat.
Proof.
  intros HSp Hm. unfold live_stack.
  rewrite rev_lookup_total by (rewrite length_take; lia).
  rewrite length_take. replace (Sp f `min` length (Stack f))%nat with (Sp f) by lia.
  apply lookup_total_take_lt. lia.
Qed.

Lemma live_stack_set_Stack_lookup (f : EVMFrame) (S0 : list UInt256) (m : nat) :
  (Sp f <= length S0)%nat -> (m < Sp f)%nat ->
  live_stack (set_Stack S0 f) !!! m = S0 !!! (Sp f - 1 - m)%nat.
Proof.
  intros HSp Hm. apply (live_stack_lookup (set_Stack S0 f)); assumption.
Qed.

Lemma live_stack_insert (f : EVMFrame) (S0 : list UInt256) (i : nat) (V : UInt256) :
  (Sp f <= length S0)%nat -> (i < Sp f)%nat ->
  live_stack (set_Stack (<[i := V]> S0) f)
  = <[(Sp f - 1 - i)%nat := V]> (live_stack (set_Stack S0 f)).
Proof.
  intros HSp Hi.
  assert (length (live_stack (set_Stack S0 f)) = Sp f) as HL
    by (apply (live_stack_length (set_Stack S0 f)); exact HSp).
  apply (list_eq_total _ _ (Sp f)).
  - apply (live_stack_length (set_Stack (<[i := V]> S0) f)).
    cbn [Stack Sp set_Stack]. rewrite length_insert. exact HSp.
  - rewrite length_insert. exact HL.
  - intros m Hm.
    rewrite live_stack_set_Stack_lookup by (try rewrite length_insert; lia).
    destruct (decide (m = Sp f - 1 - i)%nat) as [->|Hne].
    + rewrite list_lookup_total_insert_eq by lia.
      replace (Sp f - 1 - (Sp f - 1 - i))%nat with i by lia.
      apply list_lookup_total_insert_eq. lia.
    + rewrite !list_lookup_total_insert_ne by lia.
      symmetry. apply live_stack_set_Stack_lookup; lia.
Qed.

(** ** The POP, DUP and SWAP cases *)

Lemma case_POP_Ok (f : EVMFrame) :
  (1 <= Sp f)%nat -> dispatch Opcode.POP f = (Ok Break, set_Sp (Sp f - 1) f).
Proof.
  intros H1. change (dispatch Opcode.POP) with case_POP. unfold case_POP.
  erewrite bind_Ok by (apply require_args_Ok; lia).
  erewrite bind_Ok by (apply pop_Ok; lia). reflexivity.
Qed.

(** X7. POP on a frame that holds an operand discards the topmost one:
    the operands below it stay and nothing else of the frame changes. *)
Theorem POP_case_spec (f : EVMFrame) (V : UInt256) (rest : list UInt256) :
  (Sp f <= length (Stack f))%nat -> live_stack f = V :: rest ->
  dispatch Opcode.POP f = (Ok Break, set_Sp (Sp f - 1) f) /\
  live_stack (set_Sp (Sp f - 1) f) = rest.
Proof.
  intros HSp Hlive.
  assert (1 <= Sp f)%nat as H1.
  { rewrite <- (live_stack_length f) by lia. rewrite Hlive. simpl. lia. }
  rewrite (live_stack_pop f) in Hlive by lia. injection Hlive as _ Hrest.
  split; [|exact Hrest].
  apply case_POP_Ok. exact H1.
Qed.

Lemma POP_case_spec_witness :
  (Sp pop_frame
   <= length (Stack pop_frame))%nat /\
  live_stack (set_Sp (Sp pop_frame - 1)
                pop_frame)
  = [word_of_Z 5].
Proof.
  assert (Sp pop_frame
          <= length (Stack pop_frame))%nat
    as HSp by (vm_compute; lia).
  split; [exact HSp|].
  apply (POP_case_spec _ (word_of_Z 3) [word_of_Z 5] HSp). vm_compute. reflexivity.
Defined.

(** X8. DUPn, [n = Op - 0x7F], on a frame that holds at least [n] operands
    and fewer than [MAX_STACK]: a copy of the n-th operand from the top is
    pushed (DUP1 copies the top) and the operands below stay as they
    were. *)
Theorem DUP_case_spec (Op : Z) (f : EVMFrame) :
  0x80 <= Op <= 0x8F -> length (Stack f) = MAX_STACK ->
  (Z.to_nat (Op - 0x7F) <= Sp f)%nat -> (Sp f < MAX_STACK)%nat ->
  exists f',
    dispatch Op f = (Ok Break, f') /\
    live_stack f' = live_stack f !!! (Z.to_nat (Op - 0x7F) - 1)%nat :: live_stack f /\
    Pc f' = Pc f /\ Memory f' = Memory f /\ Code f' = Code f.
Proof.
  intros HOp Hlen HN HSp. set (N := Z.to_nat (Op - 0x7F)) in *.
  assert (1 <= N <= 16)%nat as HNr by (subst N; lia).
  exists (mkEVMFrame (Code f) (Pc f)
            (<[Sp f := Stack f !!! (Sp f - 1 - (N - 1))%nat]> (Stack f))
            (S (Sp f)) (Memory f) (GasLeft f)).
  split_and!; try reflexivity.
  - rewrite dispatch_DUP by exact HOp. unfold case_DUP.
    rewrite uint8_t_id by lia. fold N. erewrite bind_Ok by reflexivity.
    destruct (decide (Sp f < N)%nat) as [Hc|_]; [lia|].
    erewrite bind_Ok by (apply peek_Ok; lia).
    erewrite bind_Ok by reflexivity.
    erewrite bind_Ok by (apply push_Ok; exact HSp). reflexivity.
  - rewrite live_stack_lookup by lia. apply live_stack_push. lia.
Qed.

Lemma DUP_case_spec_witness :
  0x80 <= 0x81 <= 0x8F /\
  exists f',
    dispatch 0x81 dup2_frame = (Ok Break, f') /\
    live_stack f' = [word_of_Z 5; word_of_Z 3; word_of_Z 5].
Proof.
  assert (0x80 <= 0x81 <= 0x8F) as HOp by lia.
  split; [exact HOp|].
  destruct (DUP_case_spec 0x81 dup2_frame HOp)
    as (f' & Hrun & Hstack & _);
    [vm_compute; reflexivity | vm_compute; lia | vm_compute; lia |].
  exists f'. split; [exact Hrun|]. rewrite Hstack. vm_compute. reflexivity.
Defined.

Lemma case_SWAP_Ok (Op : Z) (f : EVMFrame) :
  0x90 <= Op <= 0x9F -> (Z.to_nat (Op - 0x8F) < Sp f)%nat ->
  dispatch Op f
  = (Ok Break,
     set_Stack
       (<[(Sp f - 1 - Z.to_nat (Op - 0x8F))%nat := Stack f !!! (Sp f - 1)%nat]>
          (<[(Sp f - 1)%nat := Stack f !!! (Sp f - 1 - Z.to_nat (Op - 0x8F))%nat]>
             (Stack f))) f).
Proof.
  intros HOp HN. rewrite dispatch_SWAP by exact HOp. unfold case_SWAP.
  rewrite uint8_t_id by lia. erewrite bind_Ok by reflexivity.
  destruct (decide (Sp f <= Z.to_nat (Op - 143))%nat) as [Hc|_]; [lia|].
  erewrite bind_Ok by (apply peek_Ok; lia).
  erewrite bind_Ok by (apply peek_Ok; lia).
  erewrite bind_Ok by reflexivity.
  replace (Sp f - 1 - 0)%nat with (Sp f - 1)%nat by lia. reflexivity.
Qed.

(** X9. SWAPn, [n = Op - 0x8F], on a frame that holds more than [n]
    operands: the top operand and the operand [n] places below it change
    places; the other operands, the height, [Pc], the memory and the code
    stay. Running the same SWAP again restores the frame exactly. *)
Theorem SWAP_case_spec (Op : Z) (f : EVMFrame) :
  0x90 <= Op <= 0x9F -> (Sp f <= length (Stack f))%nat ->
  (Z.to_nat (Op - 0x8F) < Sp f)%nat ->
  exists f',
    dispatch Op f = (Ok Break, f') /\
    live_stack f'
    = <[Z.to_nat (Op - 0x8F) := live_stack f !!! 0%nat]>
        (<[0%nat := live_stack f !!! Z.to_nat (Op - 0x8F)]> (live_stack f)) /\
    Sp f' = Sp f /\ Pc f' = Pc f /\ Memory f' = Memory f /\ Code f' = Code f /\
    dispatch Op f' = (Ok Break, f).
Proof.
  intros HOp HSp HN. set (N := Z.to_nat (Op - 0x8F)) in *.
  assert (1 <= N <= 16)%nat as HNr by (subst N; lia).
  eexists. split; [apply case_SWAP_Ok; assumption|]. fold N.
  split_and!; try reflexivity.
  - rewrite !live_stack_lookup by lia.
    replace (Sp f - 1 - 0)%nat with (Sp f - 1)%nat by lia.
    rewrite live_stack_insert by (try rewrite length_insert; lia).
    rewrite live_stack_insert by lia.
    replace (Sp f - 1 - (Sp f - 1))%nat with 0%nat by lia.
    replace (Sp f - 1 - (Sp f - 1 - N))%nat with N by lia.
    destruct f; reflexivity.
  - rewrite case_SWAP_Ok by (try assumption; cbn [Sp set_Stack]; lia).
    fold N. cbn [Stack Sp set_Stack]. f_equal.
    rewrite list_lookup_total_insert_ne by lia.
    rewrite list_lookup_total_insert_eq by lia.
    rewrite list_lookup_total_insert_eq by (rewrite length_insert; lia).
    assert (<[(Sp f - 1 - N)%nat := Stack f !!! (Sp f - 1 - N)%nat]>
              (<[(Sp f - 1)%nat := Stack f !!! (Sp f - 1)%nat]>
                 (<[(Sp f - 1 - N)%nat := Stack f !!! (Sp f - 1)%nat]>
                    (<[(Sp f - 1)%nat := Stack f !!! (Sp f - 1 - N)%nat]> (Stack f))))
            = Stack f) as ->.
    { apply (list_eq_total _ _ (length (Stack f)));
        [rewrite !length_insert; reflexivity | reflexivity |].
      intros m Hm.
      destruct (decide (m = Sp f - 1 - N)%nat) as [->|Hn1].
      - rewrite list_lookup_total_insert_eq by (rewrite !length_insert; lia).
        reflexivity.
      - rewrite list_lookup_total_insert_ne by lia.
        destruct (decide (m = Sp f - 1)%nat) as [->|Hn2].
        + rewrite list_lookup_total_insert_eq by (rewrite !length_insert; lia).
          reflexivity.
        + rewrite !list_lookup_total_insert_ne by lia. reflexivity. }
    destruct f; reflexivity.
Qed.

Lemma SWAP_case_spec_witness :
  0x90 <= 0x90 <= 0x9F /\
  exists f',
    dispatch 0x90 swap1_frame = (Ok Break, f') /\
    live_stack f' = [word_of_Z 5; word_of_Z 3].
Proof.
  assert (0x90 <= 0x90 <= 0x9F) as HOp by lia.
  split; [exact HOp|].
  destruct (SWAP_case_spec 0x90 swap1_frame HOp)
    as (f' & Hrun & Hstack & _); [vm_compute; lia | vm_compute; lia |].
  exists f'. split; [exact Hrun|]. rewrite Hstack. vm_compute. reflexivity.
Defined.

(** ** Opcodes without a case *)

Lemma dispatch_unsupported (Op : Z) (f : EVMFrame) :
  is_byte Op -> implemented Op = false ->
  dispatch Op f = (Err (Thrown UnsupportedOpcode), f).
Proof.
  intros HOp Himp. unfold implemented in Himp. unfold dispatch.
  rewrite (uint8_t_id Op) by (unfold is_byte in HOp; lia).
  repeat match goal with
         | |- context [Op =? ?c] =>
             destruct (Z.eqb_spec Op c) as [E|_];
             [rewrite E in Himp; vm_compute in Himp; discriminate|]
         end.
  destruct (Z.leb_spec 0x60 Op), (Z.leb_spec Op 0x7F),
    (Z.leb_spec 0x80 Op), (Z.leb_spec Op 0x8F),
    (Z.leb_spec 0x90 Op), (Z.leb_spec Op 0x9F);
    cbn [andb]; try reflexivity; exfalso;
    repeat match type of Himp with
           | context [Op =? ?c] => destruct (Z.eqb_spec Op c); [lia|]
           end;
    cbn [orb] in Himp;
    destruct (Z.leb_spec 0x60 Op), (Z.leb_spec Op 0x9F); cbn [andb] in Himp;
    try discriminate; lia.
Qed.

(** X10. Every byte that is none of STOP, ADD, MUL, SUB, POP, MSTORE, RETURN
    and lies outside of 0x60..0x9F, among them the opcodes DIV .. BYTE,
    ADDRESS .. CALLDATALOAD and MLOAD that the enumeration lists, throws
    [UnsupportedOpcode] and leaves the frame as it was. *)
Theorem unsupported_opcode (Op : Z) (f : EVMFrame) :
  is_byte Op -> implemented Op = false ->
  dispatch Op f = (Err (Thrown UnsupportedOpcode), f).
Proof.
  intros HOp Himp.
  rewrite (dispatch_unsupported Op f HOp Himp). reflexivity.
Qed.

Lemma unsupported_opcode_witness :
  is_byte Opcode.MLOAD /\ implemented Opcode.MLOAD = false /\
  dispatch Opcode.MLOAD empty_frame = (Err (Thrown UnsupportedOpcode), empty_frame) /\
  dispatch Opcode.DIV empty_frame = (Err (Thrown UnsupportedOpcode), empty_frame).
Proof.
  assert (is_byte Opcode.MLOAD) as H1 by (unfold is_byte, Opcode.MLOAD; lia).
  assert (is_byte Opcode.DIV) as H2 by (unfold is_byte, Opcode.DIV; lia).
  split; [exact H1|]. split; [reflexivity|]. split.
  - apply (unsupported_opcode Opcode.MLOAD empty_frame H1). reflexivity.
  - apply (unsupported_opcode Opcode.DIV empty_frame H2). reflexivity.
Defined.

(** ** Where error codes are thrown *)

Lemma no_throw_bind {A B : Type} (m : FrameM A) (k : A -> FrameM B) :
  no_throw m -> (forall a, no_throw (k a)) -> no_throw (m ≫= k).
Proof.
  intros Hm Hk f e f' H. unfold mbind, FrameM_bind in H.
  destruct (m f) as [[a|e0] f0] eqn:E.
  - exact (Hk a f0 e f' H).
  - injection H as -> ->. exact (Hm f e f' E).
Qed.

Lemma no_throw_ret {A : Type} (a : A) : no_throw (mret a).
Proof. intros f e f' H. discriminate. Qed.

Lemma no_throw_get : no_throw get_frame.
Proof. intros f e f' H. discriminate. Qed.

Lemma no_throw_stackHeight : no_throw stackHeight.
Proof. intros f e f' H. discriminate. Qed.

Lemma no_throw_modify (g : EVMFrame -> EVMFrame) : no_throw (modify_frame g).
Proof. intros f e f' H. discriminate. Qed.

Lemma no_throw_AssertionViolated {A : Type} : no_throw (@fault A AssertionViolated).
Proof. intros f e f' H. discriminate. Qed.

Lemma no_throw_OutOfBounds {A : Type} : no_throw (@fault A OutOfBounds).
Proof. intros f e f' H. discriminate. Qed.

Lemma no_throw_LengthError {A : Type} : no_throw (@fault A LengthError).
Proof. intros f e f' H. discriminate. Qed.

Lemma no_throw_ZEN_ASSERT (c : bool) : no_throw (ZEN_ASSERT c).
Proof. destruct c; [apply no_throw_ret | apply no_throw_AssertionViolated]. Qed.

Lemma no_throw_lift {A : Type} (r : res A) : res_no_throw r -> no_throw (lift_res r).
Proof. intros Hr f e f' H. injection H as H _. exact (Hr e H). Qed.

Create HintDb throws discriminated.
#[local] Hint Resolve no_throw_ret no_throw_get no_throw_stackHeight no_throw_modify
  no_throw_AssertionViolated no_throw_OutOfBounds no_throw_LengthError
  no_throw_ZEN_ASSERT : throws.

(** Breaks a handler that throws nothing into its steps. *)
Ltac no_throw_steps :=
  repeat first
    [ solve [auto with throws]
    | match goal with |- no_throw (if ?c then _ else _) => destruct c end
    | match goal with |- no_throw (_ ≫= _) => apply no_throw_bind; [|intros ?] end ].

Lemma no_throw_push (V : UInt256) : no_throw (push V).
Proof. unfold push. no_throw_steps. Qed.

Lemma no_throw_pop : no_throw pop.
Proof. unfold pop. no_throw_steps. Qed.

Lemma no_throw_peek (Index : nat) : no_throw (peek Index).
Proof. unfold peek. no_throw_steps. Qed.

Lemma no_throw_Memory_grow (Need : Z) : no_throw (Memory_grow Need).
Proof. unfold Memory_grow, Memory_resize. no_throw_steps. Qed.

Lemma no_throw_Memory_store (Index V : Z) : no_throw (Memory_store Index V).
Proof. unfold Memory_store. no_throw_steps. Qed.

Lemma no_throw_Memory_range (Off Len : Z) : no_throw (Memory_range Off Len).
Proof. unfold Memory_range. no_throw_steps. Qed.

Lemma no_throw_for_loopF (n : nat) (body : nat -> FrameM unit) :
  (forall i, no_throw (body i)) -> no_throw (for_loopF n body).
Proof.
  intros H. induction n as [|n IH].
  - apply no_throw_ret.
  - rewrite for_loopF_S. apply no_throw_bind; [exact IH | intros _; apply H].
Qed.

#[local] Hint Resolve no_throw_push no_throw_pop no_throw_peek no_throw_Memory_grow
  no_throw_Memory_store no_throw_Memory_range : throws.

Lemma res_no_throw_for_loopM {S : Type} (n : nat) (body : S -> nat -> res S) (init : S) :
  (forall s i, res_no_throw (body s i)) -> res_no_throw (for_loopM n body init).
Proof.
  intros H. induction n as [|n IH]; [intros e; discriminate|].
  rewrite for_loopM_S. destruct (for_loopM n body init) as [s|f]; [apply H|].
  intros e He. apply (IH e). injection He as ->. reflexivity.
Qed.

Lemma res_no_throw_MUL_while (fuel : nat) : forall st Carry idx,
  res_no_throw (MUL_while fuel st Carry idx).
Proof.
  induction fuel as [|fuel IH]; intros st Carry idx e; rewrite MUL_while_unfold;
    destruct (Carry =? 0); try discriminate.
  destruct (decide (idx < Temp_size)%nat); [apply IH | discriminate].
Qed.

Lemma res_no_throw_MUL_Res (A B : UInt256) : res_no_throw (MUL_Res A B).
Proof.
  unfold MUL_Res.
  assert (res_no_throw (MUL_Temp A B)) as H.
  { apply res_no_throw_for_loopM. intros s i. apply res_no_throw_for_loopM.
    intros s' j. apply res_no_throw_MUL_while. }
  destruct (MUL_Temp A B) as [st|f]; [intros e; discriminate|].
  intros e He. apply (H e). injection He as ->. reflexivity.
Qed.

(** After the check of the height, the rest of a case throws nothing. *)
Lemma guarded_throw {A : Type} (N : nat) (body : FrameM A) (f f' : EVMFrame)
    (e : ErrorCode) :
  no_throw body ->
  (require_args N;; body) f = (Err (Thrown e), f') ->
  e = UnexpectedNumArgs /\ f' = f /\ (Sp f < N)%nat.
Proof.
  intros Hbody H. destruct (decide (Sp f < N)%nat) as [Hlt|Hge].
  - erewrite bind_Err in H by (apply require_args_Err; exact Hlt).
    injection H as <- <-. split_and!; [reflexivity | reflexivity | exact Hlt].
  - erewrite bind_Ok in H by (apply require_args_Ok; lia).
    exfalso. exact (Hbody f e f' H).
Qed.

(** Where an error code is thrown, and what it means. *)
Lemma dispatch_thrown (Op : Z) (f f' : EVMFrame) (e : ErrorCode) :
  is_byte Op -> dispatch Op f = (Err (Thrown e), f') ->
  f' = f /\
  match e with
  | UnexpectedNumArgs => (Sp f < operands_required Op)%nat
  | UnexpectedEnd =>
      0x60 <= Op <= 0x7F /\ (CodeEnd f < Pc f + Z.to_nat (Op - 0x5F))%nat
  | UnsupportedOpcode => implemented Op = false
  end.
Proof.
  intros HOp H. unfold is_byte in HOp.
  destruct (implemented Op) eqn:Himp.
  2:{ rewrite dispatch_unsupported in H by assumption. injection H as <- <-.
      split; reflexivity. }
  unfold implemented in Himp.
  destruct (Z.eqb_spec Op 0x00) as [->|?]; [discriminate|].
  destruct (Z.eqb_spec Op 0x01) as [->|?].
  { apply guarded_throw in H as (-> & -> & Hlt); [split; [reflexivity | exact Hlt]|].
    no_throw_steps. }
  destruct (Z.eqb_spec Op 0x02) as [->|?].
  { apply guarded_throw in H as (-> & -> & Hlt); [split; [reflexivity | exact Hlt]|].
    no_throw_steps. apply no_throw_lift, res_no_throw_MUL_Res. }
  destruct (Z.eqb_spec Op 0x03) as [->|?].
  { apply guarded_throw in H as (-> & -> & Hlt); [split; [reflexivity | exact Hlt]|].
    no_throw_steps. }
  destruct (Z.eqb_spec Op 0x50) as [->|?].
  { apply guarded_throw in H as (-> & -> & Hlt); [split; [reflexivity | exact Hlt]|].
    no_throw_steps. }
  destruct (Z.eqb_spec Op 0x52) as [->|?].
  { apply guarded_throw in H as (-> & -> & Hlt); [split; [reflexivity | exact Hlt]|].
    cbv zeta. no_throw_steps. apply no_throw_for_loopF. intros i. auto with throws. }
  destruct (Z.eqb_spec Op 0xF3) as [->|?].
  { apply guarded_throw in H as (-> & -> & Hlt); [split; [reflexivity | exact Hlt]|].
    cbv zeta. no_throw_steps. }
  cbn [orb] in Himp.
  destruct (Z.leb_spec 0x60 Op), (Z.leb_spec Op 0x9F); try discriminate.
  clear Himp.
  destruct (Z.le_gt_cases Op 0x7F) as [HP|HP].
  { destruct (decide (CodeEnd f < Pc f + Z.to_nat (Op - 0x5F))%nat) as [Hend|Hfit].
    - rewrite case_PUSH_UnexpectedEnd in H by (try assumption; lia).
      injection H as <- <-. split; [reflexivity|]. split; [lia | exact Hend].
    - exfalso. destruct (decide (Sp f < MAX_STACK)%nat).
      + rewrite case_PUSH_Ok in H by (try assumption; lia). discriminate.
      + rewrite case_PUSH_full in H by (try assumption; lia). discriminate. }
  destruct (Z.le_gt_cases Op 0x8F) as [HD|HD].
  { rewrite dispatch_DUP in H by lia. unfold case_DUP in H.
    rewrite uint8_t_id in H by lia. erewrite bind_Ok in H by reflexivity.
    destruct (decide (Sp f < Z.to_nat (Op - 127))%nat) as [Hlt|Hge].
    - injection H as <- <-. split; [reflexivity|].
      unfold operands_required.
      repeat match goal with
             | |- context [Op =? ?c] => destruct (Z.eqb_spec Op c); [lia|]
             end.
      cbn [orb]. destruct (Z.leb_spec 0x80 Op), (Z.leb_spec Op 0x8F); try lia.
      exact Hlt.
    - exfalso. revert H. generalize f e f'. change (no_throw
        (r ← peek (Z.to_nat (Op - 127) - 1); f0 ← get_frame;
         push (Stack f0 !!! r);; mret Break)).
      no_throw_steps. }
  rewrite dispatch_SWAP in H by lia. unfold case_SWAP in H.
  rewrite uint8_t_id in H by lia. erewrite bind_Ok in H by reflexivity.
  destruct (decide (Sp f <= Z.to_nat (Op - 143))%nat) as [Hlt|Hge].
  - injection H as <- <-. split; [reflexivity|].
    unfold operands_required.
    repeat match goal with
           | |- context [Op =? ?c] => destruct (Z.eqb_spec Op c); [lia|]
           end.
    cbn [orb]. destruct (Z.leb_spec 0x80 Op), (Z.leb_spec Op 0x8F); try lia.
    all: destruct (Z.leb_spec 0x90 Op), (Z.leb_spec Op 0x9F); try lia.
    all: cbn [andb]; lia.
  - exfalso. revert H. generalize f e f'. change (no_throw
      (Top ← peek 0; Nth ← peek (Z.to_nat (Op - 143));
       modify_frame (fun f =>
         let T := Stack f !!! Top in
         let V := Stack f !!! Nth in
         set_Stack (<[Nth := T]> (<[Top := V]> (Stack f))) f);; mret Break)).
    no_throw_steps.
Qed.

(** X11. An error code is thrown before the case has changed anything: the
    frame that comes with it is the frame the case was entered with. And
    each code has one cause: [UnexpectedNumArgs] means that the stack holds
    fewer operands than the opcode requires, [UnexpectedEnd] that a PUSH
    lacks operand bytes, [UnsupportedOpcode] that the byte has no case. *)
Theorem thrown_errors (Op : Z) (f f' : EVMFrame) (e : ErrorCode) :
  is_byte Op -> dispatch Op f = (Err (Thrown e), f') ->
  f' = f /\
  match e with
  | UnexpectedNumArgs => (Sp f < operands_required Op)%nat
  | UnexpectedEnd =>
      0x60 <= Op <= 0x7F /\ (CodeEnd f < Pc f + Z.to_nat (Op - 0x5F))%nat
  | UnsupportedOpcode => implemented Op = false
  end.
Proof.
  intros HOp H.
  destruct (dispatch_thrown Op f f' e HOp H) as [Hsame Hcause].
  split; [exact Hsame | exact Hcause].
Qed.

Lemma thrown_errors_witness :
  is_byte Opcode.POP /\
  dispatch Opcode.POP empty_frame = (Err (Thrown UnexpectedNumArgs), empty_frame) /\
  (Sp empty_frame < operands_required Opcode.POP)%nat.
Proof.
  assert (is_byte Opcode.POP) as HOp by (unfold is_byte, Opcode.POP; lia).
  assert (dispatch Opcode.POP empty_frame = (Err (Thrown UnexpectedNumArgs), empty_frame))
    as Hrun by (vm_compute; reflexivity).
  split; [exact HOp|]. split; [exact Hrun|].
  apply (thrown_errors Opcode.POP empty_frame empty_frame UnexpectedNumArgs HOp Hrun).
Defined.

(** ** What every case keeps of a frame *)

Lemma frame_step_refl (f : EVMFrame) : frame_step f f.
Proof. unfold frame_step. split_and!; try reflexivity; lia. Qed.

Lemma frame_step_same (f f' : EVMFrame) :
  Code f' = Code f -> Pc f' = Pc f -> GasLeft f' = GasLeft f -> frame_step f f'.
Proof.
  intros HC HP HG. unfold frame_step. rewrite HC, HP, HG.
  split_and!; try reflexivity; lia.
Qed.

(** The case left the code, [Pc] and the gas alone. *)
Ltac same_step := apply frame_step_same; reflexivity.

Lemma frame_step_trans (f1 f2 f3 : EVMFrame) :
  frame_step f1 f2 -> frame_step f2 f3 -> frame_step f1 f3.
Proof.
  unfold frame_step, CodeEnd. intros (HC1 & HG1 & HP1 & HE1) (HC2 & HG2 & HP2 & HE2).
  rewrite HC1 in HE2. split_and!; [congruence | congruence | lia | lia].
Qed.

Lemma keeps_bind {A B : Type} (m : FrameM A) (k : A -> FrameM B)
    (Q : A -> Prop) (R : B -> Prop) :
  keeps m Q -> (forall a, Q a -> keeps (k a) R) -> keeps (m ≫= k) R.
Proof.
  intros Hm Hk f Hwf. destruct (Hm f Hwf) as (Hwf' & Hstep & Hfuel & HQ).
  unfold mbind, FrameM_bind. destruct (m f) as [[a|e] f0]; cbn [fst snd] in *.
  - destruct (Hk a (HQ a eq_refl) f0 Hwf') as (Hwf'' & Hstep' & Hfuel' & HR).
    split_and!; try assumption. exact (frame_step_trans _ _ _ Hstep Hstep').
  - split_and!; try assumption.
    + intros H. apply Hfuel. injection H as ->. reflexivity.
    + intros b H. discriminate.
Qed.

Lemma keeps_weaken {A : Type} (m : FrameM A) (Q Q' : A -> Prop) :
  keeps m Q -> (forall a, Q a -> Q' a) -> keeps m Q'.
Proof.
  intros Hm HQ f Hwf. destruct (Hm f Hwf) as (H1 & H2 & H3 & H4).
  split_and!; try assumption. intros a Ha. apply HQ, H4, Ha.
Qed.

Lemma keeps_same {A : Type} (r : res A) (Q : A -> Prop) :
  r <> Err OutOfFuel -> (forall a, r = Ok a -> Q a) -> keeps (fun f => (r, f)) Q.
Proof.
  intros Hr HQ f Hwf. cbn [fst snd].
  split_and!; [exact Hwf | same_step | exact Hr | exact HQ].
Qed.

Lemma keeps_ret {A : Type} (a : A) (Q : A -> Prop) : Q a -> keeps (mret a) Q.
Proof.
  intros HQ. apply (keeps_same (Ok a)); [discriminate|].
  intros a' H. injection H as <-. exact HQ.
Qed.

Lemma keeps_fault {A : Type} (e : Fault) (Q : A -> Prop) :
  e <> OutOfFuel -> keeps (fault e) Q.
Proof.
  intros He. apply (keeps_same (Err e)); [congruence | discriminate].
Qed.

Lemma keeps_throw {A : Type} (e : ErrorCode) (Q : A -> Prop) : keeps (throw e) Q.
Proof. apply keeps_fault. discriminate. Qed.

Lemma keeps_lift {A : Type} (r : res A) (Q : A -> Prop) :
  r <> Err OutOfFuel -> (forall a, r = Ok a -> Q a) -> keeps (lift_res r) Q.
Proof. apply keeps_same. Qed.

Lemma keeps_get : keeps get_frame wf_frame.
Proof.
  intros f Hwf. cbn [get_frame fst snd].
  split_and!; [exact Hwf | same_step | discriminate|].
  intros a H. injection H as <-. exact Hwf.
Qed.

Lemma keeps_stackHeight : keeps stackHeight (fun _ => True).
Proof.
  intros f Hwf. cbn [stackHeight fst snd].
  split_and!; [exact Hwf | same_step | discriminate | trivial].
Qed.

Lemma keeps_require_args (N : nat) : keeps (require_args N) (fun _ => True).
Proof.
  intros f Hwf. destruct (decide (Sp f < N)%nat).
  - rewrite require_args_Err by assumption. cbn [fst snd].
    split_and!; [exact Hwf | same_step | discriminate | trivial].
  - rewrite require_args_Ok by lia. cbn [fst snd].
    split_and!; [exact Hwf | same_step | discriminate | trivial].
Qed.

Lemma keeps_modify (g : EVMFrame -> EVMFrame) :
  (forall f, wf_frame f -> wf_frame (g f) /\ frame_step f (g f)) ->
  keeps (modify_frame g) (fun _ => True).
Proof.
  intros Hg f Hwf. destruct (Hg f Hwf) as [H1 H2]. cbn [modify_frame fst snd].
  split_and!; [exact H1 | exact H2 | discriminate | trivial].
Qed.

Lemma keeps_push (V : UInt256) : wf_word V -> keeps (push V) (fun _ => True).
Proof.
  intros HV f Hwf. pose proof Hwf as (Hlen & HSp & Hwords & Hmem & Hcode).
  destruct (decide (Sp f < MAX_STACK)%nat).
  - rewrite push_Ok by assumption. cbn [fst snd].
    split_and!; [|same_step | discriminate | trivial].
    unfold wf_frame. cbn [Stack Sp Memory Code].
    split_and!; try assumption; try lia.
    + rewrite length_insert. exact Hlen.
    + apply Forall_insert; assumption.
  - rewrite push_Err by lia. cbn [fst snd].
    split_and!; [exact Hwf | same_step | discriminate | trivial].
Qed.

Lemma keeps_pop : keeps pop wf_word.
Proof.
  intros f Hwf. pose proof Hwf as (Hlen & HSp & Hwords & Hmem & Hcode).
  destruct (decide (Sp f = 0)%nat).
  - rewrite pop_Err by assumption. cbn [fst snd].
    split_and!; [exact Hwf | same_step | discriminate | discriminate].
  - rewrite pop_Ok by lia. cbn [fst snd].
    split_and!; [|same_step | discriminate |].
    + unfold wf_frame. cbn [Stack Sp Memory Code set_Sp].
      split_and!; try assumption; lia.
    + intros a H. injection H as <-.
      apply (Forall_lookup_total_1 wf_word _ _ Hwords). lia.
Qed.

Lemma keeps_peek (Index : nat) :
  keeps (peek Index) (fun r => (r < MAX_STACK)%nat).
Proof.
  intros f Hwf. pose proof Hwf as (Hlen & HSp & _).
  unfold peek. erewrite bind_Ok by reflexivity.
  destruct (decide (Index < Sp f)%nat).
  - rewrite bool_decide_eq_true_2 by assumption. cbn [fst snd].
    split_and!; [exact Hwf | same_step | discriminate|].
    intros a H. injection H as <-. lia.
  - rewrite bool_decide_eq_false_2 by assumption. cbn [fst snd].
    split_and!; [exact Hwf | same_step | discriminate | discriminate].
Qed.

Lemma wf_frame_set_Memory (m : list Z) (f : EVMFrame) :
  wf_frame f -> Forall is_byte m -> wf_frame (set_Memory m f).
Proof.
  intros (H1 & H2 & H3 & H4 & H5) Hm. unfold wf_frame.
  cbn [Stack Sp Memory Code set_Memory]. split_and!; assumption.
Qed.

Lemma is_byte_0 : is_byte 0.
Proof. unfold is_byte. lia. Qed.

Lemma keeps_Memory_grow (Need : Z) : keeps (Memory_grow Need) (fun _ => True).
Proof.
  intros f Hwf. destruct (Memory_grow_cases Need f) as [E|(_ & _ & E)];
    rewrite E; cbn [fst snd].
  - split_and!; [|same_step | discriminate | trivial].
    apply wf_frame_set_Memory; [exact Hwf|].
    apply Forall_app. split; [apply Hwf|]. apply Forall_replicate, is_byte_0.
  - split_and!; [exact Hwf | same_step | discriminate | discriminate].
Qed.

Lemma keeps_Memory_store (Index V : Z) :
  is_byte V -> keeps (Memory_store Index V) (fun _ => True).
Proof.
  intros HV f Hwf. unfold Memory_store. erewrite bind_Ok by reflexivity.
  destruct (decide (Index < Memory_size f)); cbn [modify_frame fault fst snd].
  - split_and!; [|same_step | discriminate | trivial].
    apply wf_frame_set_Memory; [exact Hwf|].
    apply Forall_insert; [apply Hwf | exact HV].
  - split_and!; [exact Hwf | same_step | discriminate | discriminate].
Qed.

Lemma keeps_Memory_range (Off Len : Z) :
  keeps (Memory_range Off Len) (Forall is_byte).
Proof.
  intros f Hwf. unfold Memory_range. erewrite bind_Ok by reflexivity.
  destruct (decide (Off + Len <= Memory_size f)); cbn [mret FrameM_ret fault fst snd].
  - split_and!; [exact Hwf | same_step | discriminate|].
    intros a H. injection H as <-. apply Forall_take, Forall_drop, Hwf.
  - split_and!; [exact Hwf | same_step | discriminate | discriminate].
Qed.

Lemma keeps_for_loopF (n : nat) (body : nat -> FrameM unit) :
  (forall i, (i < n)%nat -> keeps (body i) (fun _ => True)) ->
  keeps (for_loopF n body) (fun _ => True).
Proof.
  intros H. induction n as [|n IH].
  - apply keeps_ret. trivial.
  - rewrite for_loopF_S. apply (keeps_bind _ _ (fun _ => True)).
    + apply IH. intros i Hi. apply H. lia.
    + intros _ _. apply H. lia.
Qed.

Lemma MUL_Res_on_words (A B : UInt256) :
  wf_word A -> wf_word B ->
  MUL_Res A B <> Err OutOfFuel /\ forall C, MUL_Res A B = Ok C -> wf_word C.
Proof.
  intros HA HB. destruct (MUL_Res_spec A B HA HB) as (C & Hrun & HC & _).
  rewrite Hrun. split; [discriminate|]. intros C' H. injection H as <-. exact HC.
Qed.

(** A case that pops [B], then [A], and pushes a word made of them. *)
Lemma keeps_binary (op : UInt256 -> UInt256 -> UInt256) :
  (forall A B, wf_word A -> wf_word B -> wf_word (op A B)) ->
  keeps (require_args 2;; B ← pop; A ← pop; push (op A B);; mret Break)
    (fun _ => True).
Proof.
  intros Hop.
  apply (keeps_bind _ _ (fun _ => True)); [apply keeps_require_args|]. intros _ _.
  apply (keeps_bind _ _ wf_word); [apply keeps_pop|]. intros B HB.
  apply (keeps_bind _ _ wf_word); [apply keeps_pop|]. intros A HA.
  apply (keeps_bind _ _ (fun _ => True)); [apply keeps_push, Hop; assumption|].
  intros _ _. apply keeps_ret. trivial.
Qed.

Lemma keeps_case_MUL : keeps case_MUL (fun _ => True).
Proof.
  unfold case_MUL.
  apply (keeps_bind _ _ (fun _ => True)); [apply keeps_require_args|]. intros _ _.
  apply (keeps_bind _ _ wf_word); [apply keeps_pop|]. intros B HB.
  apply (keeps_bind _ _ wf_word); [apply keeps_pop|]. intros A HA.
  apply (keeps_bind _ _ wf_word).
  { apply keeps_lift; apply MUL_Res_on_words; assumption. }
  intros C HC.
  apply (keeps_bind _ _ (fun _ => True)); [apply keeps_push; exact HC|].
  intros _ _. apply keeps_ret. trivial.
Qed.

Lemma keeps_case_POP : keeps case_POP (fun _ => True).
Proof.
  unfold case_POP.
  apply (keeps_bind _ _ (fun _ => True)); [apply keeps_require_args|]. intros _ _.
  apply (keeps_bind _ _ wf_word); [apply keeps_pop|]. intros _ _.
  apply keeps_ret. trivial.
Qed.

Lemma keeps_case_MSTORE : keeps case_MSTORE (fun _ => True).
Proof.
  unfold case_MSTORE.
  apply (keeps_bind _ _ (fun _ => True)); [apply keeps_require_args|]. intros _ _.
  apply (keeps_bind _ _ wf_word); [apply keeps_pop|]. intros OffsetVal _.
  apply (keeps_bind _ _ wf_word); [apply keeps_pop|]. intros Value [HVl HVb].
  cbv zeta.
  apply (keeps_bind _ _ (fun _ => True)); [apply keeps_Memory_grow|]. intros _ _.
  apply (keeps_bind _ _ (fun _ => True)); [|intros _ _; apply keeps_ret; trivial].
  apply keeps_for_loopF. intros i Hi. apply keeps_Memory_store.
  apply (is_byte_lookup _ _ HVb). lia.
Qed.

Lemma keeps_case_RETURN : keeps case_RETURN (fun _ => True).
Proof.
  unfold case_RETURN.
  apply (keeps_bind _ _ (fun _ => True)); [apply keeps_require_args|]. intros _ _.
  apply (keeps_bind _ _ wf_word); [apply keeps_pop|]. intros OffsetVal _.
  apply (keeps_bind _ _ wf_word); [apply keeps_pop|]. intros SizeVal _.
  cbv zeta.
  apply (keeps_bind _ _ (fun _ => True)); [apply keeps_Memory_grow|]. intros _ _.
  apply (keeps_bind _ _ (Forall is_byte)); [apply keeps_Memory_range|]. intros Ret _.
  apply keeps_ret. trivial.
Qed.

Lemma keeps_case_DUP (Op : Z) : keeps (case_DUP Op) (fun _ => True).
Proof.
  unfold case_DUP. cbv zeta.
  apply (keeps_bind _ _ (fun _ => True)); [apply keeps_stackHeight|]. intros h _.
  destruct (decide (h < Z.to_nat (uint8_t (Op - 127)))%nat); [apply keeps_throw|].
  apply (keeps_bind _ _ (fun r => (r < MAX_STACK)%nat)); [apply keeps_peek|].
  intros r Hr.
  apply (keeps_bind _ _ wf_frame); [apply keeps_get|]. intros g Hg.
  apply (keeps_bind _ _ (fun _ => True)); [|intros _ _; apply keeps_ret; trivial].
  apply keeps_push. destruct Hg as (Hlen & _ & Hwords & _).
  apply (Forall_lookup_total_1 wf_word _ _ Hwords). lia.
Qed.

Lemma keeps_case_SWAP (Op : Z) : keeps (case_SWAP Op) (fun _ => True).
Proof.
  unfold case_SWAP. cbv zeta.
  apply (keeps_bind _ _ (fun _ => True)); [apply keeps_stackHeight|]. intros h _.
  destruct (decide (h <= Z.to_nat (uint8_t (Op - 143)))%nat); [apply keeps_throw|].
  apply (keeps_bind _ _ (fun r => (r < MAX_STACK)%nat)); [apply keeps_peek|].
  intros Top HTop.
  apply (keeps_bind _ _ (fun r => (r < MAX_STACK)%nat)); [apply keeps_peek|].
  intros Nth HNth.
  apply (keeps_bind _ _ (fun _ => True)); [|intros _ _; apply keeps_ret; trivial].
  apply keeps_modify. intros g (Hlen & HSp & Hwords & Hmem & Hcode).
  split; [|same_step].
  unfold wf_frame. cbn [Stack Sp Memory Code set_Stack].
  split_and!; try assumption.
  - rewrite !length_insert. exact Hlen.
  - apply Forall_insert; [apply Forall_insert; [exact Hwords|]|];
      apply (Forall_lookup_total_1 wf_word _ _ Hwords); lia.
Qed.

Lemma wf_word_PUSH (f : EVMFrame) (n : nat) :
  wf_frame f -> (n <= 32)%nat -> (Pc f + n <= length (Code f))%nat ->
  wf_word (mkUInt256 (rev (take n (drop (Pc f) (Code f))) ++ replicate (32 - n) 0)).
Proof.
  intros (_ & _ & _ & _ & Hcode) Hn Hfit. split; cbn [Bytes].
  - rewrite length_app, length_rev, length_take, length_drop, length_replicate. lia.
  - apply Forall_app. split; [|apply Forall_replicate, is_byte_0].
    apply List.Forall_rev, Forall_take, Forall_drop, Hcode.
Qed.

Lemma keeps_PUSH (Op : Z) : 0x60 <= Op <= 0x7F -> keeps (dispatch Op) (fun _ => True).
Proof.
  intros HOp f Hwf. pose proof Hwf as (Hlen & HSp & Hwords & Hmem & Hcode).
  set (n := Z.to_nat (Op - 0x5F)).
  destruct (decide (CodeEnd f < Pc f + n)%nat) as [Hend|Hfit].
  { rewrite case_PUSH_UnexpectedEnd by assumption. cbn [fst snd].
    split_and!; [exact Hwf | same_step | discriminate | trivial]. }
  assert (frame_step f (set_Pc (Pc f + n) f)) as Hstep.
  { unfold frame_step, CodeEnd in *. cbn [Code GasLeft Pc set_Pc].
    split_and!; try reflexivity; lia. }
  destruct (decide (Sp f < MAX_STACK)%nat) as [Hroom|Hfull].
  - rewrite case_PUSH_Ok by (try assumption; fold n; lia). fold n. cbn [fst snd].
    split_and!; [|exact Hstep | discriminate | trivial].
    unfold wf_frame. cbn [Stack Sp Memory Code].
    split_and!; try assumption; try lia.
    + rewrite length_insert. exact Hlen.
    + apply Forall_insert; [exact Hwords|].
      apply wf_word_PUSH; [exact Hwf | subst n; lia | unfold CodeEnd in Hfit; lia].
  - rewrite case_PUSH_full by (try assumption; fold n; lia). fold n. cbn [fst snd].
    split_and!; [|exact Hstep | discriminate | trivial].
    unfold wf_frame. cbn [Stack Sp Memory Code set_Pc]. split_and!; assumption.
Qed.

Lemma keeps_dispatch (Op : Z) : keeps (dispatch Op) (fun _ => True).
Proof.
  destruct (decide (0x60 <= Op <= 0x7F)) as [HP|HnP]; [apply keeps_PUSH; exact HP|].
  unfold dispatch.
  destruct (Op =? Opcode.STOP); [apply keeps_ret; trivial|].
  destruct (Op =? Opcode.ADD).
  { apply keeps_binary. intros A B HA HB. apply addUInt256_wf; assumption. }
  destruct (Op =? Opcode.SUB).
  { apply keeps_binary. intros A B HA HB. apply SUB_Res_wf; assumption. }
  destruct (Op =? Opcode.MUL); [apply keeps_case_MUL|].
  destruct (Op =? Opcode.POP); [apply keeps_case_POP|].
  destruct (Op =? Opcode.MSTORE); [apply keeps_case_MSTORE|].
  destruct (Op =? Opcode.RETURN); [apply keeps_case_RETURN|].
  cbv zeta.
  destruct (Z.leb_spec 0x60 (uint8_t Op)), (Z.leb_spec (uint8_t Op) 0x7F); cbn [andb].
  { rewrite <- dispatch_PUSH by lia. apply keeps_PUSH. lia. }
  all: destruct ((0x80 <=? uint8_t Op) && (uint8_t Op <=? 0x8F));
    [apply keeps_case_DUP|].
  all: destruct ((0x90 <=? uint8_t Op) && (uint8_t Op <=? 0x9F));
    [apply keeps_case_SWAP | apply keeps_throw].
Qed.

(** X12. Whatever the opcode and however the case ends, a well-formed
    frame stays well-formed: the stack keeps its 1024 slots and a height of
    at most 1024, its words stay 32 bytes long, the memory holds bytes. The
    code and the gas counter are not changed, [Pc] only moves forward and
    not past [CodeEnd], and no loop of a case runs out of its fuel. *)
Theorem dispatch_keeps_frame (Op : Z) (f : EVMFrame) :
  wf_frame f ->
  wf_frame (dispatch Op f).2 /\
  Code (dispatch Op f).2 = Code f /\
  GasLeft (dispatch Op f).2 = GasLeft f /\
  (Pc f <= Pc (dispatch Op f).2)%nat /\
  (Pc (dispatch Op f).2 <= Pc f `max` CodeEnd f)%nat /\
  (dispatch Op f).1 <> Err OutOfFuel.
Proof.
  intros Hwf.
  destruct (keeps_dispatch Op f Hwf) as (H1 & (H2 & H3 & H4 & H5) & H6 & _).
  split_and!; assumption.
Qed.

Lemma dispatch_keeps_frame_witness :
  wf_frame mul_frame /\ wf_frame (dispatch Opcode.MUL mul_frame).2 /\
  (dispatch Opcode.MUL mul_frame).1 <> Err OutOfFuel.
Proof.
  assert (wf_frame mul_frame) as Hwf by by_evaluation.
  split; [exact Hwf|].
  destruct (dispatch_keeps_frame Opcode.MUL mul_frame Hwf) as (H1 & _ & _ & _ & _ & H6).
  split; [exact H1 | exact H6].
Defined.

(** ** The interpreter loop ends *)

Lemma iterations_cons (f : EVMFrame) (Prev : list EVMFrame) (RD RD' : list Z) :
  iterations (mkContext (f :: Prev) RD)
  = (S (CodeEnd f - Pc f) + iterations (mkContext Prev RD'))%nat.
Proof. unfold iterations. cbn [Frames foldr]. lia. Qed.

Lemma wf_frame_set_Pc (pc : nat) (f : EVMFrame) :
  wf_frame f -> wf_frame (set_Pc pc f).
Proof. intros H. exact H. Qed.

(** What one iteration does to a well-formed context: it stays well-formed;
    the fault, if any, is not the exhaustion of fuel; an exit leaves no
    frame; and when the loop goes on there is a frame and fewer iterations
    are left. *)
Lemma step_progress (ctx : InterpreterExecContext) :
  wf_context ctx ->
  match step ctx with
  | Running ctx' =>
      wf_context ctx' /\ (iterations ctx' < iterations ctx)%nat
  | Exited _ ctx' => Frames ctx' = []
  | Faulted e ctx' => e <> OutOfFuel /\ wf_context ctx'
  end.
Proof.
  intros Hwf. destruct ctx as [[|f Prev] RD]; unfold step; cbn [Frames ReturnData].
  { split; [discriminate | exact Hwf]. }
  unfold wf_context in Hwf. cbn [Frames] in Hwf.
  inversion Hwf as [|? ? Hf HPrev]; subst.
  assert (forall e g RD',
            match end_frame e (mkContext (g :: Prev) RD') with
            | Running ctx' =>
                wf_context ctx' /\
                (iterations ctx' < S (CodeEnd g - Pc g)
                                   + iterations (mkContext Prev RD))%nat
            | Exited _ ctx' => Frames ctx' = []
            | Faulted e ctx' => e <> OutOfFuel /\ wf_context ctx'
            end) as Hend.
  { intros e g RD'. unfold end_frame, freeFrame, getCurFrame. cbn [Frames ReturnData].
    destruct Prev as [|p Prev']; cbn [head]; [reflexivity|].
    split; [exact HPrev|]. unfold iterations. cbn [Frames]. lia. }
  destruct (decide (CodeEnd f <= Pc f)%nat) as [Hend'|Hmore].
  { specialize (Hend Halted_CodeEnd f RD).
    rewrite (iterations_cons f Prev RD RD).
    destruct (end_frame Halted_CodeEnd (mkContext (f :: Prev) RD)); exact Hend. }
  destruct (keeps_dispatch (Code f !!! Pc f) (set_Pc (S (Pc f)) f)
              (wf_frame_set_Pc _ f Hf))
    as (Hwf' & (HC & _ & HP1 & HP2) & Hfuel & _).
  destruct (dispatch (Code f !!! Pc f) (set_Pc (S (Pc f)) f)) as [[a|e] f'];
    cbn [fst snd] in *.
  - assert (CodeEnd f' - Pc f' < CodeEnd f - Pc f)%nat as Hless.
    { unfold CodeEnd in *. rewrite HC. cbn [Code Pc set_Pc] in *. lia. }
    destruct a as [| |Ret].
    + split; [constructor; assumption|].
      rewrite (iterations_cons f Prev RD RD), (iterations_cons f' Prev RD RD). lia.
    + specialize (Hend Halted_STOP f' RD).
      rewrite (iterations_cons f Prev RD RD).
      destruct (end_frame Halted_STOP (mkContext (f' :: Prev) RD));
        [|exact Hend | exact Hend].
      destruct Hend as [H1 H2]. split; [exact H1 | lia].
    + specialize (Hend Returned f' Ret).
      rewrite (iterations_cons f Prev RD RD).
      destruct (end_frame Returned (mkContext (f' :: Prev) Ret));
        [|exact Hend | exact Hend].
      destruct Hend as [H1 H2]. split; [exact H1 | lia].
  - split; [intros ->; apply Hfuel; reflexivity|]. constructor; assumption.
Qed.

Lemma iterations_pos (ctx : InterpreterExecContext) : (0 < iterations ctx)%nat.
Proof. unfold iterations. lia. Qed.

Lemma interpret_loop_enough (n : nat) : forall ctx,
  wf_context ctx -> (iterations ctx <= n)%nat ->
  (forall k, interpret_loop (n + k) ctx = interpret_loop n ctx) /\
  match interpret_loop n ctx with
  | Running _ => False
  | Exited _ ctx' => Frames ctx' = []
  | Faulted e ctx' => e <> OutOfFuel /\ wf_context ctx'
  end.
Proof.
  induction n as [|n IH]; intros ctx Hwf Hn.
  { pose proof (iterations_pos ctx). lia. }
  pose proof (step_progress ctx Hwf) as Hstep.
  cbn [interpret_loop Nat.add].
  destruct (step ctx) as [ctx'|e ctx'|e ctx'].
  - destruct Hstep as [Hwf' Hless]. apply IH; [exact Hwf' | lia].
  - split; [reflexivity | exact Hstep].
  - split; [reflexivity | exact Hstep].
Qed.

(** X13. On a context whose frames are well-formed the loop of [interpret]
    always ends: the bound [iterations] is never used up (more fuel gives
    the same outcome), so the run either leaves through one of the three
    [return] statements, with no frame left, or stops at a fault that is a
    thrown error code, a violated assertion, an access out of bounds or the
    [std::length_error] of a [resize]. *)
Theorem interpret_terminates (ctx : InterpreterExecContext) :
  wf_context ctx ->
  (forall k, interpret_loop (iterations ctx + k) ctx = interpret ctx) /\
  match interpret ctx with
  | Running _ => False
  | Exited _ ctx' => Frames ctx' = []
  | Faulted e ctx' => e <> OutOfFuel /\ wf_context ctx'
  end.
Proof.
  intros Hwf. unfold interpret.
  apply interpret_loop_enough; [exact Hwf | lia].
Qed.

Lemma wf_context_alloc (code : list Z) :
  Forall is_byte code -> wf_context (allocFrame (Some code) empty_context).
Proof.
  intros Hcode. unfold wf_context, allocFrame. cbn [Frames empty_context default].
  constructor; [|constructor]. unfold wf_frame. cbn [Stack Sp Memory Code].
  split_and!; try assumption.
  - apply length_replicate.
  - unfold MAX_STACK. lia.
  - apply Forall_replicate, wf_word_zero.
  - constructor.
Qed.

Lemma interpret_terminates_witness :
  wf_context (allocFrame (Some add_and_return_code) empty_context) /\
  interpret_loop (iterations (allocFrame (Some add_and_return_code) empty_context) + 7)
    (allocFrame (Some add_and_return_code) empty_context)
  = interpret (allocFrame (Some add_and_return_code) empty_context).
Proof.
  assert (wf_context (allocFrame (Some add_and_return_code) empty_context)) as Hwf.
  { apply wf_context_alloc. by_evaluation. }
  split; [exact Hwf|].
  destruct (interpret_terminates _ Hwf) as [Hfuel _]. exact (Hfuel 7%nat).
Defined.

(** ** Which opcodes end the invocation *)

Lemma returns_bind {A B : Type} (P : B -> Prop) (m : FrameM A) (k : A -> FrameM B) :
  (forall a, returns P (k a)) -> returns P (m ≫= k).
Proof.
  intros Hk f b f' H. unfold mbind, FrameM_bind in H.
  destruct (m f) as [[a|e] f0]; [exact (Hk a f0 b f' H) | discriminate].
Qed.

Lemma returns_ret {A : Type} (P : A -> Prop) (a : A) : P a -> returns P (mret a).
Proof. intros HP f a' f' H. injection H as <- _. exact HP. Qed.

Lemma returns_throw {A : Type} (P : A -> Prop) (e : ErrorCode) : returns P (throw e).
Proof. intros f a f' H. discriminate. Qed.

(** Breaks a case into its steps down to the action it ends with. *)
Ltac returns_steps :=
  repeat first
    [ apply returns_throw
    | apply returns_ret; reflexivity
    | match goal with |- returns _ (if ?c then _ else _) => destruct c end
    | match goal with |- returns _ (_ ≫= _) => apply returns_bind; intros ? end ].

Lemma returns_Break_cases :
  returns (eq Break) case_ADD /\ returns (eq Break) case_SUB /\
  returns (eq Break) case_MUL /\ returns (eq Break) case_POP /\
  returns (eq Break) case_MSTORE /\
  (forall Op, returns (eq Break) (case_PUSH Op)) /\
  (forall Op, returns (eq Break) (case_DUP Op)) /\
  (forall Op, returns (eq Break) (case_SWAP Op)).
Proof.
  split_and!;
    [ | | | | | intros Op | intros Op | intros Op ];
    unfold case_ADD, case_SUB, case_MUL, case_POP, case_MSTORE, case_PUSH,
      case_DUP, case_SWAP; cbv zeta; returns_steps.
Qed.

Lemma returns_case_RETURN :
  returns (fun a => exists Ret, a = EndRETURN Ret) case_RETURN.
Proof.
  unfold case_RETURN. cbv zeta.
  do 5 (apply returns_bind; intros ?).
  apply returns_ret. eexists. reflexivity.
Qed.

(** The action a case ends with, by opcode. *)
Lemma dispatch_action (Op : Z) (f f' : EVMFrame) (a : Action) :
  dispatch Op f = (Ok a, f') ->
  match a with
  | EndSTOP => Op = Opcode.STOP /\ f' = f
  | EndRETURN _ => Op = Opcode.RETURN
  | Break => Op <> Opcode.STOP /\ Op <> Opcode.RETURN
  end.
Proof.
  destruct returns_Break_cases as (HADD & HSUB & HMUL & HPOP & HMSTORE & HPUSH & HDUP & HSWAP).
  unfold dispatch.
  destruct (Z.eqb_spec Op Opcode.STOP) as [->|H0].
  { intros H. injection H as <- <-. split; reflexivity. }
  assert (forall m : FrameM Action, returns (eq Break) m -> Op <> Opcode.RETURN ->
            m f = (Ok a, f') ->
            match a with
            | EndSTOP => Op = Opcode.STOP /\ f' = f
            | EndRETURN _ => Op = Opcode.RETURN
            | Break => Op <> Opcode.STOP /\ Op <> Opcode.RETURN
            end) as Hbreak.
  { intros m Hm HR H. rewrite <- (Hm f a f' H). split; assumption. }
  destruct (Z.eqb_spec Op Opcode.ADD) as [->|?]; [apply Hbreak; [exact HADD | discriminate]|].
  destruct (Z.eqb_spec Op Opcode.SUB) as [->|?]; [apply Hbreak; [exact HSUB | discriminate]|].
  destruct (Z.eqb_spec Op Opcode.MUL) as [->|?]; [apply Hbreak; [exact HMUL | discriminate]|].
  destruct (Z.eqb_spec Op Opcode.POP) as [->|?]; [apply Hbreak; [exact HPOP | discriminate]|].
  destruct (Z.eqb_spec Op Opcode.MSTORE) as [->|?];
    [apply Hbreak; [exact HMSTORE | discriminate]|].
  destruct (Z.eqb_spec Op Opcode.RETURN) as [->|HR].
  { intros H. destruct (returns_case_RETURN f a f' H) as [Ret ->]. reflexivity. }
  cbv zeta.
  destruct ((0x60 <=? uint8_t Op) && (uint8_t Op <=? 0x7F));
    [apply Hbreak; [apply HPUSH | exact HR]|].
  destruct ((0x80 <=? uint8_t Op) && (uint8_t Op <=? 0x8F));
    [apply Hbreak; [apply HDUP | exact HR]|].
  destruct ((0x90 <=? uint8_t Op) && (uint8_t Op <=? 0x9F));
    [apply Hbreak; [apply HSWAP | exact HR]|].
  intros H. discriminate.
Qed.

(** X14. Only STOP and RETURN end the invocation of a frame: a case that
    ends without a fault asks for the frame to be freed exactly when the
    opcode is STOP (whose case leaves the frame untouched) or RETURN (the
    only case that yields return data); every other opcode goes on with
    the next iteration. *)
Theorem action_of_opcode (Op : Z) (f f' : EVMFrame) (a : Action) :
  dispatch Op f = (Ok a, f') ->
  match a with
  | EndSTOP => Op = Opcode.STOP /\ f' = f
  | EndRETURN _ => Op = Opcode.RETURN
  | Break => Op <> Opcode.STOP /\ Op <> Opcode.RETURN
  end.
Proof.
  intros H. pose proof (dispatch_action Op f f' a H) as Ha.
  destruct a as [| |Ret]; exact Ha.
Qed.

Lemma action_of_opcode_witness :
  dispatch Opcode.RETURN return_frame
  = (Ok (EndRETURN [0]), (dispatch Opcode.RETURN return_frame).2) /\
  Opcode.RETURN = Opcode.RETURN.
Proof.
  assert (dispatch Opcode.RETURN return_frame
          = (Ok (EndRETURN [0]), (dispatch Opcode.RETURN return_frame).2)) as H
    by (vm_compute; reflexivity).
  split; [exact H|].
  exact (action_of_opcode Opcode.RETURN return_frame _ (EndRETURN [0]) H).
Defined.

(** ** The return data *)

(** X15. One iteration of the loop changes the return data of the context
    only when the opcode it fetches is RETURN: faults, STOP, the end of the
    code and all other opcodes leave the buffer as it was. *)
Theorem ReturnData_only_by_RETURN (ctx : InterpreterExecContext) :
  ReturnData (context_of (step ctx)) = ReturnData ctx \/
  exists f Prev, Frames ctx = f :: Prev /\ (Pc f < CodeEnd f)%nat /\
                 Code f !!! Pc f = Opcode.RETURN.
Proof.
  destruct ctx as [[|f Prev] RD]; unfold step; cbn [Frames ReturnData].
  { left. reflexivity. }
  assert (forall e g, ReturnData (context_of (end_frame e (mkContext (g :: Prev) RD))) = RD)
    as Hend.
  { intros e g. unfold end_frame, freeFrame, getCurFrame. cbn [Frames ReturnData].
    destruct Prev; reflexivity. }
  destruct (decide (CodeEnd f <= Pc f)%nat) as [Hdone|Hmore]; [left; apply Hend|].
  destruct (dispatch (Code f !!! Pc f) (set_Pc (S (Pc f)) f)) as [[a|e] f'] eqn:E;
    [|left; reflexivity].
  pose proof (dispatch_action _ _ _ _ E) as Ha.
  destruct a as [| |Ret]; [left; reflexivity | left; apply Hend|].
  right. exists f, Prev. split_and!; [reflexivity | lia | exact Ha].
Qed.

(** ** STOP, the end of the code, and the chain of frames *)

(** X16. Running off the end of the code is an implicit STOP. In both
    situations the iteration frees the current frame and touches neither
    the return data nor the caller: with a caller the loop goes on in the
    caller's frame as it was left, without one [interpret] returns. The two
    differ in the [return] statement that is taken only. *)
Theorem STOP_and_code_end (f : EVMFrame) (Prev : list EVMFrame) (RD : list Z) :
  ((CodeEnd f <= Pc f)%nat ->
     step (mkContext (f :: Prev) RD)
     = match Prev with
       | [] => Exited Halted_CodeEnd (mkContext [] RD)
       | _ => Running (mkContext Prev RD)
       end) /\
  ((Pc f < CodeEnd f)%nat -> Code f !!! Pc f = Opcode.STOP ->
     step (mkContext (f :: Prev) RD)
     = match Prev with
       | [] => Exited Halted_STOP (mkContext [] RD)
       | _ => Running (mkContext Prev RD)
       end) /\
  interpret (allocFrame (Some []) empty_context)
  = Exited Halted_CodeEnd empty_context /\
  interpret (allocFrame None empty_context) = Exited Halted_CodeEnd empty_context.
Proof.
  split_and!.
  - intros Hend. unfold step. cbn [Frames].
    destruct (decide (CodeEnd f <= Pc f)%nat); [|lia].
    unfold end_frame, freeFrame, getCurFrame. cbn [Frames ReturnData].
    destruct Prev; reflexivity.
  - intros Hmore HOp. unfold step. cbn [Frames].
    destruct (decide (CodeEnd f <= Pc f)%nat); [lia|].
    rewrite HOp. change (dispatch Opcode.STOP) with (mret (M := FrameM) EndSTOP).
    cbn [mret FrameM_ret].
    unfold end_frame, freeFrame, getCurFrame. cbn [Frames ReturnData].
    destruct Prev; reflexivity.
  - reflexivity.
  - reflexivity.
Qed.

(** X17. [freeFrame] undoes [allocFrame]: the context is the one before the
    allocation, and freeing with no frame is a no-op. The frame allocated
    is the current one; it starts at the beginning of its code with an
    empty stack, an empty memory and no gas, is well-formed when the code
    consists of bytes, and the frame that was current is its caller. *)
Theorem allocFrame_freeFrame (FuncInst : option (list Z)) (ctx : InterpreterExecContext) :
  freeFrame (allocFrame FuncInst ctx) = ctx /\
  (Frames ctx = [] -> freeFrame ctx = ctx) /\
  (exists f, allocFrame FuncInst ctx = mkContext (f :: Frames ctx) (ReturnData ctx) /\
             getCurFrame (allocFrame FuncInst ctx) = Some f /\
             Code f = default [] FuncInst /\ Pc f = 0%nat /\ Sp f = 0%nat /\
             live_stack f = [] /\ Memory f = [] /\ GasLeft f = 0 /\
             (Forall is_byte (default [] FuncInst) -> wf_frame f)).
Proof.
  split_and!.
  - destruct ctx; reflexivity.
  - intros H. unfold freeFrame. rewrite H. reflexivity.
  - eexists. split; [reflexivity|]. split; [reflexivity|].
    cbn [Code Pc Sp Memory GasLeft].
    split_and!; try reflexivity.
    intros Hcode. unfold wf_frame. cbn [Stack Sp Memory Code].
    split_and!; try assumption.
    + apply length_replicate.
    + unfold MAX_STACK. lia.
    + apply Forall_replicate, wf_word_zero.
    + constructor.
Qed.

(** X18. An iteration that fetches RETURN on a well-formed frame with the
    offset on top and the size below, [Off + Len < 2^64]. Where the memory
    holds [Off + Len] bytes already, or [Off + Len] is at most
    [vector_max_size]: the [Len] bytes of the memory from [Off] on, zero
    where the memory was shorter, become the return data of the context,
    replacing the old ones; the frame is freed; with a caller the loop goes
    on in the caller's frame, without one [interpret] returns through the
    [return] of the RETURN case. Where the memory is shorter than
    [Off + Len] and [Off + Len] exceeds [vector_max_size]: [resize] throws
    [std::length_error]; the frame, its two operands popped, is still the
    current one and the return data are the old ones. *)
Theorem RETURN_step (f : EVMFrame) (Prev : list EVMFrame) (RD : list Z)
    (OffsetVal SizeVal : UInt256) (rest : list UInt256) :
  wf_frame f -> (Pc f < CodeEnd f)%nat -> Code f !!! Pc f = Opcode.RETURN ->
  live_stack f = OffsetVal :: SizeVal :: rest ->
  low64 OffsetVal + low64 SizeVal < 2 ^ 64 ->
  let Off := Z.to_nat (low64 OffsetVal) in
  let Len := Z.to_nat (low64 SizeVal) in
  let Ret := take Len (drop Off (Memory f ++ replicate (Off + Len - length (Memory f)) 0)) in
  length Ret = Len /\
  (low64 OffsetVal + low64 SizeVal <= Memory_size f \/
   low64 OffsetVal + low64 SizeVal <= vector_max_size ->
   step (mkContext (f :: Prev) RD)
   = match Prev with
     | [] => Exited Returned (mkContext [] Ret)
     | _ => Running (mkContext Prev Ret)
     end) /\
  (Memory_size f < low64 OffsetVal + low64 SizeVal ->
   vector_max_size < low64 OffsetVal + low64 SizeVal ->
   step (mkContext (f :: Prev) RD)
   = Faulted LengthError
       (mkContext (set_Sp (Sp f - 2) (set_Pc (S (Pc f)) f) :: Prev) RD)).
Proof.
  intros Hwf Hmore HOp Hlive Hfit Off Len Ret.
  destruct (two_operands f OffsetVal SizeVal rest Hwf Hlive)
    as (_ & _ & _ & _ & HwO & HwS).
  pose proof (low64_range OffsetVal HwO) as HrO.
  pose proof (low64_range SizeVal HwS) as HrS.
  split_and!.
  - subst Ret. rewrite length_take, length_drop, length_app, length_replicate. lia.
  - intros Hroom.
    pose proof (case_RETURN_Ok (set_Pc (S (Pc f)) f) OffsetVal SizeVal rest
                  (wf_frame_set_Pc _ f Hwf) Hlive Hfit Hroom) as Hrun.
    cbn [Memory set_Pc] in Hrun. fold Off Len in Hrun. fold Ret in Hrun.
    unfold step. cbn [Frames ReturnData].
    destruct (decide (CodeEnd f <= Pc f)%nat); [lia|].
    rewrite HOp, Hrun.
    unfold end_frame, freeFrame, getCurFrame. cbn [Frames ReturnData].
    destruct Prev; reflexivity.
  - intros Hshort Hbig.
    pose proof (case_RETURN_LengthError (set_Pc (S (Pc f)) f) OffsetVal SizeVal rest
                  (wf_frame_set_Pc _ f Hwf) Hlive Hfit Hshort Hbig) as Hrun.
    unfold step. cbn [Frames ReturnData].
    destruct (decide (CodeEnd f <= Pc f)%nat); [lia|].
    rewrite HOp, Hrun. reflexivity.
Qed.

Lemma RETURN_step_witness :
  (wf_frame return_frame /\
   step (mkContext [return_frame] [7; 7]) = Exited Returned (mkContext [] [0])) /\
  (wf_frame return_huge_frame /\
   step (mkContext [return_huge_frame] [7; 7])
   = Faulted LengthError
       (mkContext [set_Sp 0 (set_Pc 1 return_huge_frame)] [7; 7])).
Proof.
  split.
  - assert (wf_frame return_frame) as Hwf by by_evaluation.
    split; [exact Hwf|].
    destruct (RETURN_step return_frame [] [7; 7] (word_of_Z 0) (word_of_Z 1) [] Hwf)
      as (_ & Hstep & _); [vm_compute; lia | reflexivity | vm_compute; reflexivity
                          | vm_compute; reflexivity |].
    rewrite Hstep by (right; by_evaluation). vm_compute. reflexivity.
  - assert (wf_frame return_huge_frame) as Hwf by by_evaluation.
    split; [exact Hwf|].
    destruct (RETURN_step return_huge_frame [] [7; 7] (word_of_Z 0)
                (word_of_Z (2 ^ 63)) [] Hwf)
      as (_ & _ & Hstep); [vm_compute; lia | reflexivity | vm_compute; reflexivity
                          | vm_compute; reflexivity |].
    rewrite Hstep by by_evaluation. reflexivity.
Defined.

(** ** The algebra of the three operations *)

(** A well-formed word is the result of the addition when it has the
    value of the sum; likewise for the other two operations. *)
Lemma addUInt256_eq (A B D : UInt256) :
  wf_word A -> wf_word B -> wf_word D ->
  word_value D = (word_value A + word_value B) mod 2 ^ 256 ->
  addUInt256 A B = D.
Proof.
  intros HA HB HD Hv. apply word_value_inj; [apply addUInt256_wf; assumption | exact HD|].
  rewrite addUInt256_value by assumption. symmetry. exact Hv.
Qed.

Lemma SUB_Res_eq (A B D : UInt256) :
  wf_word A -> wf_word B -> wf_word D ->
  word_value D = (word_value A - word_value B) mod 2 ^ 256 ->
  SUB_Res A B = D.
Proof.
  intros HA HB HD Hv. apply word_value_inj; [apply SUB_Res_wf; assumption | exact HD|].
  rewrite SUB_Res_value by assumption. symmetry. exact Hv.
Qed.

Lemma MUL_Res_eq (A B D : UInt256) :
  wf_word A -> wf_word B -> wf_word D ->
  word_value D = (word_value A * word_value B) mod 2 ^ 256 ->
  MUL_Res A B = Ok D.
Proof.
  intros HA HB HD Hv. destruct (MUL_Res_spec A B HA HB) as (C & Hrun & HC & HvC).
  rewrite Hrun. f_equal. apply word_value_inj; [exact HC | exact HD | congruence].
Qed.

Lemma wf_word_0_1 : wf_word (word_of_Z 0) /\ wf_word (word_of_Z 1).
Proof. split; by_evaluation. Qed.

Lemma word_value_0_1 : word_value (word_of_Z 0) = 0 /\ word_value (word_of_Z 1) = 1.
Proof. split; vm_compute; reflexivity. Qed.

(** X19. On 256-bit words [addUInt256] is associative and has the zero
    word as its neutral element, and the subtraction of the SUB case
    undoes it on either side: [A - A] is zero, [A - 0] is [A], and adding
    [B] to [A - B] gives [A] back. *)
Theorem add_sub_laws (A B C : UInt256) :
  wf_word A -> wf_word B -> wf_word C ->
  addUInt256 (addUInt256 A B) C = addUInt256 A (addUInt256 B C) /\
  addUInt256 A (word_of_Z 0) = A /\
  addUInt256 (word_of_Z 0) A = A /\
  SUB_Res A A = word_of_Z 0 /\
  SUB_Res A (word_of_Z 0) = A /\
  addUInt256 (SUB_Res A B) B = A.
Proof.
  intros HA HB HC.
  destruct wf_word_0_1 as [H0 _]. destruct word_value_0_1 as [Hv0 _].
  pose proof (word_value_bounds A HA) as HrA.
  pose proof (addUInt256_wf A B HA HB) as HAB.
  pose proof (addUInt256_wf B C HB HC) as HBC.
  pose proof (SUB_Res_wf A B HA HB) as HSAB.
  split_and!.
  - apply addUInt256_eq; [exact HAB | exact HC | apply addUInt256_wf; assumption|].
    rewrite !addUInt256_value by assumption.
    rewrite Zplus_mod_idemp_l, Zplus_mod_idemp_r. f_equal. lia.
  - apply addUInt256_eq; try assumption.
    rewrite Hv0, Z.add_0_r, Z.mod_small by lia. reflexivity.
  - apply addUInt256_eq; try assumption.
    rewrite Hv0, Z.add_0_l, Z.mod_small by lia. reflexivity.
  - apply SUB_Res_eq; try assumption.
    rewrite Hv0, Z.sub_diag. reflexivity.
  - apply SUB_Res_eq; try assumption.
    rewrite Hv0, Z.sub_0_r, Z.mod_small by lia. reflexivity.
  - apply addUInt256_eq; try assumption.
    rewrite SUB_Res_value by assumption.
    rewrite Zplus_mod_idemp_l.
    replace (word_value A - word_value B + word_value B) with (word_value A) by lia.
    rewrite Z.mod_small by lia. reflexivity.
Qed.

Lemma add_sub_laws_witness :
  wf_word (word_of_Z 5) /\ wf_word (word_of_Z (2 ^ 256 - 1)) /\
  addUInt256 (SUB_Res (word_of_Z 5) (word_of_Z (2 ^ 256 - 1))) (word_of_Z (2 ^ 256 - 1))
  = word_of_Z 5.
Proof.
  destruct wf_word_of_Z_examples as (H5 & H3 & Hmax & _).
  split; [exact H5|]. split; [exact Hmax|].
  destruct (add_sub_laws (word_of_Z 5) (word_of_Z (2 ^ 256 - 1)) (word_of_Z 3) H5 Hmax H3)
    as (_ & _ & _ & _ & _ & Hinv).
  exact Hinv.
Defined.

(** X20. On 256-bit words the multiplication of the MUL case is
    commutative and associative (the truncation to 256 bits does not
    disturb it), the word 1 is its neutral element and the zero word
    annihilates. *)
Theorem MUL_laws (A B C : UInt256) :
  wf_word A -> wf_word B -> wf_word C ->
  MUL_Res A B = MUL_Res B A /\
  (forall AB BC, MUL_Res A B = Ok AB -> MUL_Res B C = Ok BC ->
     MUL_Res AB C = MUL_Res A BC /\ exists D, MUL_Res AB C = Ok D) /\
  MUL_Res A (word_of_Z 1) = Ok A /\
  MUL_Res A (word_of_Z 0) = Ok (word_of_Z 0).
Proof.
  intros HA HB HC.
  destruct wf_word_0_1 as [H0 H1]. destruct word_value_0_1 as [Hv0 Hv1].
  pose proof (word_value_bounds A HA) as HrA.
  split_and!.
  - destruct (MUL_Res_spec B A HB HA) as (D & Hrun & HD & HvD).
    rewrite Hrun. apply MUL_Res_eq; try assumption.
    rewrite HvD. f_equal. lia.
  - intros AB BC HAB HBC.
    destruct (MUL_Res_spec A B HA HB) as (AB' & Hrun1 & HwAB & HvAB).
    destruct (MUL_Res_spec B C HB HC) as (BC' & Hrun2 & HwBC & HvBC).
    assert (AB' = AB) as -> by congruence. assert (BC' = BC) as -> by congruence.
    destruct (MUL_Res_spec A BC HA HwBC) as (D & Hrun & HD & HvD).
    rewrite Hrun. split; [|exists D].
    all: apply MUL_Res_eq; try assumption.
    all: rewrite HvD, HvBC, HvAB.
    all: rewrite Zmult_mod_idemp_l, Zmult_mod_idemp_r; f_equal; lia.
  - apply MUL_Res_eq; try assumption.
    rewrite Hv1, Z.mul_1_r, Z.mod_small by lia. reflexivity.
  - apply MUL_Res_eq; try assumption.
    rewrite Hv0, Z.mul_0_r. reflexivity.
Qed.

Lemma MUL_laws_witness :
  wf_word (word_of_Z 7) /\ wf_word (word_of_Z 6) /\
  MUL_Res (word_of_Z 7) (word_of_Z 6) = MUL_Res (word_of_Z 6) (word_of_Z 7).
Proof.
  destruct wf_word_of_Z_examples as (H5 & _ & _ & H7 & H6).
  split; [exact H7|]. split; [exact H6|].
  destruct (MUL_laws (word_of_Z 7) (word_of_Z 6) (word_of_Z 5) H7 H6 H5) as [Hcomm _].
  exact Hcomm.
Defined.

(** X21. On 256-bit words the multiplication of the MUL case distributes
    over [addUInt256]: multiplying [A] with the sum of [B] and [C] gives
    the sum of the two products, all three results taken modulo [2^256]. *)
Theorem MUL_distributes (A B C : UInt256) :
  wf_word A -> wf_word B -> wf_word C ->
  exists AB AC,
    MUL_Res A B = Ok AB /\ MUL_Res A C = Ok AC /\
    MUL_Res A (addUInt256 B C) = Ok (addUInt256 AB AC).
Proof.
  intros HA HB HC.
  destruct (MUL_Res_spec A B HA HB) as (AB & Hrun1 & HwAB & HvAB).
  destruct (MUL_Res_spec A C HA HC) as (AC & Hrun2 & HwAC & HvAC).
  exists AB, AC. split; [exact Hrun1|]. split; [exact Hrun2|].
  apply MUL_Res_eq; [exact HA | apply addUInt256_wf; assumption
                    | apply addUInt256_wf; assumption |].
  rewrite !addUInt256_value by assumption. rewrite HvAB, HvAC.
  rewrite Zmult_mod_idemp_r, <- Zplus_mod. f_equal. lia.
Qed.

Lemma MUL_distributes_witness :
  wf_word (word_of_Z 7) /\
  exists AB AC,
    MUL_Res (word_of_Z 7) (word_of_Z 6) = Ok AB /\
    MUL_Res (word_of_Z 7) (word_of_Z 5) = Ok AC /\
    MUL_Res (word_of_Z 7) (addUInt256 (word_of_Z 6) (word_of_Z 5)) = Ok (addUInt256 AB AC).
Proof.
  destruct wf_word_of_Z_examples as (H5 & _ & _ & H7 & H6).
  split; [exact H7|].
  exact (MUL_distributes (word_of_Z 7) (word_of_Z 6) (word_of_Z 5) H7 H6 H5).
Defined.

(** ** Where the defined behaviour can be left *)











